(** * psec: a parser-combinator library over byte streams

    A shallow embedding of the Go package [psec] (streams with location
    tracking, parse errors and their rendering, the primitive parsers, the
    combinators, the grammar table and the driver), followed by the
    properties of the specification stated and settled against it.

    Conventions of the embedding:
    - a Go [string] is a [string] (a sequence of 8-bit [ascii] bytes), a
      [byte] is an [ascii];
    - a Go [int] is a [Z] kept in the signed 64-bit range by [Int.wrap], a
      [uint] is a [Z] kept in the unsigned 64-bit range by [UInt.wrap];
    - a pointer or interface that may be [nil] is an [option];
    - a call that may abort the program returns an [outcome]: it returns a
      value, panics, or (for the recursive descent itself) runs out of the
      fuel that bounds the embedding's recursion;
    - the grammar's symbol table is a [gmap string Parser]. *)

From Stdlib Require Import ZArith String Ascii List Lia DecimalString.
From stdpp Require Import gmap strings.
Import ListNotations.

Set Warnings "-register-all".
Local Open Scope string_scope.

(* ===================================================================== *)
(** ** Machine integers *)
(* ===================================================================== *)

Module Int.
(** Go's [int] on a 64-bit platform: two's complement wrap-around. *)
Definition wrap (z : Z) : Z := ((z + 2 ^ 63) mod 2 ^ 64 - 2 ^ 63)%Z.
Definition add (a b : Z) : Z := wrap (a + b).
End Int.

Module UInt.
(** Go's [uint] on a 64-bit platform. *)
Definition wrap (z : Z) : Z := (z mod 2 ^ 64)%Z.
Definition add (a b : Z) : Z := wrap (a + b).
(** [uint(len(s))]: conversion of a non-negative [int]. *)
Definition of_len (n : nat) : Z := wrap (Z.of_nat n).
End UInt.

(* ===================================================================== *)
(** ** The fragment of [fmt] and [strings] the package uses *)
(* ===================================================================== *)

Module Fmt.

(** An operand handed to [Sprintf].  [OpV] carries what the [%v] verb
    prints for the operand (for an [error] its [Error()] text, ["<nil>"]
    for a nil one). *)
Inductive operand : Type :=
| OpS (s : string)
| OpD (n : Z)
| OpC (b : ascii)
| OpV (shown : string).

(** [%d] of an [int]. *)
Definition fmt_d (n : Z) : string := NilZero.string_of_int (Z.to_int n).

(** [%c] of a [byte]: the UTF-8 encoding of the code point of that
    number (one byte below 0x80, two bytes from 0x80 to 0xFF). *)
Definition fmt_c (b : ascii) : string :=
  let n := N_of_ascii b in
  if (n <? 128)%N then String b EmptyString
  else String (ascii_of_N (N.lor 192 (N.shiftr n 6)))
         (String (ascii_of_N (N.lor 128 (N.land n 63))) EmptyString).

(** One directive applied to one operand.  The package only ever pairs
    [%s] with a string, [%d] with an int, [%c] with a byte and [%v] with
    an error; any other pairing is reported the way [fmt] reports a bad
    verb, without the operand's type and value. *)
Definition render (verb : ascii) (op : operand) : string :=
  match op with
  | OpS s => if (verb =? "s")%char || (verb =? "v")%char then s
             else "%!" +:+ String verb "(string)"
  | OpD n => if (verb =? "d")%char || (verb =? "v")%char then fmt_d n
             else "%!" +:+ String verb "(int)"
  | OpC b => if (verb =? "c")%char then fmt_c b
             else "%!" +:+ String verb "(uint8)"
  | OpV shown => if (verb =? "v")%char || (verb =? "s")%char then shown
                 else "%!" +:+ String verb "(error)"
  end.

(** [fmt.Sprintf] for plain directives: [%%] prints a percent sign, a
    directive without an operand prints [%!verb(MISSING)], a trailing
    percent sign prints [%!(NOVERB)].  Flags, widths and precisions do
    not occur in the package's format strings and are not modelled;
    operands left over at the end are dropped. *)
Fixpoint Sprintf (format : string) (args : list operand) : string :=
  match format with
  | EmptyString => EmptyString
  | String c rest =>
      if (c =? "%")%char then
        match rest with
        | EmptyString => "%!(NOVERB)"
        | String verb rest' =>
            if (verb =? "%")%char then String "%" (Sprintf rest' args)
            else match args with
                 | [] => "%!" +:+ String verb "(MISSING)" +:+ Sprintf rest' []
                 | a :: args' => render verb a +:+ Sprintf rest' args'
                 end
        end
      else String c (Sprintf rest args)
  end.

(** [strings.Join]. *)
Fixpoint Join (elems : list string) (sep : string) : string :=
  match elems with
  | [] => ""
  | [x] => x
  | x :: rest => x +:+ sep +:+ Join rest sep
  end.

(** The first byte of [strings.ToUpper(string(h))] for a byte [h]:
    [string(h)] is the UTF-8 encoding of the code point [h], so for
    [h >= 0x80] the result is the lead byte of the encoding of the
    upper-cased Latin-1 letter. *)
Definition upperByte (h : ascii) : ascii :=
  let n := N_of_ascii h in
  if (n <? 128)%N then
    if (97 <=? n)%N && (n <=? 122)%N then ascii_of_N (n - 32) else h
  else if (n =? 181)%N then ascii_of_N 206      (* U+00B5 -> U+039C *)
  else if (n =? 255)%N then ascii_of_N 197      (* U+00FF -> U+0178 *)
  else if (n <? 192)%N then ascii_of_N 194
  else ascii_of_N 195.

(** [strings.ToUpper] on a string of bytes below 0x80 (its ASCII fast
    path); bytes from 0x80 on are left as they are. *)
Fixpoint ToUpper (s : string) : string :=
  match s with
  | EmptyString => EmptyString
  | String c rest =>
      let n := N_of_ascii c in
      String (if (97 <=? n)%N && (n <=? 122)%N then ascii_of_N (n - 32) else c)
             (ToUpper rest)
  end.

End Fmt.
Import Fmt.

(* ===================================================================== *)
(** ** Outcomes of calls that may panic *)
(* ===================================================================== *)

Inductive outcome (A : Type) : Type :=
| Returns (a : A)
| Panics (msg : string)
| OutOfFuel.
Arguments Returns {A} a.
Arguments Panics {A} msg.
Arguments OutOfFuel {A}.

#[global] Instance outcome_ret : MRet outcome := fun A a => Returns a.
#[global] Instance outcome_bind : MBind outcome := fun A B k m =>
  match m with
  | Returns a => k a
  | Panics msg => Panics msg
  | OutOfFuel => OutOfFuel
  end.

Definition nil_deref {A : Type} : outcome A :=
  Panics "invalid memory address or nil pointer dereference".
Definition index_out_of_range {A : Type} : outcome A :=
  Panics "index out of range".

(* ===================================================================== *)
(** ** Locations and parse errors *)
(* ===================================================================== *)

Record Loc : Type := mkLoc {
  Filename : string;
  Line : Z;
  Col : Z
}.

Record parseError : Type := mkParseError {
  expected : list string;
  message : string;
  loc : Loc
}.

Definition mkErrorExpectations (l : Loc) (exps : list string) : parseError :=
  {| expected := exps; message := ""; loc := l |}.

Definition mkErrorExpect (l : Loc) (expect : string) (args : list operand)
  : parseError :=
  mkErrorExpectations l [Sprintf expect args].

Definition mkErrorMessage (l : Loc) (msg : string) (args : list operand)
  : parseError :=
  {| expected := []; message := Sprintf msg args; loc := l |}.

(** The method [Error] of [parseError]. *)
Definition Error (e : parseError) : string :=
  let prefix := Sprintf "%s line %d col %d"
                  [OpS (Filename (loc e)); OpD (Line (loc e)); OpD (Col (loc e))] in
  match expected e with
  | [e0] =>
      if String.eqb (message e) "" then
        Sprintf "%s: expected %s" [OpS prefix; OpS e0]
      else
        Sprintf "%s: %s, expected %s" [OpS prefix; OpS (message e); OpS e0]
  | _ :: _ :: _ =>
      if String.eqb (message e) "" then
        Sprintf "%s: expected one of %s"
          [OpS prefix; OpS (Join (expected e) ", ")]
      else
        Sprintf "%s: %s, expected one of %s"
          [OpS prefix; OpS (message e); OpS (Join (expected e) ", ")]
  | [] => Sprintf "%s: %s" [OpS prefix; OpS (message e)]
  end.

(** What [%v] prints for an error operand that may be nil. *)
Definition show_error (err : option parseError) : string :=
  match err with
  | None => "<nil>"
  | Some e => Error e
  end.

(* ===================================================================== *)
(** ** Values and actions *)
(* ===================================================================== *)

(** What an [interface{}] slot of a stream can hold: the values the
    library itself produces ([nil], a byte, a string, a slice of values)
    and, for the results of user actions, integers, booleans and tagged
    user data. *)
Inductive Value : Type :=
| VNil
| VByte (b : ascii)
| VString (s : string)
| VList (l : list Value)
| VInt (n : Z)
| VBool (b : bool)
| VUser (tag : string) (fields : list Value).

(** [type Action func(results interface{}) (interface{}, error)]: the
    second component is the text of the returned error, [None] for a nil
    error.  An action is user code, so it may also panic. *)
Definition Action : Type := Value -> outcome (Value * option string).

(* ===================================================================== *)
(** ** Streams *)
(* ===================================================================== *)

(** [stringPS].  The Go struct also has a [tail] pointer that caches the
    node built by the first call of [Tail]; that node is a function of the
    fields [str], [pos], [filename], [line] and [col] alone, which
    [SetValue] copies unchanged together with the pointer, so the cache is
    not part of the value here (see [Cache] below, where the cached and the
    recomputed tail are proved equal). *)
Record stringPS : Type := mkStringPS {
  str : string;
  pos : Z;          (* uint *)
  filename : string;
  line : Z;         (* int *)
  col : Z;          (* int *)
  value : Value
}.

(** [s[i]] for a [uint] index. *)
Definition byteAt (s : string) (i : Z) : option ascii :=
  String.get (Z.to_nat i) s.

Definition newline : ascii := "010"%char.

Definition Head (s : stringPS) : ascii * bool :=
  if (pos s >=? UInt.of_len (String.length (str s)))%Z then (zero, true)
  else match byteAt (str s) (pos s) with
       | Some b => (b, false)
       | None => (zero, false)   (* not reached: here pos < len(str) *)
       end.

Definition Tail (s : stringPS) : outcome stringPS :=
  let tail := {| str := str s;
                 pos := UInt.add (pos s) 1;
                 filename := filename s;
                 line := line s;
                 col := col s;
                 value := VNil |} in
  match byteAt (str s) (pos s) with
  | None => index_out_of_range
  | Some b =>
      (* If the character we just skipped was a newline, bump the line. *)
      if (b =? newline)%char then
        Returns {| str := str tail; pos := pos tail; filename := filename tail;
                   line := Int.add (line s) 1; col := 0; value := value tail |}
      else Returns tail
  end.

Definition GetValue (s : stringPS) : Value := value s.

Definition SetValue (s : stringPS) (v : Value) : stringPS :=
  {| str := str s; pos := pos s; filename := filename s;
     line := line s; col := col s; value := v |}.

Definition LocOf (s : stringPS) : Loc :=
  {| Filename := filename s; Line := line s; Col := col s |}.

(** The stream the driver starts from. *)
Definition initialStream (file input : string) : stringPS :=
  {| str := input; pos := 0; filename := file; line := 1; col := 0;
     value := VNil |}.

(** *** The cached tail

    The Go streams are heap nodes reached through pointers: [Tail] stores
    the node it builds in the field [tail] of its receiver and returns the
    stored pointer from then on, and [SetValue] copies its receiver,
    pointer included.  [Cache] models that heap; [Cache_Tail] and
    [Cache_SetValue] below show that the node a pointer leads to always
    has the content the functions [Tail] and [SetValue] above compute.
    A call that panics ends the program, so no heap is returned for it. *)
Module Cache.

Local Abbreviation pureTail := Tail.
Local Abbreviation pureSetValue := SetValue.

(** A [*stringPS] is the index of a node in the heap. *)
Record node : Type := mkNode {
  content : stringPS;
  tail : option nat
}.

Abbreviation heap := (list node).

Definition load (h : heap) (s : nat) : outcome node :=
  match h !! s with
  | Some nd => Returns nd
  | None => nil_deref
  end.

Definition alloc (h : heap) (nd : node) : heap * nat :=
  ((h ++ [nd])%list, length h).

(** The method [Tail]: on a receiver without cached tail, the new node is
    allocated and stored in the receiver's [tail] field. *)
Definition Tail (h : heap) (s : nat) : outcome (heap * nat) :=
  nd ← load h s;
  match tail nd with
  | Some t => Returns (h, t)
  | None =>
      t ← pureTail (content nd);
      let '(h1, r) := alloc h {| content := t; tail := None |} in
      Returns (<[s := {| content := content nd; tail := Some r |}]> h1, r)
  end.

(** The method [SetValue]: [dup := *s; dup.value = v; return &dup]. *)
Definition SetValue (h : heap) (s : nat) (v : Value) : outcome (heap * nat) :=
  nd ← load h s;
  Returns (alloc h {| content := pureSetValue (content nd) v;
                      tail := tail nd |}).

(** Every cached pointer leads to the node [Tail] computes. *)
Definition consistent (h : heap) : Prop :=
  forall s nd t, h !! s = Some nd -> tail nd = Some t ->
    exists nt, h !! t = Some nt /\ pureTail (content nd) = Returns (content nt).

(** The nodes of [h] are in [h'], with the same content. *)
Definition extends (h h' : heap) : Prop :=
  forall s nd, h !! s = Some nd ->
    exists nd', h' !! s = Some nd' /\ content nd' = content nd.

End Cache.

(* ===================================================================== *)
(** ** Parsers *)
(* ===================================================================== *)

(** One constructor per struct implementing the [Parser] interface, with
    the struct's fields. *)
Inductive Parser : Type :=
| pLiteral (target : string)
| pLiteralIC (target upcased : string)
| pAlt (parsers : list Parser)
| pSeq (parsers : list Parser)
| pSeqAt (parsers : list Parser) (index : Z)
| pOptional (inner : Parser)
| pAnyChar
| pOneOf (options : string)
| pNoneOf (blacklist : string)
| pRange (lo hi : ascii)
| pMany (inner : Parser) (min : Z) (capture : bool)
| pSepBy (inner sep : Parser) (min : Z)
| pEndBy (inner sep : Parser) (min : Z)
| pManyTill (inner terminator : Parser)
| pWithAction (inner : Parser) (action : Action)
| pSymbol (name : string).

(** What [Parse] returns: [(Stream, *parseError)], either of which may be
    nil. *)
Definition ParseResult : Type := (option stringPS * option parseError)%type.

Definition success (s : stringPS) : outcome ParseResult := Returns (Some s, None).
Definition failure (e : parseError) : outcome ParseResult := Returns (None, Some e).

(** The type of [Parse] once the symbol table is fixed; the combinators'
    loops below take the recursive call as a parameter of this type. *)
Definition parseFn : Type := Parser -> stringPS -> outcome ParseResult.

(** Calling a method on a [Stream] that may be nil. *)
Definition deref {A B : Type} (o : option A) (k : A -> outcome B) : outcome B :=
  match o with
  | None => nil_deref
  | Some a => k a
  end.

(** *** Primitives *)

(** The loop of [pLiteral.Parse]; [rest] is [target[i:]]. *)
Fixpoint literal_loop (target rest : string) (ps : stringPS)
  : outcome ParseResult :=
  match rest with
  | EmptyString => success (SetValue ps (VString target))
  | String t rest' =>
      let '(h, eof) := Head ps in
      if eof || negb (t =? h)%char then
        failure (mkErrorExpect (LocOf ps) "literal '%s'" [OpS target])
      else
        ps' ← Tail ps; literal_loop target rest' ps'
  end.

(** The loop of [pLiteralIC.Parse]; [rest] is [target[i:]]. *)
Fixpoint literalIC_loop (target upcased rest : string) (i : nat)
  (ps : stringPS) : outcome ParseResult :=
  match rest with
  | EmptyString => success (SetValue ps (VString target))
  | String _ rest' =>
      let '(h, eof) := Head ps in
      if eof then
        failure (mkErrorExpect (LocOf ps) "literal '%s'" [OpS target])
      else
        match String.get i upcased with
        | None => index_out_of_range
        | Some u =>
            if negb (u =? upperByte h)%char then
              failure (mkErrorExpect (LocOf ps) "literal '%s'" [OpS target])
            else
              ps' ← Tail ps; literalIC_loop target upcased rest' (S i) ps'
        end
  end.

(** [for i := 0; i < len(set); i++ { if c == set[i] ... }]. *)
Fixpoint containsByte (set : string) (c : ascii) : bool :=
  match set with
  | EmptyString => false
  | String x rest => if (c =? x)%char then true else containsByte rest c
  end.

Definition byte_le (a b : ascii) : bool := (N_of_ascii a <=? N_of_ascii b)%N.

Definition parseAnyChar (ps : stringPS) : outcome ParseResult :=
  let '(c, eof) := Head ps in
  if eof then failure (mkErrorMessage (LocOf ps) "unexpected EOF" [])
  else t ← Tail ps; success (SetValue t (VByte c)).

Definition parseOneOf (options : string) (ps : stringPS) : outcome ParseResult :=
  let '(c, eof) := Head ps in
  if eof then
    failure (mkErrorMessage (LocOf ps) "unexpected EOF, expected one of '%s'"
               [OpS options])
  else if containsByte options c then
    t ← Tail ps; success (SetValue t (VByte c))
  else failure (mkErrorMessage (LocOf ps) "expected one of: %s" [OpS options]).

Definition parseNoneOf (blacklist : string) (ps : stringPS) : outcome ParseResult :=
  let '(c, eof) := Head ps in
  if eof then failure (mkErrorMessage (LocOf ps) "unexpected EOF" [])
  else if containsByte blacklist c then
    failure (mkErrorMessage (LocOf ps) "unexpected %c" [OpC c])
  else t ← Tail ps; success (SetValue t (VByte c)).

Definition parseRange (lo hi : ascii) (ps : stringPS) : outcome ParseResult :=
  let '(c, eof) := Head ps in
  if negb eof && byte_le lo c && byte_le c hi then
    t ← Tail ps; success (SetValue t (VByte c))
  else failure (mkErrorExpect (LocOf ps) "range(%c..%c)" [OpC lo; OpC hi]).

(** *** Combinators

    Each loop takes the recursive call [parse] as a parameter.  The loops
    over a slice of parsers recurse on that slice; the unbounded loops
    ([for { ... }], [for ps != nil { ... }]) recurse on a budget [n] of
    iterations and report [OutOfFuel] when it is used up. *)

(** First loop of [pAlt.Parse]: the first child that returns a non-nil
    stream wins ([inl]); otherwise the children's errors are collected in
    order ([inr]). *)
Fixpoint alt_loop (parse : parseFn) (parsers : list Parser) (ps : stringPS)
  (errs : list (option parseError))
  : outcome (stringPS + list (option parseError)) :=
  match parsers with
  | [] => Returns (inr errs)
  | inner :: parsers' =>
      '(ret, err) ← parse inner ps;
      match ret with
      | Some r => Returns (inl r)
      | None => alt_loop parse parsers' ps (errs ++ [err])
      end
  end.

(** Second loop of [pAlt.Parse]: [exps = append(exps, err.expected...)]. *)
Fixpoint alt_expectations (errs : list (option parseError)) (exps : list string)
  : outcome (list string) :=
  match errs with
  | [] => Returns exps
  | err :: errs' =>
      deref err (fun e => alt_expectations errs' (exps ++ expected e))
  end.

Definition parseAlt (parse : parseFn) (parsers : list Parser) (ps : stringPS)
  : outcome ParseResult :=
  r ← alt_loop parse parsers ps [];
  match r with
  | inl ret => success ret
  | inr errs =>
      exps ← alt_expectations errs [];
      failure (mkErrorExpectations (LocOf ps) exps)
  end.

(** The loop of [pSeq.Parse]; [i] is the index of the head of [parsers],
    [out] the slice being filled.  The result is an error to return
    ([inl]) or the final stream and slice ([inr]). *)
Fixpoint seq_loop (parse : parseFn) (parsers : list Parser) (i : nat)
  (ps : stringPS) (out : list Value)
  : outcome (parseError + stringPS * list Value) :=
  match parsers with
  | [] => Returns (inr (ps, out))
  | inner :: parsers' =>
      '(ps1, err) ← parse inner ps;
      match err with
      | Some e => Returns (inl e)
      | None =>
          deref ps1 (fun s1 =>
            seq_loop parse parsers' (S i) s1 (<[i := GetValue s1]> out))
      end
  end.

Definition parseSeq (parse : parseFn) (parsers : list Parser) (ps : stringPS)
  : outcome ParseResult :=
  r ← seq_loop parse parsers 0 ps (replicate (length parsers) VNil);
  match r with
  | inl e => failure e
  | inr (ps', out) => success (SetValue ps' (VList out))
  end.

(** The loop of [pSeqAt.Parse]. *)
Fixpoint seqAt_loop (parse : parseFn) (parsers : list Parser) (index : Z)
  (i : nat) (ps : stringPS) (v : Value)
  : outcome (parseError + stringPS * Value) :=
  match parsers with
  | [] => Returns (inr (ps, v))
  | inner :: parsers' =>
      '(ps1, err) ← parse inner ps;
      match err with
      | Some e => Returns (inl e)
      | None =>
          if (Z.of_nat i =? index)%Z then
            deref ps1 (fun s1 =>
              seqAt_loop parse parsers' index (S i) s1 (GetValue s1))
          else
            (* the stream is first used by the next child, or by the final
               SetValue *)
            deref ps1 (fun s1 => seqAt_loop parse parsers' index (S i) s1 v)
      end
  end.

Definition parseSeqAt (parse : parseFn) (parsers : list Parser) (index : Z)
  (ps : stringPS) : outcome ParseResult :=
  r ← seqAt_loop parse parsers index 0 ps VNil;
  match r with
  | inl e => failure e
  | inr (ps', v) => success (SetValue ps' v)
  end.

Definition parseOptional (parse : parseFn) (inner : Parser) (ps : stringPS)
  : outcome ParseResult :=
  '(res, _) ← parse inner ps;
  match res with
  | Some r => success r
  | None => success (SetValue ps VNil)
  end.

(** The state of [pMany.Parse] when its loop breaks. *)
Record manyState : Type := mkManyState {
  many_ps : stringPS;
  many_found : Z;
  many_results : list Value;
  many_err : parseError
}.

Fixpoint many_loop (parse : parseFn) (n : nat) (inner : Parser) (capture : bool)
  (ps : stringPS) (found : Z) (results : list Value) : outcome manyState :=
  match n with
  | O => OutOfFuel
  | S n' =>
      '(ps2, err) ← parse inner ps;
      match err with
      | Some e =>
          Returns {| many_ps := ps; many_found := found;
                     many_results := results; many_err := e |}
      | None =>
          (* a nil [ps2] is dereferenced by [ps2.Value()] when capturing,
             and by the inner parser on the next round otherwise *)
          deref ps2 (fun s2 =>
            many_loop parse n' inner capture s2 (Int.add found 1)
              (if capture then results ++ [GetValue s2] else results))
      end
  end.

Definition parseMany (parse : parseFn) (n : nat) (inner : Parser) (min : Z)
  (capture : bool) (ps : stringPS) : outcome ParseResult :=
  st ← many_loop parse n inner capture ps 0 [];
  if (many_found st <? min)%Z then
    failure {| loc := LocOf (many_ps st);
               message := Sprintf "minimum %d" [OpD min];
               expected := expected (many_err st) |}
  else if capture then
    success (SetValue (many_ps st) (VList (many_results st)))
  else
    success (SetValue (many_ps st) VNil).

(** The variables of [pSepBy.Parse] and [pEndBy.Parse] after their loop. *)
Record sepState : Type := mkSepState {
  sep_ps : option stringPS;
  sep_last : option stringPS;
  sep_err : option parseError;
  sep_results : list Value
}.

Fixpoint sepBy_loop (parse : parseFn) (n : nat) (inner sep : Parser)
  (ps last : option stringPS) (err : option parseError) (results : list Value)
  : outcome sepState :=
  match ps with
  | None =>
      Returns {| sep_ps := None; sep_last := last; sep_err := err;
                 sep_results := results |}
  | Some s =>
      match n with
      | O => OutOfFuel
      | S n' =>
          (* last = ps *)
          '(ps1, err1) ← parse inner s;
          match ps1 with
          | None =>
              Returns {| sep_ps := None; sep_last := Some s; sep_err := err1;
                         sep_results := results |}
          | Some s1 =>
              (* results = append(results, ps.Value()); last = ps *)
              '(ps2, err2) ← parse sep s1;
              sepBy_loop parse n' inner sep ps2 (Some s1) err2
                (results ++ [GetValue s1])
          end
      end
  end.

(** What follows the loop, the same in [pSepBy.Parse] and [pEndBy.Parse]. *)
Definition sep_finish (min : Z) (st : sepState) : outcome ParseResult :=
  if (min >? Z.of_nat (length (sep_results st)))%Z then
    deref (sep_ps st) (fun s =>
      failure (mkErrorMessage (LocOf s) "expected at least %d: %v"
                 [OpD min; OpV (show_error (sep_err st))]))
  else
    deref (sep_last st) (fun l =>
      success (SetValue l (VList (sep_results st)))).

Definition parseSepBy (parse : parseFn) (n : nat) (inner sep : Parser) (min : Z)
  (ps : stringPS) : outcome ParseResult :=
  st ← sepBy_loop parse n inner sep (Some ps) None None [];
  sep_finish min st.

Fixpoint endBy_loop (parse : parseFn) (n : nat) (inner sep : Parser)
  (ps last : option stringPS) (err : option parseError) (results : list Value)
  : outcome sepState :=
  match ps with
  | None =>
      Returns {| sep_ps := None; sep_last := last; sep_err := err;
                 sep_results := results |}
  | Some s =>
      match n with
      | O => OutOfFuel
      | S n' =>
          (* last = ps *)
          '(ps1, err1) ← parse inner s;
          match ps1 with
          | None =>
              Returns {| sep_ps := None; sep_last := Some s; sep_err := err1;
                         sep_results := results |}
          | Some s1 =>
              (* results = append(results, ps.Value()) *)
              '(ps2, err2) ← parse sep s1;
              endBy_loop parse n' inner sep ps2 (Some s) err2
                (results ++ [GetValue s1])
          end
      end
  end.

Definition parseEndBy (parse : parseFn) (n : nat) (inner sep : Parser) (min : Z)
  (ps : stringPS) : outcome ParseResult :=
  st ← endBy_loop parse n inner sep (Some ps) None None [];
  sep_finish min st.

Fixpoint manyTill_loop (parse : parseFn) (n : nat) (inner terminator : Parser)
  (ps : stringPS) (results : list Value) : outcome ParseResult :=
  match n with
  | O => OutOfFuel
  | S n' =>
      '(tps, _) ← parse terminator ps;
      match tps with
      | Some t => success (SetValue t (VList results))
      | None =>
          '(ps1, err) ← parse inner ps;
          match err with
          | Some e =>
              deref ps1 (fun s1 =>
                failure (mkErrorMessage (LocOf s1) "failed to parse many %v"
                           [OpV (Error e)]))
          | None =>
              deref ps1 (fun s1 =>
                manyTill_loop parse n' inner terminator s1
                  (results ++ [GetValue s1]))
          end
      end
  end.

Definition parseWithAction (parse : parseFn) (inner : Parser) (action : Action)
  (ps : stringPS) : outcome ParseResult :=
  '(ps1, err) ← parse inner ps;
  match err with
  | Some e => failure e
  | None =>
      deref ps1 (fun s1 =>
        '(res, e) ← action (GetValue s1);
        match e with
        | Some text => failure (mkErrorMessage (LocOf s1) text [])
        | None => success (SetValue s1 res)
        end)
  end.

(** *** [Parse] *)

(** One call of the method [Parse] of the parser [p], with [parse] for the
    calls it makes on other parsers and [n] rounds for its unbounded
    loop. *)
Definition parseStep (parse : parseFn) (n : nat) (g : gmap string Parser)
  (p : Parser) (ps : stringPS) : outcome ParseResult :=
  match p with
  | pLiteral target => literal_loop target target ps
  | pLiteralIC target upcased => literalIC_loop target upcased target 0 ps
  | pAlt parsers => parseAlt parse parsers ps
  | pSeq parsers => parseSeq parse parsers ps
  | pSeqAt parsers index => parseSeqAt parse parsers index ps
  | pOptional inner => parseOptional parse inner ps
  | pAnyChar => parseAnyChar ps
  | pOneOf options => parseOneOf options ps
  | pNoneOf blacklist => parseNoneOf blacklist ps
  | pRange lo hi => parseRange lo hi ps
  | pMany inner min capture => parseMany parse n inner min capture ps
  | pSepBy inner sep min => parseSepBy parse n inner sep min ps
  | pEndBy inner sep min => parseEndBy parse n inner sep min ps
  | pManyTill inner terminator => manyTill_loop parse n inner terminator ps []
  | pWithAction inner action => parseWithAction parse inner action ps
  | pSymbol name =>
      match g !! name with
      | Some inner => parse inner ps
      | None => Panics (Sprintf "no symbol named '%s'" [OpS name])
      end
  end.

(** [Parse fuel g p ps]: the method [Parse] of the parser [p] on the
    stream [ps] with the symbol table [g].  [fuel] bounds the depth of
    nested calls and the number of rounds of each unbounded loop. *)
Fixpoint Parse (fuel : nat) (g : gmap string Parser) (p : Parser)
  (ps : stringPS) {struct fuel} : outcome ParseResult :=
  match fuel with
  | O => OutOfFuel
  | S fuel' => parseStep (Parse fuel' g) fuel' g p ps
  end.

(* ===================================================================== *)
(** ** The constructors of the package *)
(* ===================================================================== *)

Definition Literal (s : string) : Parser := pLiteral s.
Definition LiteralIC (s : string) : Parser := pLiteralIC s (ToUpper s).
Definition Alt (parsers : list Parser) : Parser := pAlt parsers.
Definition Seq (parsers : list Parser) : Parser := pSeq parsers.
Definition SeqAt (index : Z) (parsers : list Parser) : Parser :=
  pSeqAt parsers index.
Definition Optional (p : Parser) : Parser := pOptional p.
Definition AnyChar : Parser := pAnyChar.
Definition OneOf (options : string) : Parser := pOneOf options.
Definition NoneOf (blacklist : string) : Parser := pNoneOf blacklist.
Definition Range (lo hi : ascii) : Parser := pRange lo hi.
Definition ManyMin (p : Parser) (min : Z) : Parser := pMany p min true.
Definition Many (p : Parser) : Parser := ManyMin p 0.
Definition Many1 (p : Parser) : Parser := ManyMin p 1.
Definition ManyDrop (p : Parser) : Parser := pMany p 0 false.
Definition SepBy (p sep : Parser) : Parser := pSepBy p sep 0.
Definition SepBy1 (p sep : Parser) : Parser := pSepBy p sep 1.
Definition EndBy (p sep : Parser) : Parser := pEndBy p sep 0.
Definition EndBy1 (p sep : Parser) : Parser := pEndBy p sep 1.
Definition ManyTill (inner terminator : Parser) : Parser :=
  pManyTill inner terminator.
Definition parserWithAction (p : Parser) (act : Action) : Parser :=
  pWithAction p act.
Definition Symbol (name : string) : Parser := pSymbol name.

(** [out[i] = c.(byte)] for every element of the slice; [None] when some
    element is not a byte (the type assertion panics). *)
Fixpoint bytesOf (res : list Value) : option string :=
  match res with
  | [] => Some EmptyString
  | VByte b :: rest => String b <$> bytesOf rest
  | _ :: _ => None
  end.

(** The action [Stringify] wraps its parser with. *)
Definition stringifyAction : Action := fun raw =>
  match raw with
  | VList res =>
      match bytesOf res with
      | Some out => Returns (VString out, None)
      | None => Panics "interface conversion: interface {} is not uint8"
      end
  | _ => Panics "interface conversion: interface {} is not []interface {}"
  end.

Definition Stringify (p : Parser) : Parser :=
  parserWithAction p stringifyAction.

(* ===================================================================== *)
(** ** Grammars and the driver *)
(* ===================================================================== *)

Record Grammar : Type := mkGrammar {
  symbols : gmap string Parser;
  startSymbol : string
}.

Definition NewGrammar : Grammar :=
  {| symbols := ∅; startSymbol := "START" |}.

(** The methods below mutate the grammar's table in place; here they
    return the grammar after the call. *)
Definition AddSymbol (g : Grammar) (name : string) (p : Parser) : Grammar :=
  {| symbols := <[name := p]> (symbols g); startSymbol := startSymbol g |}.

Definition AddSymbols (g : Grammar) (syms : gmap string Parser) : Grammar :=
  map_fold (fun k v acc => AddSymbol acc k v) g syms.

(** [AddAction] is the one method that can also panic: the result is the
    grammar as the call leaves it and how the call ended. *)
Definition AddAction (g : Grammar) (name : string) (action : Action)
  : Grammar * outcome unit :=
  let g' := match symbols g !! name with
            | Some p =>
                {| symbols := <[name := parserWithAction p action]> (symbols g);
                   startSymbol := startSymbol g |}
            | None => g
            end in
  (g', Panics (Sprintf "no such symbol: '%s'" [OpS name])).

Definition WithAction (g : Grammar) (name : string) (p : Parser)
  (action : Action) : Grammar :=
  {| symbols := <[name := parserWithAction p action]> (symbols g);
     startSymbol := startSymbol g |}.

(** [ParseStringWith] returns [(interface{}, error)]. *)
Definition ParseStringWith (fuel : nat) (g : Grammar)
  (file input startSym : string) : outcome (Value * option parseError) :=
  let ps := initialStream file input in
  match symbols g !! startSym with
  | Some p =>
      '(ps1, err) ← Parse fuel (symbols g) p ps;
      match err with
      | Some e => Returns (VNil, Some e)
      | None =>
          deref ps1 (fun s1 =>
            let '(_, eof) := Head s1 in
            if negb eof then
              Returns (VNil,
                       Some (mkErrorMessage (LocOf s1)
                               "incomplete parse, expected EOF but input remains" []))
            else Returns (GetValue s1, None))
      end
  | None => Panics (Sprintf "start symbol '%s' does not exist" [OpS startSym])
  end.

Definition ParseString (fuel : nat) (g : Grammar) (file input : string)
  : outcome (Value * option parseError) :=
  ParseStringWith fuel g file input "START".

(** The rendered error of a driver call, when it returns one. *)
Definition errorText (r : outcome (Value * option parseError)) : option string :=
  match r with
  | Returns (_, Some e) => Some (Error e)
  | _ => None
  end.

(* ===================================================================== *)
(** ** Notions used to state the properties *)
(* ===================================================================== *)

(** A stream that is a Go value: its position is a [uint] and the length
    of its buffer an [int]. *)
Definition validStream (s : stringPS) : Prop :=
  (0 <= pos s)%Z /\ (Z.of_nat (String.length (str s)) < 2 ^ 63)%Z.

(** [tails k s]: [s.Tail().Tail()...], [k] times. *)
Fixpoint tails (k : nat) (s : stringPS) : outcome stringPS :=
  match k with
  | O => Returns s
  | S k' => t ← Tail s; tails k' t
  end.

(** [advances s s']: [s'] is [s] after some calls of [Tail] and a call of
    [SetValue]. *)
Inductive advances : stringPS -> stringPS -> Prop :=
| advances_here s v : advances s (SetValue s v)
| advances_tail s t s' : Tail s = Returns t -> advances t s' -> advances s s'.

(** The number of [\n] bytes in a string, and in its first [k] bytes. *)
Fixpoint countNewlines (s : string) : Z :=
  match s with
  | EmptyString => 0
  | String c rest => (if (c =? newline)%char then 1 else 0) + countNewlines rest
  end%Z.

Definition prefix (k : nat) (s : string) : string := String.substring 0 k s.

(** The index of the last [\n] of a string, [-1] when it has none. *)
Fixpoint lastNewlineFrom (i : Z) (s : string) (last : Z) : Z :=
  match s with
  | EmptyString => last
  | String c rest =>
      lastNewlineFrom (i + 1) rest (if (c =? newline)%char then i else last)
  end.

Definition lastNewlineIndex (s : string) : Z := lastNewlineFrom 0 s (-1).

(** The line and column the specification gives to offset [k] of an
    input. *)
Definition spec_line (input : string) (k : nat) : Z :=
  (1 + countNewlines (prefix k input))%Z.
Definition spec_col (input : string) (k : nat) : Z :=
  (Z.of_nat k - lastNewlineIndex (prefix k input) - 1)%Z.

(** The fragments of an expected list separated by commas. *)
Definition commaSeparated (es : list string) : string :=
  match es with
  | [] => ""
  | e0 :: rest => e0 +:+ String.concat "" (map (fun e => ", " +:+ e) rest)
  end.

(** [consecutive parse p s vs k s' e]: from [s], the parser [p] succeeds
    [k] times in a row, each application starting where the previous one
    stopped, with values [vs]; the next application, at [s'], fails with
    the error [e]. *)
Inductive consecutive (parse : parseFn) (p : Parser)
  : stringPS -> list Value -> nat -> stringPS -> parseError -> Prop :=
| consecutive_stop s e :
    parse p s = Returns (None, Some e) ->
    consecutive parse p s [] 0 s e
| consecutive_step s s1 vs k s' e :
    parse p s = Returns (Some s1, None) ->
    consecutive parse p s1 vs k s' e ->
    consecutive parse p s (GetValue s1 :: vs) (S k) s' e.

(** A parse result has exactly one of its two components. *)
Definition exclusive (r : ParseResult) : Prop :=
  match r with
  | (Some _, None) | (None, Some _) => True
  | _ => False
  end.

(** What a call of [Parse] on [s] may return: a stream reached from [s]
    and no error, or no stream and an error. *)
Definition sound (s : stringPS) (r : ParseResult) : Prop :=
  match r with
  | (Some s', None) => advances s s'
  | (None, Some _) => True
  | _ => False
  end.

Definition soundFn (parse : parseFn) : Prop :=
  forall p s r, parse p s = Returns r -> sound s r.

(** After the loop of [SepBy] and [EndBy] the variable [ps] is nil and
    [last], when set, is a stream reached from the entry stream. *)
Definition sepInvariant (s0 : stringPS) (st : sepState) : Prop :=
  sep_ps st = None /\ forall l, sep_last st = Some l -> advances s0 l.

(** [steady P p]: the parser [p] has no [ManyTill], no [SepBy] or [EndBy]
    with a positive minimum and no [LiteralIC] whose upper-cased text is
    shorter than its text, and each of its actions satisfies [P]. *)
Inductive steady (P : Action -> Prop) : Parser -> Prop :=
| steady_Literal target : steady P (pLiteral target)
| steady_LiteralIC target upcased :
    (String.length target <= String.length upcased)%nat ->
    steady P (pLiteralIC target upcased)
| steady_Alt parsers : Forall (steady P) parsers -> steady P (pAlt parsers)
| steady_Seq parsers : Forall (steady P) parsers -> steady P (pSeq parsers)
| steady_SeqAt parsers index :
    Forall (steady P) parsers -> steady P (pSeqAt parsers index)
| steady_Optional inner : steady P inner -> steady P (pOptional inner)
| steady_AnyChar : steady P pAnyChar
| steady_OneOf options : steady P (pOneOf options)
| steady_NoneOf blacklist : steady P (pNoneOf blacklist)
| steady_Range lo hi : steady P (pRange lo hi)
| steady_Many inner min capture :
    steady P inner -> steady P (pMany inner min capture)
| steady_SepBy inner sep min :
    steady P inner -> steady P sep -> (min <= 0)%Z ->
    steady P (pSepBy inner sep min)
| steady_EndBy inner sep min :
    steady P inner -> steady P sep -> (min <= 0)%Z ->
    steady P (pEndBy inner sep min)
| steady_WithAction inner action :
    steady P inner -> P action -> steady P (pWithAction inner action)
| steady_Symbol name : steady P (pSymbol name).

(** The panics a parse may end in: [Symbol] on a name that is not in the
    table, and a panic of one of the actions, raised by the action
    itself. *)
Definition allowedPanic (P : Action -> Prop) (g : gmap string Parser)
  (msg : string) : Prop :=
  (exists name, g !! name = None /\
                msg = Sprintf "no symbol named '%s'" [OpS name]) \/
  (exists action v, P action /\ action v = Panics msg).

(** [parse] panics on a valid stream, for a [steady] parser, only in the
    allowed ways. *)
Definition safeFn (P : Action -> Prop) (g : gmap string Parser)
  (parse : parseFn) : Prop :=
  forall p s msg, steady P p -> validStream s ->
    parse p s = Panics msg -> allowedPanic P g msg.

(** [parse] does not look at the value attached to its input stream. *)
Definition valueBlind (parse : parseFn) : Prop :=
  forall p s v, parse p (SetValue s v) = parse p s.

(** [leq a b]: the run [b] agrees with the run [a] unless [a] ran out of
    fuel. *)
Definition leq {A : Type} (a b : outcome A) : Prop :=
  a <> OutOfFuel -> b = a.

(** [parse'] agrees with [parse] wherever [parse] has fuel enough. *)
Definition refines (parse parse' : parseFn) : Prop :=
  forall p s, leq (parse p s) (parse' p s).

(* ===================================================================== *)
(** ** Notions used to describe the combinators *)
(* ===================================================================== *)

(** The [n] bytes of the buffer that start at the cursor (fewer when the
    buffer ends before). *)
Definition inputAt (s : stringPS) (n : nat) : string :=
  String.substring (Z.to_nat (pos s)) n (str s).

(** [upperByte] on every byte of a string. *)
Fixpoint upperAll (w : string) : string :=
  match w with
  | EmptyString => EmptyString
  | String c rest => String (upperByte c) (upperAll rest)
  end.

(** The parsers that look at one byte. *)
Definition singleByte (p : Parser) : bool :=
  match p with
  | pAnyChar | pOneOf _ | pNoneOf _ | pRange _ _ => true
  | _ => false
  end.

(** The combinators none of whose [return] statements can deliver an
    error. *)
Definition errorFree (p : Parser) : bool :=
  match p with
  | pOptional _ | pSepBy _ _ _ | pEndBy _ _ _ | pManyTill _ _ => true
  | _ => false
  end.

(** [threads parse ps s vs s']: the parsers [ps] succeed one after the
    other, each on the stream the previous one returned, from [s] to [s'],
    with the values [vs]. *)
Inductive threads (parse : parseFn)
  : list Parser -> stringPS -> list Value -> stringPS -> Prop :=
| threads_nil s : threads parse [] s [] s
| threads_cons p ps s s1 vs s' :
    parse p s = Returns (Some s1, None) ->
    threads parse ps s1 vs s' ->
    threads parse (p :: ps) s (GetValue s1 :: vs) s'.

(** [sepRun parse inner sep s vs last]: the rounds of the loop of
    [pSepBy.Parse] from [s]: elements with values [vs], and the stream
    [last] the loop ends with. *)
Inductive sepRun (parse : parseFn) (inner sep : Parser)
  : stringPS -> list Value -> stringPS -> Prop :=
| sepRun_none s e :
    parse inner s = Returns (None, Some e) ->
    sepRun parse inner sep s [] s
| sepRun_last s s1 e :
    parse inner s = Returns (Some s1, None) ->
    parse sep s1 = Returns (None, Some e) ->
    sepRun parse inner sep s [GetValue s1] s1
| sepRun_more s s1 s2 vs last :
    parse inner s = Returns (Some s1, None) ->
    parse sep s1 = Returns (Some s2, None) ->
    sepRun parse inner sep s2 vs last ->
    sepRun parse inner sep s (GetValue s1 :: vs) last.

(** The same for the loop of [pEndBy.Parse]. *)
Inductive endRun (parse : parseFn) (inner sep : Parser)
  : stringPS -> list Value -> stringPS -> Prop :=
| endRun_none s e :
    parse inner s = Returns (None, Some e) ->
    endRun parse inner sep s [] s
| endRun_last s s1 e :
    parse inner s = Returns (Some s1, None) ->
    parse sep s1 = Returns (None, Some e) ->
    endRun parse inner sep s [GetValue s1] s
| endRun_more s s1 s2 vs last :
    parse inner s = Returns (Some s1, None) ->
    parse sep s1 = Returns (Some s2, None) ->
    endRun parse inner sep s2 vs last ->
    endRun parse inner sep s (GetValue s1 :: vs) last.

(** [tillRun parse inner terminator s vs t]: the rounds of the loop of
    [pManyTill.Parse] from [s]: the terminator fails and the body succeeds,
    with values [vs], until the terminator succeeds and returns [t]. *)
Inductive tillRun (parse : parseFn) (inner terminator : Parser)
  : stringPS -> list Value -> stringPS -> Prop :=
| tillRun_stop s t :
    parse terminator s = Returns (Some t, None) ->
    tillRun parse inner terminator s [] t
| tillRun_step s e s1 vs t :
    parse terminator s = Returns (None, Some e) ->
    parse inner s = Returns (Some s1, None) ->
    tillRun parse inner terminator s1 vs t ->
    tillRun parse inner terminator s (GetValue s1 :: vs) t.

(** Every error [parse] returns is located in the file of the stream. *)
Definition errorsInFile (parse : parseFn) : Prop :=
  forall p s e, parse p s = Returns (None, Some e) ->
    Filename (loc e) = filename s.

(* ===================================================================== *)
(** * Properties *)
(* ===================================================================== *)

(** ** Strings and formatting *)

Lemma append_cons (c : ascii) (s t : string) :
  String c s +:+ t = String c (s +:+ t).
Proof. reflexivity. Qed.

Lemma append_empty_l (s : string) : "" +:+ s = s.
Proof. reflexivity. Qed.

Lemma append_empty_r (s : string) : s +:+ "" = s.
Proof.
  induction s as [|c s IH]; [reflexivity |].
  now rewrite append_cons, IH.
Qed.

Lemma append_assoc (a b c : string) : (a +:+ b) +:+ c = a +:+ (b +:+ c).
Proof.
  induction a as [|x a IH]; [reflexivity |].
  now rewrite !append_cons, IH.
Qed.

(** Right-nested normal form of a concatenation of strings. *)
Ltac string_normalize :=
  repeat (rewrite append_assoc || rewrite append_cons
          || rewrite append_empty_r || rewrite append_empty_l).

Lemma Join_commaSeparated (es : list string) :
  Join es ", " = commaSeparated es.
Proof.
  destruct es as [|e0 rest]; [reflexivity |].
  revert e0. induction rest as [|e1 rest IH]; intros e0.
  - simpl. now rewrite append_empty_r.
  - change (Join (e0 :: e1 :: rest) ", ")
      with (e0 +:+ ", " +:+ Join (e1 :: rest) ", ").
    rewrite IH. unfold commaSeparated. simpl map.
    destruct rest as [|e2 rest]; simpl String.concat; now string_normalize.
Qed.

Lemma Sprintf_no_verbs_example :
  Sprintf "incomplete parse, expected EOF but input remains" []
  = "incomplete parse, expected EOF but input remains".
Proof. reflexivity. Qed.

(** C5: the rendering of a parse error.  With [head] the text
    ["<file> line L col C: "] and [lead] the text ["<message>, "] when a
    message is present (empty otherwise), [Error] is [head ++ message] for
    an empty expected list, [head ++ lead ++ "expected " ++ e0] for a
    one-element list, and [head ++ lead ++ "expected one of " ++ ] the
    fragments separated by [", "] for a longer one. *)
Theorem C5_error_rendering (e : parseError) :
  let head := Filename (loc e) +:+ " line " +:+ fmt_d (Line (loc e))
              +:+ " col " +:+ fmt_d (Col (loc e)) +:+ ": " in
  let lead := if decide (message e = "") then "" else message e +:+ ", " in
  Error e =
    match expected e with
    | [] => head +:+ message e
    | [e0] => head +:+ lead +:+ "expected " +:+ e0
    | e0 :: e1 :: rest =>
        head +:+ lead +:+ "expected one of " +:+ commaSeparated (e0 :: e1 :: rest)
    end.
Proof.
  intros head lead. subst head lead. unfold Error.
  destruct e as [exps msg [file ln cl]]; simpl expected; simpl message; simpl loc.
  simpl Filename; simpl Line; simpl Col.
  destruct exps as [|e0 [|e1 rest]].
  - simpl. now string_normalize.
  - destruct (decide (msg = "")) as [->|Hne].
    + simpl. now string_normalize.
    + destruct (String.eqb_spec msg ""); [contradiction|].
      simpl. now string_normalize.
  - rewrite Join_commaSeparated.
    destruct (decide (msg = "")) as [->|Hne].
    + simpl. now string_normalize.
    + destruct (String.eqb_spec msg ""); [contradiction|].
      simpl. now string_normalize.
Qed.

(** ** Outcomes *)

Lemma bind_Returns {A B : Type} (m : outcome A) (k : A -> outcome B) (b : B) :
  mbind k m = Returns b -> exists a, m = Returns a /\ k a = Returns b.
Proof. destruct m as [a| |]; simpl; intros H; [eauto | discriminate..]. Qed.

Lemma bind_not_OutOfFuel {A B : Type} (m : outcome A) (k : A -> outcome B) :
  mbind k m <> OutOfFuel ->
  m <> OutOfFuel /\ forall a, m = Returns a -> k a <> OutOfFuel.
Proof.
  destruct m as [a| |]; simpl; intros H; split; congruence.
Qed.

Lemma deref_Returns {A B : Type} (o : option A) (k : A -> outcome B) (b : B) :
  deref o k = Returns b -> exists a, o = Some a /\ k a = Returns b.
Proof. destruct o as [a|]; simpl; intros H; [eauto | discriminate]. Qed.

(** Breaks an equation [... = Returns r] over binds and dereferences into
    the equations of its steps. *)
Ltac inv_returns H :=
  let a := fresh "a" in
  let Ha := fresh "Ha" in
  first
    [ apply bind_Returns in H; destruct H as (a & Ha & H)
    | apply deref_Returns in H; destruct H as (a & Ha & H) ].

(** ** Streams *)

Lemma SetValue_SetValue (s : stringPS) (v w : Value) :
  SetValue (SetValue s v) w = SetValue s w.
Proof. reflexivity. Qed.

Lemma SetValue_same (s : stringPS) : SetValue s (value s) = s.
Proof. now destruct s. Qed.

Lemma Head_SetValue (s : stringPS) (v : Value) : Head (SetValue s v) = Head s.
Proof. reflexivity. Qed.

Lemma Tail_SetValue (s : stringPS) (v : Value) : Tail (SetValue s v) = Tail s.
Proof. reflexivity. Qed.

Lemma LocOf_SetValue (s : stringPS) (v : Value) : LocOf (SetValue s v) = LocOf s.
Proof. reflexivity. Qed.

Lemma Tail_fields (s t : stringPS) :
  Tail s = Returns t ->
  str t = str s /\ filename t = filename s /\ pos t = UInt.add (pos s) 1 /\
  value t = VNil /\
  exists b, byteAt (str s) (pos s) = Some b /\
    line t = (if (b =? newline)%char then Int.add (line s) 1 else line s) /\
    col t = (if (b =? newline)%char then 0%Z else col s).
Proof.
  unfold Tail. destruct (byteAt (str s) (pos s)) as [b|] eqn:Hb; [|discriminate].
  destruct (b =? newline)%char eqn:Hnl; intros [= <-]; simpl;
    repeat split; exists b; rewrite Hnl; auto.
Qed.

Lemma get_Some_lt (s : string) (i : nat) (b : ascii) :
  String.get i s = Some b -> (i < String.length s)%nat.
Proof.
  revert i; induction s as [|c s IH]; intros [|i]; simpl; try discriminate; try lia.
  intros H. apply IH in H. lia.
Qed.

(** Under [validStream], [Tail] moves the position forward by exactly one
    byte, without wrapping, and stays inside the buffer. *)
Lemma Tail_pos (s t : stringPS) :
  validStream s -> Tail s = Returns t ->
  pos t = (pos s + 1)%Z /\ (pos t <= Z.of_nat (String.length (str s)))%Z /\
  validStream t.
Proof.
  intros [Hpos Hlen] HT.
  destruct (Tail_fields _ _ HT) as (Hstr & _ & Hp & _ & b & Hb & _).
  unfold byteAt in Hb. apply get_Some_lt in Hb.
  assert (Hlt : (pos s < Z.of_nat (String.length (str s)))%Z) by lia.
  assert (Hp' : pos t = (pos s + 1)%Z).
  { rewrite Hp. unfold UInt.add, UInt.wrap. apply Z.mod_small. lia. }
  unfold validStream. rewrite Hstr, Hp'. lia.
Qed.

Lemma advances_refl (s : stringPS) : advances s s.
Proof. rewrite <- (SetValue_same s) at 2. constructor. Qed.

Lemma advances_Tail (s t : stringPS) : Tail s = Returns t -> advances s t.
Proof. intros H. eapply advances_tail; [exact H | apply advances_refl]. Qed.

Lemma advances_SetValue_l (s s' : stringPS) (v : Value) :
  advances (SetValue s v) s' -> advances s s'.
Proof.
  intros H. remember (SetValue s v) as sv eqn:E.
  destruct H as [x w | x t s' HT H]; subst x.
  - rewrite SetValue_SetValue. constructor.
  - rewrite Tail_SetValue in HT. eapply advances_tail; eauto.
Qed.

Lemma advances_SetValue_r (s s' : stringPS) (v : Value) :
  advances s s' -> advances s (SetValue s' v).
Proof.
  induction 1 as [s w | s t s' HT H IH].
  - rewrite SetValue_SetValue. constructor.
  - eapply advances_tail; eauto.
Qed.

Lemma advances_trans (a b c : stringPS) :
  advances a b -> advances b c -> advances a c.
Proof.
  induction 1 as [s w | s t s' HT H IH]; intros Hbc.
  - eapply advances_SetValue_l; eauto.
  - eapply advances_tail; eauto.
Qed.

(** A stream reached by [advances] has the same buffer and file name, and
    under [validStream] a position that is not smaller. *)
Lemma advances_fields (s s' : stringPS) :
  advances s s' -> str s' = str s /\ filename s' = filename s.
Proof.
  induction 1 as [s w | s t s' HT H IH]; [now split|].
  destruct (Tail_fields _ _ HT) as (Hs & Hf & _). destruct IH. split; congruence.
Qed.

Lemma advances_pos (s s' : stringPS) :
  advances s s' -> validStream s ->
  (pos s <= pos s' <= Z.max (pos s) (Z.of_nat (String.length (str s))))%Z /\
  validStream s'.
Proof.
  induction 1 as [s w | s t s' HT H IH]; intros Hv.
  - split; [simpl; lia | exact Hv].
  - destruct (Tail_pos _ _ Hv HT) as (Hp & Hle & Hvt).
    destruct (IH Hvt) as [Hpos Hv'].
    destruct (Tail_fields _ _ HT) as (Hs & _).
    rewrite Hs in Hpos. split; [lia | exact Hv'].
Qed.

(** A stream reached without moving is the same stream with another
    value. *)
Lemma advances_same_pos (s s' : stringPS) :
  advances s s' -> validStream s -> pos s' = pos s ->
  s' = SetValue s (value s').
Proof.
  intros H Hv Hp. destruct H as [s w | s t s' HT H]; [reflexivity |].
  destruct (Tail_pos _ _ Hv HT) as (Hpt & _ & Hvt).
  destruct (advances_pos _ _ H Hvt) as [Hpos _]. lia.
Qed.

(** ** Every parser returns a stream reached from its input, or an error *)

Lemma sound_exclusive (s : stringPS) (r : ParseResult) : sound s r -> exclusive r.
Proof. destruct r as [[s'|] [e|]]; simpl; auto. Qed.

Lemma sound_trans (s t : stringPS) (r : ParseResult) :
  advances s t -> sound t r -> sound s r.
Proof.
  destruct r as [[s'|] [e|]]; simpl; auto. intros; eapply advances_trans; eauto.
Qed.

Lemma sound_success (s s' : stringPS) (r : ParseResult) :
  success s' = Returns r -> advances s s' -> sound s r.
Proof. intros [= <-]. auto. Qed.

Lemma sound_failure (s : stringPS) (e : parseError) (r : ParseResult) :
  failure e = Returns r -> sound s r.
Proof. intros [= <-]. exact I. Qed.

Lemma sound_Tail_SetValue (s : stringPS) (v : Value) (r : ParseResult) :
  (t ← Tail s; success (SetValue t v)) = Returns r -> sound s r.
Proof.
  intros H. inv_returns H. eapply sound_success; [exact H|].
  apply advances_SetValue_r, advances_Tail. assumption.
Qed.

Lemma literal_loop_sound (target rest : string) (s : stringPS) (r : ParseResult) :
  literal_loop target rest s = Returns r -> sound s r.
Proof.
  revert s. induction rest as [|t rest IH]; intros s; simpl.
  - intros H. eapply sound_success; [exact H | constructor].
  - destruct (Head s) as [h eof].
    destruct (eof || negb (t =? h)%char).
    + apply sound_failure.
    + intros H. inv_returns H.
      eapply sound_trans; [apply advances_Tail; eassumption | eauto].
Qed.

Lemma literalIC_loop_sound (target upcased rest : string) (i : nat)
  (s : stringPS) (r : ParseResult) :
  literalIC_loop target upcased rest i s = Returns r -> sound s r.
Proof.
  revert i s. induction rest as [|t rest IH]; intros i s; simpl.
  - intros H. eapply sound_success; [exact H | constructor].
  - destruct (Head s) as [h eof]. destruct eof; [apply sound_failure|].
    destruct (String.get i upcased) as [u|]; [|discriminate].
    destruct (negb (u =? upperByte h)%char); [apply sound_failure|].
    intros H. inv_returns H.
    eapply sound_trans; [apply advances_Tail; eassumption | eauto].
Qed.

Lemma parseAnyChar_sound (s : stringPS) (r : ParseResult) :
  parseAnyChar s = Returns r -> sound s r.
Proof.
  unfold parseAnyChar. destruct (Head s) as [c eof]. destruct eof.
  - apply sound_failure.
  - apply sound_Tail_SetValue.
Qed.

Lemma parseOneOf_sound (options : string) (s : stringPS) (r : ParseResult) :
  parseOneOf options s = Returns r -> sound s r.
Proof.
  unfold parseOneOf. destruct (Head s) as [c eof]. destruct eof.
  - apply sound_failure.
  - destruct (containsByte options c);
      [apply sound_Tail_SetValue | apply sound_failure].
Qed.

Lemma parseNoneOf_sound (blacklist : string) (s : stringPS) (r : ParseResult) :
  parseNoneOf blacklist s = Returns r -> sound s r.
Proof.
  unfold parseNoneOf. destruct (Head s) as [c eof]. destruct eof.
  - apply sound_failure.
  - destruct (containsByte blacklist c);
      [apply sound_failure | apply sound_Tail_SetValue].
Qed.

Lemma parseRange_sound (lo hi : ascii) (s : stringPS) (r : ParseResult) :
  parseRange lo hi s = Returns r -> sound s r.
Proof.
  unfold parseRange. destruct (Head s) as [c eof].
  destruct (negb eof && byte_le lo c && byte_le c hi);
    [apply sound_Tail_SetValue | apply sound_failure].
Qed.

Section CombinatorsSound.

Variable parse : parseFn.
Hypothesis parse_sound : soundFn parse.

(** A child's result, split into its two possible shapes. *)
Lemma parse_cases (p : Parser) (s : stringPS) (ps1 : option stringPS)
  (err : option parseError) :
  parse p s = Returns (ps1, err) ->
  (exists s1, ps1 = Some s1 /\ err = None /\ advances s s1) \/
  (exists e, ps1 = None /\ err = Some e).
Proof.
  intros H. apply parse_sound in H.
  destruct ps1 as [s1|], err as [e|]; simpl in H; try contradiction; eauto.
Qed.

Lemma alt_loop_sound (parsers : list Parser) (s ret : stringPS)
  (errs : list (option parseError)) :
  alt_loop parse parsers s errs = Returns (inl ret) -> advances s ret.
Proof.
  revert errs. induction parsers as [|inner parsers IH]; intros errs; simpl.
  - discriminate.
  - intros H. inv_returns H. destruct a as [ps1 err].
    destruct (parse_cases _ _ _ _ Ha) as [(s1 & -> & -> & Hadv)|(e & -> & ->)].
    + now injection H as <-.
    + eauto.
Qed.

Lemma parseAlt_sound (parsers : list Parser) (s : stringPS) (r : ParseResult) :
  parseAlt parse parsers s = Returns r -> sound s r.
Proof.
  unfold parseAlt. intros H. inv_returns H. destruct a as [ret|errs].
  - eapply sound_success; [exact H|]. eapply alt_loop_sound; eauto.
  - inv_returns H. eapply sound_failure; eauto.
Qed.

Lemma seq_loop_sound (parsers : list Parser) (i : nat) (s s' : stringPS)
  (out out' : list Value) :
  seq_loop parse parsers i s out = Returns (inr (s', out')) -> advances s s'.
Proof.
  revert i s out. induction parsers as [|inner parsers IH]; intros i s out; simpl.
  - intros [= <- _]. apply advances_refl.
  - intros H. inv_returns H. destruct a as [ps1 err].
    destruct (parse_cases _ _ _ _ Ha) as [(s1 & -> & -> & Hadv)|(e & -> & ->)].
    + simpl in H. eapply advances_trans; eauto.
    + discriminate.
Qed.

Lemma parseSeq_sound (parsers : list Parser) (s : stringPS) (r : ParseResult) :
  parseSeq parse parsers s = Returns r -> sound s r.
Proof.
  unfold parseSeq. intros H. inv_returns H. destruct a as [e|[s' out]].
  - eapply sound_failure; eauto.
  - eapply sound_success; [exact H|].
    apply advances_SetValue_r. eapply seq_loop_sound; eauto.
Qed.

Lemma seqAt_loop_sound (parsers : list Parser) (index : Z) (i : nat)
  (s s' : stringPS) (v v' : Value) :
  seqAt_loop parse parsers index i s v = Returns (inr (s', v')) ->
  advances s s'.
Proof.
  revert i s v. induction parsers as [|inner parsers IH]; intros i s v; simpl.
  - intros [= <- _]. apply advances_refl.
  - intros H. inv_returns H. destruct a as [ps1 err].
    destruct (parse_cases _ _ _ _ Ha) as [(s1 & -> & -> & Hadv)|(e & -> & ->)].
    + destruct (Z.of_nat i =? index)%Z; simpl in H;
        eapply advances_trans; eauto.
    + discriminate.
Qed.

Lemma parseSeqAt_sound (parsers : list Parser) (index : Z) (s : stringPS)
  (r : ParseResult) :
  parseSeqAt parse parsers index s = Returns r -> sound s r.
Proof.
  unfold parseSeqAt. intros H. inv_returns H. destruct a as [e|[s' v]].
  - eapply sound_failure; eauto.
  - eapply sound_success; [exact H|].
    apply advances_SetValue_r. eapply seqAt_loop_sound; eauto.
Qed.

Lemma parseOptional_sound (inner : Parser) (s : stringPS) (r : ParseResult) :
  parseOptional parse inner s = Returns r -> sound s r.
Proof.
  unfold parseOptional. intros H. inv_returns H. destruct a as [ps1 err].
  destruct (parse_cases _ _ _ _ Ha) as [(s1 & -> & -> & Hadv)|(e & -> & ->)].
  - eapply sound_success; eauto.
  - eapply sound_success; [exact H | constructor].
Qed.

Lemma many_loop_sound (n : nat) (inner : Parser) (capture : bool)
  (s : stringPS) (found : Z) (results : list Value) (st : manyState) :
  many_loop parse n inner capture s found results = Returns st ->
  advances s (many_ps st).
Proof.
  revert s found results.
  induction n as [|n IH]; intros s found results; simpl; [discriminate|].
  intros H. inv_returns H. destruct a as [ps2 err].
  destruct (parse_cases _ _ _ _ Ha) as [(s2 & -> & -> & Hadv)|(e & -> & ->)].
  - simpl in H. eapply advances_trans; eauto.
  - injection H as <-. apply advances_refl.
Qed.

Lemma parseMany_sound (n : nat) (inner : Parser) (min : Z) (capture : bool)
  (s : stringPS) (r : ParseResult) :
  parseMany parse n inner min capture s = Returns r -> sound s r.
Proof.
  unfold parseMany. intros H. inv_returns H.
  apply many_loop_sound in Ha.
  destruct (many_found a <? min)%Z; [eapply sound_failure; eauto|].
  destruct capture; (eapply sound_success; [exact H|]);
    now apply advances_SetValue_r.
Qed.

Lemma sepBy_loop_sound (s0 : stringPS) (n : nat) (inner sep : Parser)
  (ps last : option stringPS) (err : option parseError)
  (results : list Value) (st : sepState) :
  sepBy_loop parse n inner sep ps last err results = Returns st ->
  (forall s, ps = Some s -> advances s0 s) ->
  (forall l, last = Some l -> advances s0 l) ->
  sepInvariant s0 st.
Proof.
  revert ps last err results.
  induction n as [|n IH]; intros ps last err results;
    (destruct ps as [s|]; simpl; [|intros [= <-] _ Hl; now split]).
  - discriminate.
  - intros H Hs _. specialize (Hs s eq_refl).
    inv_returns H. destruct a as [ps1 err1].
    destruct (parse_cases _ _ _ _ Ha) as [(s1 & -> & -> & Hadv)|(e & -> & ->)].
    + inv_returns H. destruct a as [ps2 err2].
      assert (H1 : advances s0 s1) by (eapply advances_trans; eauto).
      eapply IH; [exact H | |].
      * intros s2 ->.
        destruct (parse_cases _ _ _ _ Ha0) as [(? & [= <-] & _ & ?)|(? & ? & _)];
          [|discriminate].
        eapply advances_trans; eauto.
      * now intros l [= <-].
    + injection H as <-. split; [reflexivity|]. simpl. now intros l [= <-].
Qed.

Lemma endBy_loop_sound (s0 : stringPS) (n : nat) (inner sep : Parser)
  (ps last : option stringPS) (err : option parseError)
  (results : list Value) (st : sepState) :
  endBy_loop parse n inner sep ps last err results = Returns st ->
  (forall s, ps = Some s -> advances s0 s) ->
  (forall l, last = Some l -> advances s0 l) ->
  sepInvariant s0 st.
Proof.
  revert ps last err results.
  induction n as [|n IH]; intros ps last err results;
    (destruct ps as [s|]; simpl; [|intros [= <-] _ Hl; now split]).
  - discriminate.
  - intros H Hs _. specialize (Hs s eq_refl).
    inv_returns H. destruct a as [ps1 err1].
    destruct (parse_cases _ _ _ _ Ha) as [(s1 & -> & -> & Hadv)|(e & -> & ->)].
    + inv_returns H. destruct a as [ps2 err2].
      assert (H1 : advances s0 s1) by (eapply advances_trans; eauto).
      eapply IH; [exact H | |].
      * intros s2 ->.
        destruct (parse_cases _ _ _ _ Ha0) as [(? & [= <-] & _ & ?)|(? & ? & _)];
          [|discriminate].
        eapply advances_trans; eauto.
      * now intros l [= <-].
    + injection H as <-. split; [reflexivity|]. simpl. now intros l [= <-].
Qed.

Lemma sep_finish_sound (s0 : stringPS) (min : Z) (st : sepState)
  (r : ParseResult) :
  sepInvariant s0 st -> sep_finish min st = Returns r -> sound s0 r.
Proof.
  intros [Hps Hlast]. unfold sep_finish.
  destruct (min >? Z.of_nat (length (sep_results st)))%Z.
  - rewrite Hps. discriminate.
  - intros H. inv_returns H. eapply sound_success; [exact H|].
    apply advances_SetValue_r. auto.
Qed.

Lemma parseSepBy_sound (n : nat) (inner sep : Parser) (min : Z)
  (s : stringPS) (r : ParseResult) :
  parseSepBy parse n inner sep min s = Returns r -> sound s r.
Proof.
  unfold parseSepBy. intros H. inv_returns H.
  eapply sep_finish_sound; [|exact H].
  eapply sepBy_loop_sound; [exact Ha | | discriminate].
  intros ? [= <-]. apply advances_refl.
Qed.

Lemma parseEndBy_sound (n : nat) (inner sep : Parser) (min : Z)
  (s : stringPS) (r : ParseResult) :
  parseEndBy parse n inner sep min s = Returns r -> sound s r.
Proof.
  unfold parseEndBy. intros H. inv_returns H.
  eapply sep_finish_sound; [|exact H].
  eapply endBy_loop_sound; [exact Ha | | discriminate].
  intros ? [= <-]. apply advances_refl.
Qed.

Lemma manyTill_loop_sound (n : nat) (inner terminator : Parser)
  (s : stringPS) (results : list Value) (r : ParseResult) :
  manyTill_loop parse n inner terminator s results = Returns r -> sound s r.
Proof.
  revert s results.
  induction n as [|n IH]; intros s results; simpl; [discriminate|].
  intros H. inv_returns H. destruct a as [tps terr].
  destruct (parse_cases _ _ _ _ Ha) as [(t & -> & -> & Hadv)|(e & -> & ->)].
  - eapply sound_success; [exact H|]. now apply advances_SetValue_r.
  - inv_returns H. destruct a as [ps1 err].
    destruct (parse_cases _ _ _ _ Ha0) as [(s1 & -> & -> & Hadv)|(e' & -> & ->)].
    + simpl in H. eapply sound_trans; eauto.
    + discriminate.
Qed.

Lemma parseWithAction_sound (inner : Parser) (action : Action)
  (s : stringPS) (r : ParseResult) :
  parseWithAction parse inner action s = Returns r -> sound s r.
Proof.
  unfold parseWithAction. intros H. inv_returns H. destruct a as [ps1 err].
  destruct (parse_cases _ _ _ _ Ha) as [(s1 & -> & -> & Hadv)|(e & -> & ->)].
  - simpl in H. inv_returns H. destruct a as [res [text|]].
    + eapply sound_failure; eauto.
    + eapply sound_success; [exact H|]. now apply advances_SetValue_r.
  - eapply sound_failure; eauto.
Qed.

End CombinatorsSound.

Theorem Parse_sound (fuel : nat) (g : gmap string Parser) :
  soundFn (Parse fuel g).
Proof.
  induction fuel as [|fuel IH]; intros p s r; simpl; [discriminate|].
  destruct p; simpl.
  - apply literal_loop_sound.
  - apply literalIC_loop_sound.
  - now apply parseAlt_sound.
  - now apply parseSeq_sound.
  - now apply parseSeqAt_sound.
  - now apply parseOptional_sound.
  - apply parseAnyChar_sound.
  - apply parseOneOf_sound.
  - apply parseNoneOf_sound.
  - apply parseRange_sound.
  - now apply parseMany_sound.
  - now apply parseSepBy_sound.
  - now apply parseEndBy_sound.
  - now apply manyTill_loop_sound.
  - now apply parseWithAction_sound.
  - destruct (g !! name); [apply IH | discriminate].
Qed.

(** C10: a parser that succeeds on a stream returns a stream whose
    position is not smaller than the position it started from. *)
Theorem C10_non_regression (fuel : nat) (g : gmap string Parser) (p : Parser)
  (s s' : stringPS) (e : option parseError) :
  validStream s ->
  Parse fuel g p s = Returns (Some s', e) ->
  (pos s <= pos s')%Z.
Proof.
  intros Hv H. apply Parse_sound in H.
  destruct e as [e|]; simpl in H; [contradiction|].
  now destruct (advances_pos _ _ H Hv) as [[Hle _] _].
Qed.

Lemma C10_non_regression_witness :
  let s := initialStream "test" "[ab],[c]" in
  let p := SepBy (SeqAt 1 [Literal "["; Many (Range "a" "z"); Literal "]"])
             (Literal ",") in
  exists s', Parse 6 ∅ p s = Returns (Some s', None) /\ (pos s <= pos s')%Z.
Proof.
  intros s p.
  assert (Hv : validStream s) by (split; vm_compute; [discriminate | reflexivity]).
  eexists. split; [vm_compute; reflexivity|].
  eapply (C10_non_regression 6 ∅ p s _ None Hv). vm_compute. reflexivity.
Defined.

(** ** More fuel does not change a result *)

Lemma leq_refl {A : Type} (a : outcome A) : leq a a.
Proof. now intros _. Qed.

Lemma leq_OutOfFuel {A : Type} (b : outcome A) : leq OutOfFuel b.
Proof. now intros H. Qed.

Lemma leq_bind {A B : Type} (m m' : outcome A) (k k' : A -> outcome B) :
  leq m m' -> (forall a, leq (k a) (k' a)) -> leq (mbind k m) (mbind k' m').
Proof.
  intros Hm Hk H. destruct m as [a| |]; simpl in *.
  - rewrite Hm by discriminate. simpl. now apply Hk.
  - rewrite Hm by discriminate. reflexivity.
  - contradiction.
Qed.

Lemma leq_deref {A B : Type} (o : option A) (k k' : A -> outcome B) :
  (forall a, leq (k a) (k' a)) -> leq (deref o k) (deref o k').
Proof. destruct o; simpl; [auto | intros; apply leq_refl]. Qed.

Lemma refines_refl (parse : parseFn) : refines parse parse.
Proof. intros p s. apply leq_refl. Qed.

Section CombinatorsMono.

Variables parse parse' : parseFn.
Hypothesis parse_refines : refines parse parse'.

(** Decomposes a goal [leq (... parse ...) (... parse' ...)] along the
    binds, dereferences and matches shared by its two sides. *)
Ltac leq_step :=
  first
    [ apply leq_refl
    | apply leq_OutOfFuel
    | apply leq_bind; [first [apply parse_refines | auto] | intros ?]
    | apply leq_deref; intros ?
    | match goal with
      | |- leq (match ?x with _ => _ end) _ => destruct x
      | |- leq (if ?x then _ else _) _ => destruct x
      | |- leq (let '(_, _) := ?x in _) _ => destruct x
      end ].

Lemma alt_loop_mono (parsers : list Parser) (s : stringPS)
  (errs : list (option parseError)) :
  leq (alt_loop parse parsers s errs) (alt_loop parse' parsers s errs).
Proof.
  revert errs. induction parsers as [|inner parsers IH]; intros errs; simpl;
    repeat leq_step; auto.
Qed.

Lemma seq_loop_mono (parsers : list Parser) (i : nat) (s : stringPS)
  (out : list Value) :
  leq (seq_loop parse parsers i s out) (seq_loop parse' parsers i s out).
Proof.
  revert i s out. induction parsers as [|inner parsers IH]; intros i s out;
    simpl; repeat leq_step; auto.
Qed.

Lemma seqAt_loop_mono (parsers : list Parser) (index : Z) (i : nat)
  (s : stringPS) (v : Value) :
  leq (seqAt_loop parse parsers index i s v)
      (seqAt_loop parse' parsers index i s v).
Proof.
  revert i s v. induction parsers as [|inner parsers IH]; intros i s v;
    simpl; repeat leq_step; auto.
Qed.

Lemma many_loop_mono (n n' : nat) (inner : Parser) (capture : bool)
  (s : stringPS) (found : Z) (results : list Value) :
  (n <= n')%nat ->
  leq (many_loop parse n inner capture s found results)
      (many_loop parse' n' inner capture s found results).
Proof.
  revert n' s found results. induction n as [|n IH];
    intros n' s found results Hn; [apply leq_OutOfFuel|].
  destruct n' as [|n']; [lia|]. simpl. repeat leq_step. apply IH. lia.
Qed.

Lemma sepBy_loop_mono (n n' : nat) (inner sep : Parser)
  (ps last : option stringPS) (err : option parseError)
  (results : list Value) :
  (n <= n')%nat ->
  leq (sepBy_loop parse n inner sep ps last err results)
      (sepBy_loop parse' n' inner sep ps last err results).
Proof.
  revert n' ps last err results. induction n as [|n IH];
    intros n' ps last err results Hn.
  - destruct ps; [apply leq_OutOfFuel|]. destruct n'; apply leq_refl.
  - destruct n' as [|n']; [lia|]. destruct ps as [s|]; [|apply leq_refl].
    simpl. repeat leq_step. apply IH. lia.
Qed.

Lemma endBy_loop_mono (n n' : nat) (inner sep : Parser)
  (ps last : option stringPS) (err : option parseError)
  (results : list Value) :
  (n <= n')%nat ->
  leq (endBy_loop parse n inner sep ps last err results)
      (endBy_loop parse' n' inner sep ps last err results).
Proof.
  revert n' ps last err results. induction n as [|n IH];
    intros n' ps last err results Hn.
  - destruct ps; [apply leq_OutOfFuel|]. destruct n'; apply leq_refl.
  - destruct n' as [|n']; [lia|]. destruct ps as [s|]; [|apply leq_refl].
    simpl. repeat leq_step. apply IH. lia.
Qed.

Lemma manyTill_loop_mono (n n' : nat) (inner terminator : Parser)
  (s : stringPS) (results : list Value) :
  (n <= n')%nat ->
  leq (manyTill_loop parse n inner terminator s results)
      (manyTill_loop parse' n' inner terminator s results).
Proof.
  revert n' s results. induction n as [|n IH];
    intros n' s results Hn; [apply leq_OutOfFuel|].
  destruct n' as [|n']; [lia|]. simpl. repeat leq_step. apply IH. lia.
Qed.

Lemma parseStep_mono (n n' : nat) (g : gmap string Parser) (p : Parser)
  (s : stringPS) :
  (n <= n')%nat -> leq (parseStep parse n g p s) (parseStep parse' n' g p s).
Proof.
  intros Hn. destruct p; simpl; try apply leq_refl.
  - unfold parseAlt. apply leq_bind; [apply alt_loop_mono | intros ?; apply leq_refl].
  - unfold parseSeq. apply leq_bind; [apply seq_loop_mono | intros ?; apply leq_refl].
  - unfold parseSeqAt.
    apply leq_bind; [apply seqAt_loop_mono | intros ?; apply leq_refl].
  - unfold parseOptional. repeat leq_step.
  - unfold parseMany.
    apply leq_bind; [now apply many_loop_mono | intros ?; apply leq_refl].
  - unfold parseSepBy.
    apply leq_bind; [now apply sepBy_loop_mono | intros ?; apply leq_refl].
  - unfold parseEndBy.
    apply leq_bind; [now apply endBy_loop_mono | intros ?; apply leq_refl].
  - now apply manyTill_loop_mono.
  - unfold parseWithAction. repeat leq_step.
  - destruct (g !! name); [apply parse_refines | apply leq_refl].
Qed.

End CombinatorsMono.

Theorem Parse_fuel_mono (fuel fuel' : nat) (g : gmap string Parser) :
  (fuel <= fuel')%nat -> refines (Parse fuel g) (Parse fuel' g).
Proof.
  revert fuel'. induction fuel as [|fuel IH]; intros fuel' Hle p s.
  - apply leq_OutOfFuel.
  - destruct fuel' as [|fuel']; [lia|].
    simpl. apply parseStep_mono; [apply IH|]; lia.
Qed.

Corollary Parse_more_fuel (fuel fuel' : nat) (g : gmap string Parser)
  (p : Parser) (s : stringPS) (r : ParseResult) :
  (fuel <= fuel')%nat ->
  Parse fuel g p s = Returns r -> Parse fuel' g p s = Returns r.
Proof.
  intros Hle H. rewrite <- H. apply (Parse_fuel_mono _ _ g Hle p s).
  rewrite H. discriminate.
Qed.

(** ** No parser reads the value attached to its input *)

Lemma literal_loop_blind (target rest : string) (s : stringPS) (v : Value) :
  literal_loop target rest (SetValue s v) = literal_loop target rest s.
Proof. destruct rest; reflexivity. Qed.

Lemma literalIC_loop_blind (target upcased rest : string) (i : nat)
  (s : stringPS) (v : Value) :
  literalIC_loop target upcased rest i (SetValue s v)
  = literalIC_loop target upcased rest i s.
Proof. destruct rest; reflexivity. Qed.

Section CombinatorsBlind.

Variable parse : parseFn.
Hypothesis parse_blind : valueBlind parse.

Lemma alt_loop_blind (parsers : list Parser) (s : stringPS) (v : Value)
  (errs : list (option parseError)) :
  alt_loop parse parsers (SetValue s v) errs = alt_loop parse parsers s errs.
Proof.
  revert errs. induction parsers as [|inner parsers IH]; intros errs; simpl;
    [reflexivity|].
  rewrite parse_blind. destruct (parse inner s) as [[[r|] err]| |]; simpl; auto.
Qed.

Lemma parseStep_blind (n : nat) (g : gmap string Parser) (p : Parser)
  (s : stringPS) (v : Value) :
  parseStep parse n g p (SetValue s v) = parseStep parse n g p s.
Proof.
  destruct p; simpl; try reflexivity.
  - apply literal_loop_blind.
  - apply literalIC_loop_blind.
  - unfold parseAlt. now rewrite alt_loop_blind.
  - unfold parseSeq. destruct parsers; simpl; [reflexivity|].
    now rewrite parse_blind.
  - unfold parseSeqAt. destruct parsers; simpl; [reflexivity|].
    now rewrite parse_blind.
  - unfold parseOptional. rewrite parse_blind.
    destruct (parse p s) as [[[r|] err]| |]; reflexivity.
  - unfold parseMany. destruct n; simpl; [reflexivity|].
    rewrite parse_blind.
    destruct (parse p s) as [[ps2 [e|]]| |]; reflexivity.
  - unfold parseSepBy. destruct n; simpl; [reflexivity|].
    rewrite parse_blind.
    destruct (parse p1 s) as [[[s1|] err]| |]; reflexivity.
  - unfold parseEndBy. destruct n; simpl; [reflexivity|].
    rewrite parse_blind.
    destruct (parse p1 s) as [[[s1|] err]| |]; simpl; [|reflexivity..].
    destruct (parse p2 s1) as [[ps2 err2]| |]; simpl; [|reflexivity..].
    destruct ps2 as [s2|], n; reflexivity.
  - destruct n; simpl; [reflexivity|]. now rewrite !parse_blind.
  - unfold parseWithAction. now rewrite parse_blind.
  - destruct (g !! name); [apply parse_blind | reflexivity].
Qed.

End CombinatorsBlind.

Theorem Parse_blind (fuel : nat) (g : gmap string Parser) :
  valueBlind (Parse fuel g).
Proof.
  induction fuel as [|fuel IH]; intros p s v; simpl; [reflexivity|].
  now apply parseStep_blind.
Qed.

(** ** Repetition: [ManyMin] *)

Lemma consecutive_refines (parse parse' : parseFn) (p : Parser)
  (s s' : stringPS) (vs : list Value) (k : nat) (e : parseError) :
  refines parse parse' ->
  consecutive parse p s vs k s' e -> consecutive parse' p s vs k s' e.
Proof.
  intros Href. induction 1 as [s e H | s s1 vs k s' e H Hc IH].
  - constructor. rewrite <- H. apply Href. rewrite H. discriminate.
  - econstructor; [|exact IH]. rewrite <- H. apply Href. rewrite H. discriminate.
Qed.

Lemma consecutive_length (parse : parseFn) (p : Parser)
  (s s' : stringPS) (vs : list Value) (k : nat) (e : parseError) :
  consecutive parse p s vs k s' e -> length vs = k.
Proof. induction 1; simpl; congruence. Qed.

(** A parser that succeeds without moving succeeds for ever: no run of
    successes followed by a failure starts there. *)
Lemma consecutive_stuck (parse : parseFn) (p : Parser)
  (t s' : stringPS) (vs : list Value) (k : nat) (e : parseError) :
  parse p t = Returns (Some t, None) -> ~ consecutive parse p t vs k s' e.
Proof.
  intros Ht Hc. induction Hc as [s e H | s s1 vs k s' e H Hc IH].
  - congruence.
  - rewrite Ht in H. injection H as <-. auto.
Qed.

(** So each success of a run moves forward, and the run is no longer than
    what is left of the buffer. *)
Lemma consecutive_bound (parse : parseFn) (p : Parser)
  (s s' : stringPS) (vs : list Value) (k : nat) (e : parseError) :
  soundFn parse -> valueBlind parse ->
  consecutive parse p s vs k s' e -> validStream s ->
  (Z.of_nat k <= Z.max 0 (Z.of_nat (String.length (str s)) - pos s))%Z.
Proof.
  intros Hsound Hblind. induction 1 as [s e H | s s1 vs k s' e H Hc IH]; intros Hv.
  - lia.
  - pose proof (Hsound _ _ _ H) as Hadv. simpl in Hadv.
    destruct (advances_pos _ _ Hadv Hv) as [Hpos Hv1].
    destruct (advances_fields _ _ Hadv) as [Hstr _].
    specialize (IH Hv1). rewrite Hstr in IH.
    destruct (Z.eq_dec (pos s1) (pos s)) as [Heq|Hne]; [|lia].
    exfalso. pose proof (advances_same_pos _ _ Hadv Hv Heq) as Es1.
    eapply consecutive_stuck; [|exact Hc].
    rewrite Es1 at 1. rewrite Hblind. exact H.
Qed.

Lemma Int_add_small (a b : Z) :
  (- 2 ^ 63 <= a + b < 2 ^ 63)%Z -> Int.add a b = (a + b)%Z.
Proof.
  intros H. unfold Int.add, Int.wrap.
  rewrite Z.mod_small by lia. lia.
Qed.

(** The loop of [pMany.Parse] along a run of [k] successes. *)
Lemma many_loop_consecutive (parse : parseFn) (p : Parser)
  (s s' : stringPS) (vs : list Value) (k : nat) (e : parseError) :
  consecutive parse p s vs k s' e ->
  forall (n : nat) (found : Z) (results : list Value),
    (k < n)%nat -> (0 <= found)%Z -> (found + Z.of_nat k < 2 ^ 63)%Z ->
    many_loop parse n p true s found results
    = Returns {| many_ps := s'; many_found := found + Z.of_nat k;
                 many_results := results ++ vs; many_err := e |}.
Proof.
  induction 1 as [s e H | s s1 vs k s' e H Hc IH];
    intros n found results Hn Hf Hk; (destruct n as [|n]; [lia|]); simpl.
  - rewrite H. simpl. now rewrite Z.add_0_r, app_nil_r.
  - rewrite H. simpl. rewrite IH by (rewrite ?Int_add_small; lia).
    rewrite Int_add_small by lia. rewrite <- app_assoc. simpl.
    do 2 f_equal. lia.
Qed.

(** C6: [ManyMin(p, n)] on a stream from which [p] succeeds [k] times in a
    row and then fails with the error [e]: it succeeds, with the list of
    the values, exactly when [k >= n]; when [k < n] it fails with the
    message ["minimum <n>"] and the expected list of [e]. *)
Theorem C6_ManyMin_count (fuel F : nat) (g : gmap string Parser) (p : Parser)
  (n : Z) (s s' : stringPS) (vs : list Value) (k : nat) (e : parseError) :
  validStream s ->
  consecutive (Parse fuel g) p s vs k s' e ->
  (fuel <= F)%nat -> (k < F)%nat ->
  Parse (S F) g (ManyMin p n) s =
    if (Z.of_nat k <? n)%Z then
      Returns (None, Some {| expected := expected e;
                             message := "minimum " +:+ fmt_d n;
                             loc := LocOf s' |})
    else
      Returns (Some (SetValue s' (VList vs)), None).
Proof.
  intros Hv Hc HF Hk.
  pose proof (consecutive_bound _ _ _ _ _ _ _
                (Parse_sound fuel g) (Parse_blind fuel g) Hc Hv) as Hb.
  destruct Hv as [Hpos Hlen].
  apply (consecutive_refines _ (Parse F g)) in Hc;
    [|now apply Parse_fuel_mono].
  simpl. unfold parseMany.
  rewrite (many_loop_consecutive _ _ _ _ _ _ _ Hc F 0 []) by lia.
  simpl. rewrite Z.add_0_l. destruct (Z.of_nat k <? n)%Z; [|reflexivity].
  unfold failure. do 3 f_equal. now string_normalize.
Qed.

Lemma C6_ManyMin_count_witness :
  let s := initialStream "test" "ab1" in
  Parse 4 ∅ (ManyMin (Range "a" "z") 3) s
  = Returns (None, Some {| expected := ["range(a..z)"];
                           message := "minimum 3";
                           loc := {| Filename := "test"; Line := 1; Col := 0 |} |})
  /\ exists s', Parse 4 ∅ (ManyMin (Range "a" "z") 2) s
                = Returns (Some (SetValue s' (VList [VByte "a"; VByte "b"])), None).
Proof.
  intros s.
  assert (Hv : validStream s) by (split; vm_compute; [discriminate | reflexivity]).
  assert (Hc : exists s' e,
             consecutive (Parse 1 ∅) (Range "a" "z") s [VByte "a"; VByte "b"] 2 s' e
             /\ expected e = ["range(a..z)"] /\ LocOf s' = mkLoc "test" 1 0).
  { do 2 eexists. split.
    - eapply (consecutive_step _ _ s
                {| str := "ab1"; pos := 1; filename := "test"; line := 1;
                   col := 0; value := VByte "a" |} [VByte "b"] 1);
        [vm_compute; reflexivity|].
      eapply (consecutive_step _ _ _
                {| str := "ab1"; pos := 2; filename := "test"; line := 1;
                   col := 0; value := VByte "b" |} [] 0);
        [vm_compute; reflexivity|].
      apply consecutive_stop. vm_compute. reflexivity.
    - split; reflexivity. }
  destruct Hc as (s' & e & Hc & He & Hl).
  split.
  - rewrite (C6_ManyMin_count 1 3 ∅ (Range "a" "z") 3 s s' _ 2 e Hv Hc) by lia.
    simpl. rewrite He, Hl. reflexivity.
  - exists s'.
    now rewrite (C6_ManyMin_count 1 3 ∅ (Range "a" "z") 2 s s' _ 2 e Hv Hc) by lia.
Defined.

(** ** Choice: [Alt] *)

Lemma alt_loop_all_fail (parse : parseFn) (ps : stringPS)
  (parsers : list Parser) (errs : list parseError) :
  Forall2 (fun p e => parse p ps = Returns (None, Some e)) parsers errs ->
  forall acc,
    alt_loop parse parsers ps acc = Returns (inr (acc ++ map Some errs)%list).
Proof.
  induction 1 as [|p e parsers errs Hp _ IH]; intros acc; simpl.
  - now rewrite app_nil_r.
  - rewrite Hp. simpl. rewrite IH, <- app_assoc. reflexivity.
Qed.

Lemma alt_expectations_all (errs : list parseError) (acc : list string) :
  alt_expectations (map Some errs) acc
  = Returns (acc ++ concat (map expected errs))%list.
Proof.
  revert acc. induction errs as [|e errs IH]; intros acc; simpl.
  - now rewrite app_nil_r.
  - rewrite IH, <- app_assoc. reflexivity.
Qed.

(** C1: when every child of [Alt] fails on the stream, [Alt] fails with an
    error at the location of that stream, with an empty message, whose
    expected list is the concatenation, in the order of the children, of
    the children's expected lists; [Alt] without children fails with an
    empty expected list. *)
Theorem C1_Alt_all_fail (fuel : nat) (g : gmap string Parser)
  (parsers : list Parser) (errs : list parseError) (ps : stringPS) :
  Forall2 (fun p e => Parse fuel g p ps = Returns (None, Some e)) parsers errs ->
  Parse (S fuel) g (Alt parsers) ps
  = Returns (None, Some {| expected := concat (map expected errs);
                           message := "";
                           loc := LocOf ps |})
  /\ Parse (S fuel) g (Alt []) ps
     = Returns (None, Some {| expected := []; message := ""; loc := LocOf ps |}).
Proof.
  intros H. split; [|reflexivity].
  simpl. unfold parseAlt.
  rewrite (alt_loop_all_fail _ _ _ _ H). simpl.
  rewrite alt_expectations_all. reflexivity.
Qed.

Lemma C1_Alt_all_fail_witness :
  let ps := initialStream "test" "ABC" in
  Parse 2 ∅ (Alt [Literal "abc"; Literal "aaa"; Literal "def"]) ps
  = Returns (None, Some {| expected := ["literal 'abc'"; "literal 'aaa'";
                                        "literal 'def'"];
                           message := "";
                           loc := {| Filename := "test"; Line := 1; Col := 0 |} |}).
Proof.
  intros ps.
  pose (err := fun t : string => mkErrorExpect (LocOf ps) "literal '%s'" [OpS t]).
  refine (proj1 (C1_Alt_all_fail 1 ∅
                   [Literal "abc"; Literal "aaa"; Literal "def"]
                   [err "abc"; err "aaa"; err "def"] ps _)).
  repeat constructor.
Defined.

(** ** The driver *)

(** C4: with the start symbol bound to [p], [ParseStringWith] returns the
    error of [p] unchanged when [p] fails; when [p] succeeds on a stream
    that still has input it returns the error ["incomplete parse, expected
    EOF but input remains"] at the location of that stream; when [p]
    succeeds at the end of the input it returns the value attached to the
    stream and no error.  [p] returns nothing else. *)
Theorem C4_driver_results (fuel : nat) (g : Grammar) (file input startSym : string)
  (p : Parser) :
  symbols g !! startSym = Some p ->
  (Z.of_nat (String.length input) < 2 ^ 63)%Z ->
  match Parse fuel (symbols g) p (initialStream file input) with
  | Returns (None, Some e) =>
      ParseStringWith fuel g file input startSym = Returns (VNil, Some e)
  | Returns (Some s, None) =>
      ParseStringWith fuel g file input startSym =
        if (pos s <? Z.of_nat (String.length input))%Z then
          Returns (VNil,
                   Some {| expected := [];
                           message := "incomplete parse, expected EOF but input remains";
                           loc := LocOf s |})
        else Returns (GetValue s, None)
  | Returns _ => False
  | Panics msg => ParseStringWith fuel g file input startSym = Panics msg
  | OutOfFuel => ParseStringWith fuel g file input startSym = OutOfFuel
  end.
Proof.
  intros Hp Hlen. unfold ParseStringWith. rewrite Hp.
  destruct (Parse fuel (symbols g) p (initialStream file input))
    as [[ps1 err]| |] eqn:E; [|reflexivity..].
  pose proof (Parse_sound _ _ _ _ _ E) as Hs.
  destruct ps1 as [s|], err as [e|]; simpl in Hs; try contradiction;
    [|reflexivity].
  assert (Hv : validStream (initialStream file input)) by (split; simpl; lia).
  destruct (advances_pos _ _ Hs Hv) as [[_ Hle] _].
  destruct (advances_fields _ _ Hs) as [Hstr _]. simpl in Hle, Hstr.
  simpl. unfold Head. rewrite Hstr.
  unfold UInt.of_len, UInt.wrap. rewrite Z.mod_small by lia.
  destruct (Z.ltb_spec (pos s) (Z.of_nat (String.length input))) as [Hlt|Hge].
  - destruct (Z.geb_spec (pos s) (Z.of_nat (String.length input))); [lia|].
    destruct (byteAt input (pos s)); reflexivity.
  - destruct (Z.geb_spec (pos s) (Z.of_nat (String.length input))); [|lia].
    reflexivity.
Qed.

Lemma C4_driver_results_witness :
  let g := AddSymbol NewGrammar "START" (Many (Range "a" "z")) in
  errorText (ParseStringWith 5 g "test" "dsCC" "START")
  = Some "test line 1 col 0: incomplete parse, expected EOF but input remains"
  /\ ParseStringWith 5 g "test" "ds" "START"
     = Returns (VList [VByte "d"; VByte "s"], None).
Proof.
  intros g.
  assert (Hp : symbols g !! "START" = Some (Many (Range "a" "z")))
    by (vm_compute; reflexivity).
  assert (Hlen : forall input : string,
             (String.length input <= 4)%nat ->
             (Z.of_nat (String.length input) < 2 ^ 63)%Z) by (intros; lia).
  split.
  - pose proof (C4_driver_results 5 g "test" "dsCC" "START" _ Hp
                  (Hlen "dsCC" ltac:(simpl; lia))) as H.
    set (r := Parse _ _ _ _) in H. vm_compute in r. subst r.
    cbv beta iota in H. rewrite H. vm_compute. reflexivity.
  - pose proof (C4_driver_results 5 g "test" "ds" "START" _ Hp
                  (Hlen "ds" ltac:(simpl; lia))) as H.
    set (r := Parse _ _ _ _) in H. vm_compute in r. subst r.
    cbv beta iota in H. rewrite H. vm_compute. reflexivity.
Defined.

(** ** Line and column tracking *)

Lemma substring_zero_length (n : nat) (s : string) : String.substring n 0 s = "".
Proof.
  revert n. induction s as [|c s IH]; intros [|n]; simpl; auto.
Qed.

Lemma substring_get (n m : nat) (s : string) (b : ascii) :
  String.get n s = Some b ->
  String.substring n (S m) s = String b (String.substring (S n) m s).
Proof.
  revert n. induction s as [|c s IH]; intros [|n]; simpl; try discriminate.
  - intros [= ->]. reflexivity.
  - intros H. now apply IH.
Qed.

Lemma get_lt_Some (s : string) (i : nat) :
  (i < String.length s)%nat -> exists b, String.get i s = Some b.
Proof.
  revert i; induction s as [|c s IH]; intros [|i]; simpl; try lia; eauto.
  intros H. apply IH. lia.
Qed.

(** What [k] calls of [Tail] do to the line and the column: the line grows
    by the number of newlines skipped; a column that is 0 stays 0. *)
Lemma tails_line_col (k : nat) (s : stringPS) :
  validStream s ->
  (pos s + Z.of_nat k <= Z.of_nat (String.length (str s)))%Z ->
  (0 <= line s)%Z -> (line s + Z.of_nat k < 2 ^ 63)%Z ->
  col s = 0%Z ->
  exists t, tails k s = Returns t /\
    str t = str s /\ filename t = filename s /\
    pos t = (pos s + Z.of_nat k)%Z /\
    line t = (line s +
              countNewlines (String.substring (Z.to_nat (pos s)) k (str s)))%Z /\
    col t = 0%Z.
Proof.
  revert s. induction k as [|k IH]; intros s Hv Hk Hl0 Hl Hc.
  - exists s. rewrite substring_zero_length. simpl. repeat split; auto; lia.
  - destruct Hv as [Hpos Hlen].
    destruct (get_lt_Some (str s) (Z.to_nat (pos s)) ltac:(lia)) as [b Hb].
    destruct (Tail s) as [t| |] eqn:HT;
      [|unfold Tail, byteAt in HT; rewrite Hb in HT;
        destruct (b =? newline)%char; discriminate..].
    destruct (Tail_pos s t (conj Hpos Hlen) HT) as (Hpt & _ & Hvt).
    destruct (Tail_fields _ _ HT) as (Hs & Hf & _ & _ & b' & Hb' & Hline & Hcol).
    unfold byteAt in Hb'. rewrite Hb in Hb'. injection Hb' as <-.
    assert (Hnl : (0 <= (if (b =? newline)%char then 1 else 0) <= 1)%Z)
      by (destruct (b =? newline)%char; lia).
    assert (Hline' : line t = (line s + if (b =? newline)%char then 1 else 0)%Z).
    { rewrite Hline. destruct (b =? newline)%char; [|lia].
      apply Int_add_small. lia. }
    destruct (IH t Hvt) as (u & Hu & Hus & Huf & Hup & Hul & Huc).
    + rewrite Hs, Hpt. lia.
    + lia.
    + lia.
    + rewrite Hcol, Hc. now destruct (b =? newline)%char.
    + exists u. simpl. rewrite HT. simpl. split; [exact Hu|].
      rewrite (substring_get _ _ _ _ Hb). simpl countNewlines.
      rewrite Hus, Huf, Hup, Hul, Huc, Hs, Hf, Hpt, Hline'.
      replace (Z.to_nat (pos s + 1)) with (S (Z.to_nat (pos s))) by lia.
      repeat split; lia.
Qed.

(** From the driver's initial stream: at offset [k] the line is the one
    the specification gives, and the column is 0. *)
Lemma tails_initialStream (file input : string) (k : nat) :
  (k <= String.length input)%nat ->
  (Z.of_nat (String.length input) + 1 < 2 ^ 63)%Z ->
  exists t, tails k (initialStream file input) = Returns t /\
    pos t = Z.of_nat k /\ line t = spec_line input k /\ col t = 0%Z.
Proof.
  intros Hk Hlen.
  destruct (tails_line_col k (initialStream file input)) as (t & Ht & _ & _ & Hp & Hl & Hc);
    simpl; try lia.
  - split; simpl; lia.
  - exists t. simpl in *. unfold spec_line, prefix. repeat split; auto.
Qed.

(** C2, evaluated: one byte into the input ["ab"] the code reports line 1,
    as the specification does, but column 0 where the specification gives
    column 1; the column of a stream never leaves 0. *)
Theorem C2_column_stays_zero :
  exists t, tails 1 (initialStream "test" "ab") = Returns t /\
    pos t = 1%Z /\
    line t = 1%Z /\ spec_line "ab" 1 = 1%Z /\
    col t = 0%Z /\ spec_col "ab" 1 = 1%Z.
Proof. eexists. vm_compute. repeat split; reflexivity. Qed.

(** ** Separated and terminated lists *)

(** [SepBy] and [EndBy] never return an error: when fewer than [min]
    elements were found, the stream they take the location from is nil. *)
Lemma sep_finish_no_error (s0 : stringPS) (min : Z) (st : sepState)
  (ps1 : option stringPS) (err : option parseError) :
  sepInvariant s0 st -> sep_finish min st = Returns (ps1, err) -> err = None.
Proof.
  intros [Hps _]. unfold sep_finish.
  destruct (min >? Z.of_nat (length (sep_results st)))%Z.
  - rewrite Hps. discriminate.
  - destruct (sep_last st); [now intros [= _ <-] | discriminate].
Qed.

Lemma SepBy_no_error (fuel : nat) (g : gmap string Parser) (inner sep : Parser)
  (min : Z) (s : stringPS) (ps1 : option stringPS) (err : option parseError) :
  Parse fuel g (pSepBy inner sep min) s = Returns (ps1, err) -> err = None.
Proof.
  destruct fuel as [|fuel]; [discriminate|]. simpl. unfold parseSepBy.
  intros H. inv_returns H.
  eapply (sep_finish_no_error s); [|exact H].
  eapply sepBy_loop_sound; [apply Parse_sound | exact Ha | | discriminate].
  intros ? [= <-]. apply advances_refl.
Qed.

Lemma EndBy_no_error (fuel : nat) (g : gmap string Parser) (inner sep : Parser)
  (min : Z) (s : stringPS) (ps1 : option stringPS) (err : option parseError) :
  Parse fuel g (pEndBy inner sep min) s = Returns (ps1, err) -> err = None.
Proof.
  destruct fuel as [|fuel]; [discriminate|]. simpl. unfold parseEndBy.
  intros H. inv_returns H.
  eapply (sep_finish_no_error s); [|exact H].
  eapply endBy_loop_sound; [apply Parse_sound | exact Ha | | discriminate].
  intros ? [= <-]. apply advances_refl.
Qed.

(** One element, a separator that succeeds, an element that fails: the
    stream [SepBy] returns is the one after the separator. *)
Lemma SepBy_trailing_separator (fuel : nat) (g : gmap string Parser)
  (inner sep : Parser) (s s1 s2 : stringPS) (e : parseError) :
  Parse fuel g inner s = Returns (Some s1, None) ->
  Parse fuel g sep s1 = Returns (Some s2, None) ->
  Parse fuel g inner s2 = Returns (None, Some e) ->
  Parse (S (S (S fuel))) g (SepBy inner sep) s
  = Returns (Some (SetValue s2 (VList [GetValue s1])), None).
Proof.
  intros H1 H2 H3.
  assert (Hle : (fuel <= S (S fuel))%nat) by lia.
  apply (Parse_more_fuel _ _ _ _ _ _ Hle) in H1, H2, H3.
  change (Parse (S (S (S fuel))) g (SepBy inner sep) s)
    with (parseSepBy (Parse (S (S fuel)) g) (S (S fuel)) inner sep 0 s).
  unfold parseSepBy. cbn [sepBy_loop].
  rewrite H1. cbn [mbind outcome_bind]. rewrite H2. cbn [mbind outcome_bind sepBy_loop].
  rewrite H3. reflexivity.
Qed.

(** An element, a terminator, and an element without terminator: [EndBy]
    returns the stream after the first terminator, with both values. *)
Lemma EndBy_unterminated_element (fuel : nat) (g : gmap string Parser)
  (inner sep : Parser) (s s1 s2 s3 : stringPS) (e : parseError) :
  Parse fuel g inner s = Returns (Some s1, None) ->
  Parse fuel g sep s1 = Returns (Some s2, None) ->
  Parse fuel g inner s2 = Returns (Some s3, None) ->
  Parse fuel g sep s3 = Returns (None, Some e) ->
  Parse (S (S (S fuel))) g (EndBy inner sep) s
  = Returns (Some (SetValue s2 (VList [GetValue s1; GetValue s3])), None).
Proof.
  intros H1 H2 H3 H4.
  assert (Hle : (fuel <= S (S fuel))%nat) by lia.
  apply (Parse_more_fuel _ _ _ _ _ _ Hle) in H1, H2, H3, H4.
  change (Parse (S (S (S fuel))) g (EndBy inner sep) s)
    with (parseEndBy (Parse (S (S fuel)) g) (S (S fuel)) inner sep 0 s).
  unfold parseEndBy. cbn [endBy_loop].
  rewrite H1. cbn [mbind outcome_bind]. rewrite H2. cbn [mbind outcome_bind endBy_loop].
  rewrite H3. cbn [mbind outcome_bind]. rewrite H4.
  cbn [mbind outcome_bind]. destruct fuel; reflexivity.
Qed.

(** C3, evaluated: on the input ["a,"], [SepBy(Literal("a"), Literal(","))]
    succeeds with the value [["a"]] and returns the stream at offset 2,
    after the trailing separator, not the stream at offset 1 before it. *)
Theorem C3_SepBy_consumes_trailing_separator :
  Parse 4 ∅ (SepBy (Literal "a") (Literal ",")) (initialStream "test" "a,")
  = Returns (Some {| str := "a,"; pos := 2; filename := "test"; line := 1;
                     col := 0; value := VList [VString "a"] |}, None).
Proof. vm_compute. reflexivity. Qed.

(** C9, evaluated: on the input ["a;a"], [EndBy(Literal("a"), Literal(";"))]
    succeeds at offset 2, having consumed ["a;"], with the value
    [["a"; "a"]]: the second element, which no terminator follows, is in
    the list. *)
Theorem C9_EndBy_keeps_unterminated_value :
  Parse 4 ∅ (EndBy (Literal "a") (Literal ";")) (initialStream "test" "a;a")
  = Returns (Some {| str := "a;a"; pos := 2; filename := "test"; line := 1;
                     col := 0; value := VList [VString "a"; VString "a"] |},
             None).
Proof. vm_compute. reflexivity. Qed.

(** ** Panics *)

(** [SepBy1] whose first element fails does not return: the error it
    builds takes its location from the stream the failed element returned,
    which is nil. *)
Lemma SepBy1_first_element_fails (fuel : nat) (g : gmap string Parser)
  (inner sep : Parser) (s : stringPS) (e : parseError) :
  Parse fuel g inner s = Returns (None, Some e) ->
  Parse (S fuel) g (SepBy1 inner sep) s = nil_deref.
Proof.
  intros H. destruct fuel as [|fuel]; [discriminate|].
  change (Parse (S (S fuel)) g (SepBy1 inner sep) s)
    with (parseSepBy (Parse (S fuel) g) (S fuel) inner sep 1 s).
  unfold parseSepBy. cbn [sepBy_loop]. rewrite H. reflexivity.
Qed.

(** [ManyTill] never returns an error, and does not return at all when
    both the terminator and the body fail. *)
Lemma ManyTill_no_error (fuel : nat) (g : gmap string Parser)
  (inner terminator : Parser) (s : stringPS) (ps1 : option stringPS)
  (err : option parseError) :
  Parse fuel g (pManyTill inner terminator) s = Returns (ps1, err) -> err = None.
Proof.
  destruct fuel as [|fuel]; [discriminate|]. simpl.
  generalize (@nil Value) as results. generalize fuel at 2 as n.
  intros n. revert s. induction n as [|n IH]; intros s results; simpl;
    [discriminate|].
  intros H. inv_returns H. destruct a as [tps terr].
  destruct (parse_cases _ (Parse_sound fuel g) _ _ _ _ Ha)
    as [(t & -> & -> & _)|(e & -> & ->)].
  - now injection H as _ <-.
  - inv_returns H. destruct a as [ps2 err2].
    destruct (parse_cases _ (Parse_sound fuel g) _ _ _ _ Ha0)
      as [(s2 & -> & -> & _)|(e' & -> & ->)].
    + simpl in H. eauto.
    + discriminate.
Qed.

Lemma ManyTill_both_fail (fuel : nat) (g : gmap string Parser)
  (inner terminator : Parser) (s : stringPS) (e1 e2 : parseError) :
  Parse fuel g terminator s = Returns (None, Some e1) ->
  Parse fuel g inner s = Returns (None, Some e2) ->
  Parse (S fuel) g (ManyTill inner terminator) s = nil_deref.
Proof.
  intros H1 H2. destruct fuel as [|fuel]; [discriminate|].
  change (Parse (S (S fuel)) g (ManyTill inner terminator) s)
    with (manyTill_loop (Parse (S fuel) g) (S fuel) inner terminator s []).
  cbn [manyTill_loop]. rewrite H1. cbn [mbind outcome_bind]. rewrite H2.
  reflexivity.
Qed.

(** C7 as stated fails: three grammars whose start symbol is defined and
    which use no [Symbol], and inputs on which the driver panics: [SepBy1]
    on an input whose first element fails, [ManyTill] on an input without
    terminator, [Stringify] of a parser whose value is not a slice. *)
Theorem C7_library_parsers_panic :
  ParseString 3 (AddSymbol NewGrammar "START" (SepBy1 (Literal "a") (Literal ",")))
    "test" "b"
  = Panics "invalid memory address or nil pointer dereference"
  /\ ParseString 5 (AddSymbol NewGrammar "START" (ManyTill AnyChar (Literal "!")))
       "test" "ab"
     = Panics "invalid memory address or nil pointer dereference"
  /\ ParseString 3 (AddSymbol NewGrammar "START" (Stringify (Literal "a")))
       "test" "a"
     = Panics "interface conversion: interface {} is not []interface {}".
Proof. repeat split; vm_compute; reflexivity. Qed.

(** ** The grammar table *)

Lemma AddAction_table (g : Grammar) (name : string) (action : Action) (p : Parser) :
  symbols g !! name = Some p ->
  symbols (fst (AddAction g name action)) !! name
  = Some (parserWithAction p action).
Proof.
  intros H. unfold AddAction. rewrite H. simpl. apply lookup_insert_eq.
Qed.

(** C8, evaluated: [AddAction] panics on every grammar and every name,
    also when the name is in the table (it has by then replaced the
    symbol's parser by the wrapped one, see [AddAction_table]). *)
Theorem C8_AddAction_always_panics (g : Grammar) (name : string) (action : Action) :
  snd (AddAction g name action)
  = Panics ("no such symbol: '" +:+ name +:+ "'").
Proof. unfold AddAction. simpl. now string_normalize. Qed.

(** ** The cached tail agrees with the recomputed one *)

Local Open Scope list_scope.

Lemma Cache_extends_refl (h : Cache.heap) : Cache.extends h h.
Proof. intros s nd H. eauto. Qed.

(** X1: [SetValue] on the heap: it leaves every node as it is and returns
    a new node whose content is [SetValue] of the receiver's content; the
    cached pointers stay right. *)
Theorem Cache_SetValue (h h' : Cache.heap) (s r : nat) (v : Value) :
  Cache.consistent h ->
  Cache.SetValue h s v = Returns (h', r) ->
  Cache.consistent h' /\ Cache.extends h h' /\
  exists nd nr, h !! s = Some nd /\ h' !! r = Some nr /\
    Cache.content nr = SetValue (Cache.content nd) v.
Proof.
  intros Hc H. unfold Cache.SetValue, Cache.load in H.
  destruct (h !! s) as [nd|] eqn:Hs; [|discriminate].
  simpl in H. injection H as <- <-.
  set (new := {| Cache.content := SetValue (Cache.content nd) v;
                 Cache.tail := Cache.tail nd |}).
  assert (Hnew : (h ++ [new]) !! length h = Some new)
    by now rewrite list_lookup_middle.
  split; [|split].
  - intros a nda t Ha Ht.
    destruct (decide (a < length h)%nat) as [Hlt|Hge].
    + rewrite lookup_app_l in Ha by exact Hlt.
      destruct (Hc _ _ _ Ha Ht) as (nt & Hnt & HT).
      exists nt. split; [|exact HT].
      rewrite lookup_app_l; [exact Hnt | eapply lookup_lt_Some; eauto].
    + assert (a = length h).
      { apply lookup_lt_Some in Ha. rewrite length_app in Ha. simpl in Ha. lia. }
      subst a. rewrite Hnew in Ha. injection Ha as <-. simpl in Ht.
      destruct (Hc _ _ _ Hs Ht) as (nt & Hnt & HT).
      exists nt. split; [|exact HT].
      rewrite lookup_app_l; [exact Hnt | eapply lookup_lt_Some; eauto].
  - intros a nda Ha. exists nda. split; [|reflexivity].
    rewrite lookup_app_l; [exact Ha | eapply lookup_lt_Some; eauto].
  - exists nd, new. auto.
Qed.

(** X2: [Tail] on the heap, cached or not, returns a node whose content is
    what [Tail] computes from the receiver's content; it changes the
    content of no node, and the cached pointers stay right. *)
Theorem Cache_Tail (h h' : Cache.heap) (s r : nat) :
  Cache.consistent h ->
  Cache.Tail h s = Returns (h', r) ->
  Cache.consistent h' /\ Cache.extends h h' /\
  exists nd nr, h !! s = Some nd /\ h' !! r = Some nr /\
    Tail (Cache.content nd) = Returns (Cache.content nr).
Proof.
  intros Hc H. unfold Cache.Tail, Cache.load in H.
  destruct (h !! s) as [nd|] eqn:Hs; [|discriminate]. simpl in H.
  destruct (Cache.tail nd) as [t|] eqn:Ht.
  - injection H as <- <-.
    destruct (Hc _ _ _ Hs Ht) as (nt & Hnt & HT).
    split; [exact Hc|]. split; [apply Cache_extends_refl|]. eauto.
  - destruct (Tail (Cache.content nd)) as [tc| |] eqn:HT; [|discriminate..].
    simpl in H. injection H as <- <-.
    set (new := {| Cache.content := tc; Cache.tail := None |}).
    set (upd := {| Cache.content := Cache.content nd;
                   Cache.tail := Some (length h) |}).
    assert (Hlt : (s < length h)%nat) by (eapply lookup_lt_Some; eauto).
    assert (Hlt1 : (s < length (h ++ [new]))%nat)
      by (rewrite length_app; simpl; lia).
    assert (Hnew : (<[s := upd]> (h ++ [new])) !! length h = Some new).
    { rewrite list_lookup_insert_ne by lia. now rewrite list_lookup_middle. }
    assert (Hupd : (<[s := upd]> (h ++ [new])) !! s = Some upd)
      by now apply list_lookup_insert_eq.
    assert (Hold : forall a x, h !! a = Some x ->
              exists x', (<[s := upd]> (h ++ [new])) !! a = Some x' /\
                         Cache.content x' = Cache.content x).
    { intros a x Ha. destruct (decide (a = s)) as [->|Hne].
      - exists upd. split; [exact Hupd|]. simpl. congruence.
      - exists x. split; [|reflexivity].
        rewrite list_lookup_insert_ne by congruence.
        rewrite lookup_app_l; [exact Ha | eapply lookup_lt_Some; eauto]. }
    split; [|split].
    + intros a nda t Ha Hta.
      destruct (decide (a = s)) as [->|Hne].
      * rewrite Hupd in Ha. injection Ha as <-. simpl in Hta.
        injection Hta as <-. exists new. split; [exact Hnew | exact HT].
      * rewrite list_lookup_insert_ne in Ha by congruence.
        destruct (decide (a < length h)%nat) as [Hal|Hge].
        -- rewrite lookup_app_l in Ha by exact Hal.
           destruct (Hc _ _ _ Ha Hta) as (nt & Hnt & HTa).
           destruct (Hold _ _ Hnt) as (nt' & Hnt' & Hcont).
           exists nt'. split; [exact Hnt' | congruence].
        -- assert (a = length h).
           { apply lookup_lt_Some in Ha. rewrite length_app in Ha.
             simpl in Ha. lia. }
           subst a. rewrite list_lookup_middle in Ha by reflexivity.
           injection Ha as <-. discriminate.
    + exact Hold.
    + exists nd, new. auto.
Qed.

(** ** Where a parse can panic *)

Local Open Scope string_scope.

Lemma bind_Panics {A B : Type} (m : outcome A) (k : A -> outcome B) (msg : string) :
  mbind k m = Panics msg ->
  m = Panics msg \/ exists a, m = Returns a /\ k a = Panics msg.
Proof.
  destruct m as [a| |]; simpl; intros H;
    [right; eauto | left; congruence | discriminate].
Qed.

Lemma Head_Tail (s : stringPS) (c : ascii) :
  validStream s -> Head s = (c, false) ->
  exists t, Tail s = Returns t /\ validStream t.
Proof.
  intros Hv. pose proof Hv as [Hpos Hlen]. unfold Head, UInt.of_len, UInt.wrap.
  rewrite Z.mod_small by lia.
  destruct (Z.geb_spec (pos s) (Z.of_nat (String.length (str s)))) as [|Hlt];
    [discriminate|]. intros _.
  destruct (get_lt_Some (str s) (Z.to_nat (pos s)) ltac:(lia)) as [b Hb].
  destruct (Tail s) as [t| |] eqn:HT;
    [|unfold Tail, byteAt in HT; rewrite Hb in HT;
      destruct (b =? newline)%char; discriminate..].
  exists t. split; [reflexivity|]. now destruct (Tail_pos _ _ Hv HT) as (_ & _ & ?).
Qed.

Lemma Tail_SetValue_safe (s : stringPS) (c : ascii) (v : Value) (msg : string) :
  validStream s -> Head s = (c, false) ->
  (t ← Tail s; success (SetValue t v)) <> Panics msg.
Proof.
  intros Hv Hh. destruct (Head_Tail _ _ Hv Hh) as (t & -> & _). discriminate.
Qed.

Lemma literal_loop_safe (target rest : string) (s : stringPS) (msg : string) :
  validStream s -> literal_loop target rest s <> Panics msg.
Proof.
  revert s. induction rest as [|t rest IH]; intros s Hv; simpl; [discriminate|].
  destruct (Head s) as [h eof] eqn:Hh. destruct eof; [discriminate|].
  destruct (negb (t =? h)%char); simpl; [discriminate|].
  destruct (Head_Tail _ _ Hv Hh) as (t' & -> & Hv'). simpl. auto.
Qed.

Lemma literalIC_loop_safe (target upcased rest : string) (i : nat)
  (s : stringPS) (msg : string) :
  validStream s -> (i + String.length rest <= String.length upcased)%nat ->
  literalIC_loop target upcased rest i s <> Panics msg.
Proof.
  revert i s. induction rest as [|t rest IH]; intros i s Hv Hi; simpl;
    [discriminate|].
  destruct (Head s) as [h eof] eqn:Hh. destruct eof; [discriminate|].
  simpl in Hi.
  destruct (get_lt_Some upcased i ltac:(lia)) as [u ->].
  destruct (negb (u =? upperByte h)%char); [discriminate|].
  destruct (Head_Tail _ _ Hv Hh) as (t' & -> & Hv'). simpl.
  apply IH; [exact Hv' | lia].
Qed.

Lemma primitives_safe (s : stringPS) (msg : string) :
  validStream s ->
  parseAnyChar s <> Panics msg /\
  (forall options, parseOneOf options s <> Panics msg) /\
  (forall blacklist, parseNoneOf blacklist s <> Panics msg) /\
  (forall lo hi, parseRange lo hi s <> Panics msg).
Proof.
  intros Hv. unfold parseAnyChar, parseOneOf, parseNoneOf, parseRange.
  destruct (Head s) as [c eof] eqn:Hh.
  destruct eof; simpl; repeat split; intros; try discriminate.
  - now apply (Tail_SetValue_safe _ c).
  - destruct (containsByte options c);
      [now apply (Tail_SetValue_safe _ c) | discriminate].
  - destruct (containsByte blacklist c);
      [discriminate | now apply (Tail_SetValue_safe _ c)].
  - destruct (byte_le lo c && byte_le c hi);
      [now apply (Tail_SetValue_safe _ c) | discriminate].
Qed.

Section CombinatorsSafe.

Variable P : Action -> Prop.
Variable g : gmap string Parser.
Variable parse : parseFn.
Hypothesis parse_sound : soundFn parse.
Hypothesis parse_safe : safeFn P g parse.
Hypothesis table_steady : forall name q, g !! name = Some q -> steady P q.

(** The three ways a call on a child can end, short of running out of
    fuel. *)
Lemma child_cases (p : Parser) (s : stringPS) {B : Type}
  (k : ParseResult -> outcome B) (msg : string) :
  steady P p -> validStream s ->
  mbind k (parse p s) = Panics msg ->
  allowedPanic P g msg \/
  (exists s1, parse p s = Returns (Some s1, None) /\ advances s s1 /\
              validStream s1 /\ k (Some s1, None) = Panics msg) \/
  (exists e, parse p s = Returns (None, Some e) /\
             k (None, Some e) = Panics msg).
Proof.
  intros Hp Hv H. apply bind_Panics in H. destruct H as [H|([ps1 err] & H & Hk)].
  - left. eapply parse_safe; eauto.
  - right.
    destruct (parse_cases _ parse_sound _ _ _ _ H)
      as [(s1 & -> & -> & Hadv)|(e & -> & ->)]; [left|right; eauto].
    exists s1. split; [exact H|]. split; [exact Hadv|]. split; [|exact Hk].
    now destruct (advances_pos _ _ Hadv Hv).
Qed.

Lemma alt_loop_errors (parsers : list Parser) (s : stringPS)
  (acc errs : list (option parseError)) :
  alt_loop parse parsers s acc = Returns (inr errs) ->
  Forall is_Some acc -> Forall is_Some errs.
Proof.
  revert acc. induction parsers as [|inner parsers IH]; intros acc; simpl.
  - now intros [= <-].
  - intros H Hacc. inv_returns H. destruct a as [ps1 err].
    destruct (parse_cases _ parse_sound _ _ _ _ Ha)
      as [(s1 & -> & -> & _)|(e & -> & ->)]; [discriminate|].
    eapply IH; [exact H|]. apply Forall_app. split; [exact Hacc|].
    repeat constructor. eauto.
Qed.

Lemma alt_expectations_safe (errs : list (option parseError))
  (exps : list string) (msg : string) :
  Forall is_Some errs -> alt_expectations errs exps <> Panics msg.
Proof.
  revert exps. induction errs as [|err errs IH]; intros exps Hall; simpl;
    [discriminate|].
  inversion Hall as [|? ? [e ->] Hrest]; subst. simpl. auto.
Qed.

Lemma alt_loop_safe (parsers : list Parser) (s : stringPS)
  (acc : list (option parseError)) (msg : string) :
  Forall (steady P) parsers -> validStream s ->
  alt_loop parse parsers s acc = Panics msg -> allowedPanic P g msg.
Proof.
  revert acc. induction parsers as [|inner parsers IH]; intros acc Hall Hv;
    simpl; [discriminate|].
  inversion Hall as [|? ? Hinner Hrest]; subst. intros H.
  destruct (child_cases _ _ _ _ Hinner Hv H)
    as [Hok|[(s1 & _ & _ & _ & Hk)|(e & _ & Hk)]]; [exact Hok|discriminate|].
  eauto.
Qed.

Lemma parseAlt_safe (parsers : list Parser) (s : stringPS) (msg : string) :
  Forall (steady P) parsers -> validStream s ->
  parseAlt parse parsers s = Panics msg -> allowedPanic P g msg.
Proof.
  intros Hall Hv H. unfold parseAlt in H. apply bind_Panics in H.
  destruct H as [H|([ret|errs] & H & Hk)].
  - eapply alt_loop_safe; eauto.
  - discriminate.
  - apply alt_loop_errors in H; [|constructor].
    apply bind_Panics in Hk. destruct Hk as [Hk|(exps & _ & Hk)];
      [|discriminate].
    now apply alt_expectations_safe in Hk.
Qed.

Lemma seq_loop_safe (parsers : list Parser) (i : nat) (s : stringPS)
  (out : list Value) (msg : string) :
  Forall (steady P) parsers -> validStream s ->
  seq_loop parse parsers i s out = Panics msg -> allowedPanic P g msg.
Proof.
  revert i s out. induction parsers as [|inner parsers IH];
    intros i s out Hall Hv; simpl; [discriminate|].
  inversion Hall as [|? ? Hinner Hrest]; subst. intros H.
  destruct (child_cases _ _ _ _ Hinner Hv H)
    as [Hok|[(s1 & _ & _ & Hv1 & Hk)|(e & _ & Hk)]];
    [exact Hok| |discriminate].
  simpl in Hk. eauto.
Qed.

Lemma seqAt_loop_safe (parsers : list Parser) (index : Z) (i : nat)
  (s : stringPS) (v : Value) (msg : string) :
  Forall (steady P) parsers -> validStream s ->
  seqAt_loop parse parsers index i s v = Panics msg -> allowedPanic P g msg.
Proof.
  revert i s v. induction parsers as [|inner parsers IH];
    intros i s v Hall Hv; simpl; [discriminate|].
  inversion Hall as [|? ? Hinner Hrest]; subst. intros H.
  destruct (child_cases _ _ _ _ Hinner Hv H)
    as [Hok|[(s1 & _ & _ & Hv1 & Hk)|(e & _ & Hk)]];
    [exact Hok| |discriminate].
  destruct (Z.of_nat i =? index)%Z; simpl in Hk; eauto.
Qed.

Lemma many_loop_safe (n : nat) (inner : Parser) (capture : bool)
  (s : stringPS) (found : Z) (results : list Value) (msg : string) :
  steady P inner -> validStream s ->
  many_loop parse n inner capture s found results = Panics msg ->
  allowedPanic P g msg.
Proof.
  intros Hinner. revert s found results.
  induction n as [|n IH]; intros s found results Hv; simpl; [discriminate|].
  intros H.
  destruct (child_cases _ _ _ _ Hinner Hv H)
    as [Hok|[(s1 & _ & _ & Hv1 & Hk)|(e & _ & Hk)]];
    [exact Hok| |discriminate].
  simpl in Hk. eauto.
Qed.

Lemma sepBy_loop_safe (n : nat) (inner sep : Parser)
  (ps last : option stringPS) (err : option parseError)
  (results : list Value) (msg : string) :
  steady P inner -> steady P sep ->
  (forall s, ps = Some s -> validStream s) ->
  sepBy_loop parse n inner sep ps last err results = Panics msg ->
  allowedPanic P g msg.
Proof.
  intros Hinner Hsep. revert ps last err results.
  induction n as [|n IH]; intros ps last err results Hv;
    (destruct ps as [s|]; simpl; [|discriminate]); [discriminate|].
  specialize (Hv s eq_refl). intros H.
  destruct (child_cases _ _ _ _ Hinner Hv H)
    as [Hok|[(s1 & _ & _ & Hv1 & Hk)|(e & _ & Hk)]];
    [exact Hok| |discriminate].
  destruct (child_cases _ _ _ _ Hsep Hv1 Hk)
    as [Hok|[(s2 & _ & _ & Hv2 & Hk2)|(e & _ & Hk2)]]; [exact Hok| |].
  - eapply IH; [|exact Hk2]. now intros ? [= <-].
  - eapply IH; [|exact Hk2]. discriminate.
Qed.

Lemma endBy_loop_safe (n : nat) (inner sep : Parser)
  (ps last : option stringPS) (err : option parseError)
  (results : list Value) (msg : string) :
  steady P inner -> steady P sep ->
  (forall s, ps = Some s -> validStream s) ->
  endBy_loop parse n inner sep ps last err results = Panics msg ->
  allowedPanic P g msg.
Proof.
  intros Hinner Hsep. revert ps last err results.
  induction n as [|n IH]; intros ps last err results Hv;
    (destruct ps as [s|]; simpl; [|discriminate]); [discriminate|].
  specialize (Hv s eq_refl). intros H.
  destruct (child_cases _ _ _ _ Hinner Hv H)
    as [Hok|[(s1 & _ & _ & Hv1 & Hk)|(e & _ & Hk)]];
    [exact Hok| |discriminate].
  destruct (child_cases _ _ _ _ Hsep Hv1 Hk)
    as [Hok|[(s2 & _ & _ & Hv2 & Hk2)|(e & _ & Hk2)]]; [exact Hok| |].
  - eapply IH; [|exact Hk2]. now intros ? [= <-].
  - eapply IH; [|exact Hk2]. discriminate.
Qed.

(** The loops of [SepBy] and [EndBy] leave [last] set. *)
Lemma sepBy_loop_last (n : nat) (inner sep : Parser)
  (ps last : option stringPS) (err : option parseError)
  (results : list Value) (st : sepState) :
  sepBy_loop parse n inner sep ps last err results = Returns st ->
  is_Some ps \/ is_Some last -> is_Some (sep_last st).
Proof.
  revert ps last err results.
  induction n as [|n IH]; intros ps last err results;
    (destruct ps as [s|]; simpl;
     [|intros [= <-] [[? [=]]|Hl]; exact Hl]); [discriminate|].
  intros H _. inv_returns H. destruct a as [[s1|] err1].
  - inv_returns H. destruct a as [ps2 err2]. eapply IH; [exact H|]. eauto.
  - injection H as <-. simpl. eauto.
Qed.

Lemma endBy_loop_last (n : nat) (inner sep : Parser)
  (ps last : option stringPS) (err : option parseError)
  (results : list Value) (st : sepState) :
  endBy_loop parse n inner sep ps last err results = Returns st ->
  is_Some ps \/ is_Some last -> is_Some (sep_last st).
Proof.
  revert ps last err results.
  induction n as [|n IH]; intros ps last err results;
    (destruct ps as [s|]; simpl;
     [|intros [= <-] [[? [=]]|Hl]; exact Hl]); [discriminate|].
  intros H _. inv_returns H. destruct a as [[s1|] err1].
  - inv_returns H. destruct a as [ps2 err2]. eapply IH; [exact H|]. eauto.
  - injection H as <-. simpl. eauto.
Qed.

Lemma sep_finish_safe (min : Z) (st : sepState) (msg : string) :
  (min <= 0)%Z -> is_Some (sep_last st) -> sep_finish min st <> Panics msg.
Proof.
  intros Hmin [l Hl]. unfold sep_finish.
  destruct (Z.gtb_spec min (Z.of_nat (length (sep_results st)))); [lia|].
  rewrite Hl. discriminate.
Qed.

Lemma parseStep_safe (n : nat) : safeFn P g (parseStep parse n g).
Proof.
  intros p s msg Hp Hv.
  destruct Hp as [ target | target upcased Hlen | parsers Hall | parsers Hall
                 | parsers index Hall | inner Hin | | options | blacklist
                 | lo hi | inner min capture Hin
                 | inner sep min Hin Hsep Hmin | inner sep min Hin Hsep Hmin
                 | inner action Hin Hact | name ]; simpl; intros H.
  - now apply literal_loop_safe in H.
  - apply literalIC_loop_safe in H; [contradiction | exact Hv | lia].
  - eapply parseAlt_safe; eauto.
  - unfold parseSeq in H. apply bind_Panics in H.
    destruct H as [H|([e|[s' out]] & _ & Hk)]; [|discriminate..].
    eapply seq_loop_safe; eauto.
  - unfold parseSeqAt in H. apply bind_Panics in H.
    destruct H as [H|([e|[s' v]] & _ & Hk)]; [|discriminate..].
    eapply seqAt_loop_safe; eauto.
  - unfold parseOptional in H.
    destruct (child_cases _ _ _ _ Hin Hv H)
      as [Hok|[(s1 & _ & _ & _ & Hk)|(e & _ & Hk)]];
      [exact Hok|discriminate..].
  - now apply (primitives_safe s msg Hv) in H.
  - now apply (primitives_safe s msg Hv) in H.
  - now apply (primitives_safe s msg Hv) in H.
  - now apply (primitives_safe s msg Hv) in H.
  - unfold parseMany in H. apply bind_Panics in H.
    destruct H as [H|(st & _ & Hk)].
    + eapply many_loop_safe; eauto.
    + destruct (many_found st <? min)%Z; [discriminate|].
      destruct capture; discriminate.
  - unfold parseSepBy in H. apply bind_Panics in H.
    destruct H as [H|(st & Hst & Hk)].
    + eapply sepBy_loop_safe; [exact Hin | exact Hsep | | exact H].
      now intros ? [= <-].
    + apply sepBy_loop_last in Hst; [|eauto].
      now apply sep_finish_safe in Hk.
  - unfold parseEndBy in H. apply bind_Panics in H.
    destruct H as [H|(st & Hst & Hk)].
    + eapply endBy_loop_safe; [exact Hin | exact Hsep | | exact H].
      now intros ? [= <-].
    + apply endBy_loop_last in Hst; [|eauto].
      now apply sep_finish_safe in Hk.
  - unfold parseWithAction in H.
    destruct (child_cases _ _ _ _ Hin Hv H)
      as [Hok|[(s1 & _ & _ & _ & Hk)|(e & _ & Hk)]];
      [exact Hok| |discriminate].
    simpl in Hk. apply bind_Panics in Hk.
    destruct Hk as [Hk|([res [text|]] & _ & Hk)]; [|discriminate..].
    right. eauto.
  - destruct (g !! name) as [inner|] eqn:Hg.
    + eapply parse_safe; eauto.
    + injection H as <-. left. eauto.
Qed.

End CombinatorsSafe.

(** [Stringify]'s action panics exactly on the values that are not a slice
    of bytes. *)
Lemma bytesOf_Some (res : list Value) (out : string) :
  bytesOf res = Some out -> res = map VByte (list_ascii_of_string out).
Proof.
  revert out. induction res as [|v res IH]; intros out; simpl.
  - now intros [= <-].
  - destruct v; try discriminate.
    destruct (bytesOf res) as [o|]; [|discriminate].
    intros [= <-]. simpl. now rewrite (IH o eq_refl).
Qed.

Lemma bytesOf_bytes (bs : list ascii) :
  bytesOf (map VByte bs) = Some (string_of_list_ascii bs).
Proof. induction bs as [|b bs IH]; simpl; [reflexivity | now rewrite IH]. Qed.

Lemma stringifyAction_panics (raw : Value) :
  (exists msg, stringifyAction raw = Panics msg) <->
  ~ exists bs, raw = VList (map VByte bs).
Proof.
  split.
  - intros [msg H] [bs ->]. simpl in H. now rewrite bytesOf_bytes in H.
  - intros Hn. destruct raw; simpl; eauto.
    destruct (bytesOf l) as [out|] eqn:Hb; [|eauto].
    exfalso. apply Hn. eexists. f_equal. eapply bytesOf_Some; eauto.
Qed.

Theorem Parse_safe (P : Action -> Prop) (fuel : nat) (g : gmap string Parser) :
  (forall name q, g !! name = Some q -> steady P q) ->
  safeFn P g (Parse fuel g).
Proof.
  intros Hg. induction fuel as [|fuel IH]; [intros p s msg _ _; discriminate|].
  simpl. apply parseStep_safe; auto. apply Parse_sound.
Qed.

(** The two panics of the specification do occur. *)
Lemma Symbol_undefined_panics (fuel : nat) (g : gmap string Parser)
  (name : string) (s : stringPS) :
  g !! name = None ->
  Parse (S fuel) g (Symbol name) s = Panics ("no symbol named '" +:+ name +:+ "'").
Proof. intros H. simpl. rewrite H. simpl. now string_normalize. Qed.

Lemma start_undefined_panics (fuel : nat) (g : Grammar) (file input startSym : string) :
  symbols g !! startSym = None ->
  ParseStringWith fuel g file input startSym
  = Panics ("start symbol '" +:+ startSym +:+ "' does not exist").
Proof. intros H. unfold ParseStringWith. rewrite H. simpl. now string_normalize. Qed.

(** C7, as amended: for parsers built from the primitives and combinators
    other than [ManyTill], [SepBy] and [EndBy] with a positive minimum
    and a [LiteralIC] whose upper-cased text is shorter than its text, and
    a symbol table of such parsers, [Parse] on a valid stream panics only
    in [Symbol(name)] for a name that is not in the table or through a
    panic of one of the actions ([Stringify]'s action panics when the value
    it receives is not a slice of bytes); the driver panics only in those
    ways or because the start symbol is undefined. *)
Theorem C7_panics_only_from_symbols_and_actions (P : Action -> Prop)
  (fuel : nat) (g : Grammar) (msg : string) :
  (forall name q, symbols g !! name = Some q -> steady P q) ->
  (forall p s, steady P p -> validStream s ->
     Parse fuel (symbols g) p s = Panics msg ->
     allowedPanic P (symbols g) msg) /\
  (forall file input startSym,
     (Z.of_nat (String.length input) < 2 ^ 63)%Z ->
     ParseStringWith fuel g file input startSym = Panics msg ->
     (symbols g !! startSym = None /\
      msg = "start symbol '" +:+ startSym +:+ "' does not exist") \/
     allowedPanic P (symbols g) msg).
Proof.
  intros Hg. split.
  - intros p s. now apply Parse_safe.
  - intros file input startSym Hlen. unfold ParseStringWith.
    destruct (symbols g !! startSym) as [p|] eqn:Hp.
    + intros H. right. apply bind_Panics in H.
      destruct H as [H|([ps1 err] & H & Hk)].
      * eapply (Parse_safe P fuel _ Hg p); [eauto | | exact H].
        split; simpl; lia.
      * exfalso.
        destruct (parse_cases _ (Parse_sound fuel (symbols g)) _ _ _ _ H)
          as [(s1 & -> & -> & _)|(e & -> & ->)]; [|discriminate].
        simpl in Hk. destruct (Head s1) as [c eof]. destruct eof; discriminate.
    + intros [= <-]. left. split; [reflexivity|]. simpl. now string_normalize.
Qed.

Lemma C7_panics_only_from_symbols_and_actions_witness :
  let P := fun action : Action => action = stringifyAction in
  allowedPanic P ∅ "interface conversion: interface {} is not []interface {}".
Proof.
  intros P.
  assert (Hg : forall name q,
             symbols NewGrammar !! name = Some q -> steady P q).
  { intros name q H. simpl in H. rewrite lookup_empty in H. discriminate. }
  assert (Hp : steady P (Stringify (Literal "a")))
    by (repeat constructor).
  assert (Hv : validStream (initialStream "test" "a"))
    by (split; vm_compute; [discriminate | reflexivity]).
  refine (proj1 (C7_panics_only_from_symbols_and_actions P 3 NewGrammar _ Hg)
            (Stringify (Literal "a")) (initialStream "test" "a") Hp Hv _).
  vm_compute. reflexivity.
Defined.

(** ** The tests of the package, replayed on the embedding *)

Example TestLiteralMismatch :
  errorText (ParseString 3 (AddSymbol NewGrammar "START" (Literal "abcd"))
               "test" "abd")
  = Some "test line 1 col 0: expected literal 'abcd'".
Proof. vm_compute. reflexivity. Qed.

Example TestLiteralIC :
  ParseString 3 (AddSymbol NewGrammar "START" (LiteralIC "abc")) "test" "ABC"
  = Returns (VString "abc", None).
Proof. vm_compute. reflexivity. Qed.

Example TestAlt :
  errorText
    (ParseString 3
       (AddSymbol NewGrammar "START"
          (Alt [Literal "abc"; Literal "aaa"; Literal "def"]))
       "test" "ABC")
  = Some "test line 1 col 0: expected one of literal 'abc', literal 'aaa', literal 'def'".
Proof. vm_compute. reflexivity. Qed.

Example TestSeqAt :
  let g := AddSymbol NewGrammar "START"
             (SeqAt 1 [Literal "["; Alt [Literal "a"; Literal "b"]; Literal "]"]) in
  ParseString 4 g "test" "[b]" = Returns (VString "b", None) /\
  errorText (ParseString 4 g "test" "[c]")
  = Some "test line 1 col 0: expected one of literal 'a', literal 'b'" /\
  errorText (ParseString 4 g "test" "[ab")
  = Some "test line 1 col 0: expected literal ']'".
Proof. vm_compute. repeat split; reflexivity. Qed.

Example TestOneOf_NoneOf_Range :
  errorText (ParseString 3 (AddSymbol NewGrammar "START" (OneOf "abcd")) "test" "f")
  = Some "test line 1 col 0: expected one of: abcd" /\
  errorText (ParseString 3 (AddSymbol NewGrammar "START" (NoneOf "abcd")) "test" "c")
  = Some "test line 1 col 0: unexpected c" /\
  errorText (ParseString 3 (AddSymbol NewGrammar "START" (Range "a" "z")) "test" "A")
  = Some "test line 1 col 0: expected range(a..z)".
Proof. vm_compute. repeat split; reflexivity. Qed.

Example TestMany1 :
  let g := AddSymbol NewGrammar "START"
             (SeqAt 1 [Literal "["; Stringify (Many1 (Range "a" "z")); Literal "]"]) in
  ParseString 8 g "test" "[abc]" = Returns (VString "abc", None) /\
  errorText (ParseString 8 g "test" "[]")
  = Some "test line 1 col 0: minimum 1, expected range(a..z)" /\
  errorText (ParseString 8 g "test" "[ccA]")
  = Some "test line 1 col 0: expected literal ']'".
Proof. vm_compute. repeat split; reflexivity. Qed.

Example TestSepBy :
  let g := AddSymbol
             (AddSymbol NewGrammar "chunk"
                (SeqAt 1 [Literal "["; Stringify (Many (Range "a" "z"));
                          Literal "]"]))
             "START" (SepBy (Symbol "chunk") (Literal ",")) in
  ParseString 12 g "test" "[abc],[],[z]"
  = Returns (VList [VString "abc"; VString ""; VString "z"], None) /\
  ParseString 12 g "test" "" = Returns (VList [], None) /\
  errorText (ParseString 12 g "test" "[aa]![dc]")
  = Some "test line 1 col 0: incomplete parse, expected EOF but input remains".
Proof. vm_compute. repeat split; reflexivity. Qed.

(* ===================================================================== *)
(** * Further properties of the package *)
(* ===================================================================== *)

(** ** Streams *)

Lemma get_ge_None (s : string) (i : nat) :
  (String.length s <= i)%nat -> String.get i s = None.
Proof.
  revert i; induction s as [|c s IH]; intros [|i]; simpl; auto; try lia.
  intros H. apply IH. lia.
Qed.

Lemma substring_get_None (n m : nat) (s : string) :
  String.get n s = None -> String.substring n m s = "".
Proof.
  revert n. induction s as [|c s IH]; intros [|n]; simpl; auto.
  - now destruct m.
  - discriminate.
Qed.

Lemma Head_byteAt (s : stringPS) :
  validStream s ->
  Head s = match byteAt (str s) (pos s) with
           | Some b => (b, false)
           | None => (zero, true)
           end.
Proof.
  intros [Hpos Hlen]. unfold Head, UInt.of_len, UInt.wrap, byteAt.
  rewrite Z.mod_small by lia.
  destruct (Z.geb_spec (pos s) (Z.of_nat (String.length (str s)))) as [Hge|Hlt].
  - rewrite get_ge_None by lia. reflexivity.
  - destruct (get_lt_Some (str s) (Z.to_nat (pos s)) ltac:(lia)) as [b ->].
    reflexivity.
Qed.

Lemma Tail_byteAt (s : stringPS) (b : ascii) :
  validStream s -> byteAt (str s) (pos s) = Some b ->
  exists t, Tail s = Returns t /\ validStream t /\ str t = str s /\
    filename t = filename s /\ pos t = (pos s + 1)%Z /\ value t = VNil.
Proof.
  intros Hv Hb. destruct (Tail s) as [t| |] eqn:HT;
    [|unfold Tail in HT; rewrite Hb in HT;
      destruct (b =? newline)%char; discriminate..].
  destruct (Tail_pos _ _ Hv HT) as (Hp & _ & Hvt).
  destruct (Tail_fields _ _ HT) as (Hs & Hf & _ & Hval & _).
  exists t. auto 10.
Qed.

Lemma inputAt_None (s : stringPS) (n : nat) :
  byteAt (str s) (pos s) = None -> inputAt s n = "".
Proof. intros H. now apply substring_get_None. Qed.

Lemma inputAt_Some (s t : stringPS) (b : ascii) (n : nat) :
  byteAt (str s) (pos s) = Some b -> (0 <= pos s)%Z ->
  str t = str s -> pos t = (pos s + 1)%Z ->
  inputAt s (S n) = String b (inputAt t n).
Proof.
  intros Hb Hpos Hs Hp. unfold inputAt. rewrite (substring_get _ _ _ _ Hb), Hs, Hp.
  now replace (Z.to_nat (pos s + 1)) with (S (Z.to_nat (pos s))) by lia.
Qed.

Lemma tails_fields (k : nat) (s t : stringPS) :
  validStream s -> tails k s = Returns t ->
  validStream t /\ str t = str s /\ filename t = filename s /\
  pos t = (pos s + Z.of_nat k)%Z.
Proof.
  revert s. induction k as [|k IH]; intros s Hv; simpl.
  - intros [= <-]. repeat split; auto; try apply Hv. lia.
  - intros H. inv_returns H.
    destruct (Tail_pos _ _ Hv Ha) as (Hp & _ & Hva).
    destruct (Tail_fields _ _ Ha) as (Hs & Hf & _).
    destruct (IH _ Hva H) as (Hvt & Hst & Hft & Hpt).
    repeat split; try apply Hvt; try congruence. lia.
Qed.

(** X3: at the end of the buffer [Head] reports EOF and [Tail] panics with
    an index out of range; before the end [Head] gives the byte at the
    cursor and [Tail] the stream one byte further, with no value. *)
Theorem Head_Tail_at_cursor (s : stringPS) :
  validStream s ->
  match byteAt (str s) (pos s) with
  | None =>
      (Z.of_nat (String.length (str s)) <= pos s)%Z /\
      Head s = (zero, true) /\ Tail s = Panics "index out of range"
  | Some b =>
      (pos s < Z.of_nat (String.length (str s)))%Z /\
      Head s = (b, false) /\
      exists t, Tail s = Returns t /\ pos t = (pos s + 1)%Z /\
                str t = str s /\ value t = VNil
  end.
Proof.
  intros Hv. rewrite (Head_byteAt _ Hv).
  destruct (byteAt (str s) (pos s)) as [b|] eqn:Hb.
  - split; [|split; [reflexivity|]].
    + unfold byteAt in Hb. apply get_Some_lt in Hb. destruct Hv. lia.
    + destruct (Tail_byteAt _ _ Hv Hb) as (t & HT & _ & Hs & _ & Hp & Hval).
      eauto.
  - split; [|split; [reflexivity|]].
    + destruct Hv as [Hpos _].
      destruct (Z.le_gt_cases (Z.of_nat (String.length (str s))) (pos s)) as [H|H];
        [exact H|].
      destruct (get_lt_Some (str s) (Z.to_nat (pos s)) ltac:(lia)) as [b Hb'].
      unfold byteAt in Hb. congruence.
    + unfold Tail. now rewrite Hb.
Qed.

Lemma Head_Tail_at_cursor_witness :
  Head (initialStream "test" "") = (zero, true) /\
  Tail (initialStream "test" "") = Panics "index out of range".
Proof.
  assert (Hv : validStream (initialStream "test" ""))
    by (split; vm_compute; [discriminate | reflexivity]).
  pose proof (Head_Tail_at_cursor _ Hv) as H.
  change (byteAt (str (initialStream "test" "")) (pos (initialStream "test" "")))
    with (@None ascii) in H.
  cbv beta iota in H. destruct H as (_ & H1 & H2). split; assumption.
Defined.

(** ** What every parser does *)

(** X4: a call of [Parse] that returns gives either a stream and no error,
    or an error and no stream; the stream is over the same buffer and file
    as the input stream. *)
Theorem Parse_stream_or_error (fuel : nat) (g : gmap string Parser) (p : Parser)
  (s : stringPS) (ps1 : option stringPS) (err : option parseError) :
  Parse fuel g p s = Returns (ps1, err) ->
  (exists s', ps1 = Some s' /\ err = None /\
              str s' = str s /\ filename s' = filename s) \/
  (exists e, ps1 = None /\ err = Some e).
Proof.
  intros H. destruct (parse_cases _ (Parse_sound fuel g) _ _ _ _ H)
    as [(s1 & -> & -> & Hadv)|(e & -> & ->)]; [left|right; eauto].
  destruct (advances_fields _ _ Hadv). eauto.
Qed.

Lemma Parse_stream_or_error_witness :
  exists e, (@None stringPS) = None /\
            Some (mkErrorMessage (mkLoc "test" 1 0) "unexpected EOF" []) = Some e.
Proof.
  destruct (Parse_stream_or_error 1 ∅ AnyChar (initialStream "test" "")
              None (Some (mkErrorMessage (mkLoc "test" 1 0) "unexpected EOF" []))
              eq_refl) as [(s' & H & _)|H]; [discriminate | exact H].
Defined.

(** X5: no parser looks at the value attached to the stream it is given. *)
Theorem Parse_ignores_attached_value (fuel : nat) (g : gmap string Parser)
  (p : Parser) (s : stringPS) (v : Value) :
  Parse fuel g p (SetValue s v) = Parse fuel g p s.
Proof. apply Parse_blind. Qed.

(** ** Primitives *)

Lemma Sprintf_literal (target : string) :
  Sprintf "literal '%s'" [OpS target] = "literal '" +:+ target +:+ "'".
Proof. simpl. now string_normalize. Qed.

Lemma literal_loop_spec (target rest : string) (s : stringPS) :
  validStream s ->
  (inputAt s (String.length rest) = rest ->
   exists t, tails (String.length rest) s = Returns t /\
     literal_loop target rest s = success (SetValue t (VString target))) /\
  (inputAt s (String.length rest) <> rest ->
   exists e, literal_loop target rest s = failure e /\
     expected e = ["literal '" +:+ target +:+ "'"] /\ message e = "" /\
     Filename (loc e) = filename s).
Proof.
  revert s. induction rest as [|c rest IH]; intros s Hv.
  - split.
    + intros _. exists s. split; reflexivity.
    + intros H. exfalso. apply H. apply substring_zero_length.
  - cbn [String.length literal_loop]. rewrite (Head_byteAt _ Hv).
    destruct (byteAt (str s) (pos s)) as [b|] eqn:Hb.
    + destruct (Tail_byteAt _ _ Hv Hb) as (t & HT & Hvt & Hs & Hf & Hp & _).
      rewrite (inputAt_Some s t b _ Hb (proj1 Hv) Hs Hp).
      destruct (Ascii.eqb_spec c b) as [->|Hne]; cbn [orb negb].
      * destruct (IH t Hvt) as [IH1 IH2]. split.
        -- intros [= Hrest]. destruct (IH1 Hrest) as (t' & Ht' & Hl).
           exists t'. cbn [tails]. rewrite HT. cbn. auto.
        -- intros Hrest. destruct IH2 as (e & He & Hexp & Hmsg & Hfile);
             [congruence|].
           exists e. rewrite HT. cbn. repeat split; auto. congruence.
      * split; [intros [= ? ?]; congruence|]. intros _.
        eexists. split; [reflexivity|]. unfold mkErrorExpect. cbn.
        rewrite <- Sprintf_literal. auto.
    + rewrite (inputAt_None _ _ Hb). cbn [orb]. split; [discriminate|].
      intros _. eexists. split; [reflexivity|]. unfold mkErrorExpect. cbn.
      rewrite <- Sprintf_literal. auto.
Qed.

(** X6: [Literal(target)] succeeds exactly when the input at the cursor
    starts with [target]; it then returns the stream [len(target)] bytes
    further, with the value [target].  Otherwise it fails with the one
    expected fragment ["literal '<target>'"] and no message.  It never
    panics. *)
Theorem Literal_matches_prefix (fuel : nat) (g : gmap string Parser)
  (target : string) (s : stringPS) :
  validStream s ->
  exists r, Parse (S fuel) g (Literal target) s = Returns r /\
    match r with
    | (Some s', None) =>
        inputAt s (String.length target) = target /\
        pos s' = (pos s + Z.of_nat (String.length target))%Z /\
        value s' = VString target
    | (None, Some e) =>
        inputAt s (String.length target) <> target /\
        expected e = ["literal '" +:+ target +:+ "'"] /\ message e = "" /\
        Filename (loc e) = filename s
    | _ => False
    end.
Proof.
  intros Hv. cbn [Parse parseStep Literal].
  destruct (literal_loop_spec target target s Hv) as [H1 H2].
  destruct (string_dec (inputAt s (String.length target)) target) as [Heq|Hne].
  - destruct (H1 Heq) as (t & Ht & Hl). eexists. split; [exact Hl|].
    destruct (tails_fields _ _ _ Hv Ht) as (_ & _ & _ & Hp).
    split; [exact Heq|]. split; [exact Hp | reflexivity].
  - destruct (H2 Hne) as (e & Hl & He). eexists. split; [exact Hl|].
    split; [exact Hne | exact He].
Qed.

Lemma Literal_matches_prefix_witness :
  exists r, Parse 1 ∅ (Literal "ab") (initialStream "test" "abc") = Returns r /\
    exists s', r = (Some s', None) /\ pos s' = 2%Z /\ value s' = VString "ab".
Proof.
  assert (Hv : validStream (initialStream "test" "abc"))
    by (split; vm_compute; [discriminate | reflexivity]).
  destruct (Literal_matches_prefix 0 ∅ "ab" _ Hv) as (r & Hr & Hcase).
  exists r. split; [exact Hr|].
  assert (E : r = (Some (mkStringPS "abc" 2 "test" 1 0 (VString "ab")), None)).
  { vm_compute in Hr. now injection Hr as <-. }
  subst r. eexists. split; [reflexivity|]. split; reflexivity.
Defined.

Lemma upperAll_length (w : string) : String.length (upperAll w) = String.length w.
Proof. induction w; simpl; congruence. Qed.

Lemma literalIC_loop_spec (target upcased rest : string) (i : nat) (s : stringPS) :
  validStream s ->
  (i + String.length rest <= String.length upcased)%nat ->
  (upperAll (inputAt s (String.length rest))
   = String.substring i (String.length rest) upcased ->
   exists t, tails (String.length rest) s = Returns t /\
     literalIC_loop target upcased rest i s
     = success (SetValue t (VString target))) /\
  (upperAll (inputAt s (String.length rest))
   <> String.substring i (String.length rest) upcased ->
   exists e, literalIC_loop target upcased rest i s = failure e /\
     expected e = ["literal '" +:+ target +:+ "'"] /\ message e = "").
Proof.
  revert i s. induction rest as [|c rest IH]; intros i s Hv Hi.
  - split.
    + intros _. exists s. split; reflexivity.
    + intros H. exfalso. apply H.
      unfold inputAt. now rewrite !substring_zero_length.
  - cbn [String.length literalIC_loop] in *. rewrite (Head_byteAt _ Hv).
    destruct (get_lt_Some upcased i ltac:(lia)) as [u Hu].
    rewrite (substring_get _ _ _ _ Hu).
    destruct (byteAt (str s) (pos s)) as [b|] eqn:Hb.
    + destruct (Tail_byteAt _ _ Hv Hb) as (t & HT & Hvt & Hs & Hf & Hp & _).
      rewrite (inputAt_Some s t b _ Hb (proj1 Hv) Hs Hp). rewrite Hu.
      cbn [upperAll].
      destruct (Ascii.eqb_spec u (upperByte b)) as [->|Hne]; cbn [negb].
      * destruct (IH (S i) t Hvt ltac:(lia)) as [IH1 IH2]. split.
        -- intros [= Hrest]. destruct (IH1 Hrest) as (t' & Ht' & Hl).
           exists t'. cbn [tails]. rewrite HT. cbn. auto.
        -- intros Hrest. destruct IH2 as (e & He & Hexp & Hmsg); [congruence|].
           exists e. rewrite HT. cbn. auto.
      * split; [intros [= ? ?]; congruence|]. intros _.
        eexists. split; [reflexivity|]. unfold mkErrorExpect. cbn.
        rewrite <- Sprintf_literal. auto.
    + rewrite (inputAt_None _ _ Hb). split; [discriminate|].
      intros _. eexists. split; [reflexivity|]. unfold mkErrorExpect. cbn.
      rewrite <- Sprintf_literal. auto.
Qed.

(** X7: a [pLiteralIC] whose upper-cased text is as long as its text
    succeeds exactly when the bytes at the cursor, each upper-cased, are
    that upper-cased text; its value is then the text as given to
    [LiteralIC], not the spelling of the input, and the stream is
    [len(target)] bytes further. *)
Theorem LiteralIC_matches_upper_cased (fuel : nat) (g : gmap string Parser)
  (target upcased : string) (s : stringPS) :
  validStream s ->
  String.length upcased = String.length target ->
  exists r, Parse (S fuel) g (pLiteralIC target upcased) s = Returns r /\
    match r with
    | (Some s', None) =>
        upperAll (inputAt s (String.length target)) = upcased /\
        pos s' = (pos s + Z.of_nat (String.length target))%Z /\
        value s' = VString target
    | (None, Some e) =>
        upperAll (inputAt s (String.length target)) <> upcased /\
        expected e = ["literal '" +:+ target +:+ "'"] /\ message e = ""
    | _ => False
    end.
Proof.
  intros Hv Hlen. cbn [Parse parseStep].
  assert (Hsub : String.substring 0 (String.length target) upcased = upcased).
  { rewrite <- Hlen. clear. induction upcased as [|c u IH]; simpl; congruence. }
  destruct (literalIC_loop_spec target upcased target 0 s Hv ltac:(lia))
    as [H1 H2]. rewrite Hsub in H1, H2.
  destruct (string_dec (upperAll (inputAt s (String.length target))) upcased)
    as [Heq|Hne].
  - destruct (H1 Heq) as (t & Ht & Hl). eexists. split; [exact Hl|].
    destruct (tails_fields _ _ _ Hv Ht) as (_ & _ & _ & Hp).
    split; [exact Heq|]. split; [exact Hp | reflexivity].
  - destruct (H2 Hne) as (e & Hl & He). eexists. split; [exact Hl|].
    split; [exact Hne | exact He].
Qed.

Lemma LiteralIC_matches_upper_cased_witness :
  exists r, Parse 1 ∅ (LiteralIC "abc") (initialStream "test" "aBC") = Returns r /\
    exists s', r = (Some s', None) /\ value s' = VString "abc".
Proof.
  assert (Hv : validStream (initialStream "test" "aBC"))
    by (split; vm_compute; [discriminate | reflexivity]).
  destruct (LiteralIC_matches_upper_cased 0 ∅ "abc" (ToUpper "abc") _ Hv eq_refl)
    as (r & Hr & Hcase).
  exists r. split; [exact Hr|].
  assert (E : r = (Some (mkStringPS "aBC" 3 "test" 1 0 (VString "abc")), None)).
  { vm_compute in Hr. now injection Hr as <-. }
  subst r. eexists. split; reflexivity.
Defined.

Lemma containsByte_In (set : string) (c : ascii) :
  containsByte set c = true <-> In c (list_ascii_of_string set).
Proof.
  induction set as [|x set IH]; simpl.
  - split; [discriminate | contradiction].
  - destruct (Ascii.eqb_spec c x) as [->|Hne].
    + split; auto.
    + rewrite IH. split; [auto | intros [H|H]; [congruence | exact H]].
Qed.

Lemma Tail_success (s : stringPS) (b : ascii) :
  validStream s -> byteAt (str s) (pos s) = Some b ->
  exists t, Tail s = Returns t /\ pos t = (pos s + 1)%Z.
Proof.
  intros Hv Hb. destruct (Tail_byteAt _ _ Hv Hb) as (t & HT & _ & _ & _ & Hp & _).
  eauto.
Qed.

(** X8: [AnyChar], [OneOf], [NoneOf] and [Range] never panic; when they
    succeed they have consumed exactly one byte and their value is that
    byte; when they fail the error is at the location of the stream they
    were given. *)
Theorem singleByte_consumes_one (fuel : nat) (g : gmap string Parser)
  (p : Parser) (s : stringPS) :
  singleByte p = true -> validStream s ->
  exists r, Parse (S fuel) g p s = Returns r /\
    match r with
    | (Some s', None) =>
        exists b, byteAt (str s) (pos s) = Some b /\
                  value s' = VByte b /\ pos s' = (pos s + 1)%Z
    | (None, Some e) => loc e = LocOf s
    | _ => False
    end.
Proof.
  intros Hp Hv.
  destruct p; try discriminate; cbn [Parse parseStep];
    unfold parseAnyChar, parseOneOf, parseNoneOf, parseRange;
    rewrite (Head_byteAt _ Hv);
    (destruct (byteAt (str s) (pos s)) as [b|] eqn:Hb;
     [cbv beta iota|eexists; split; [reflexivity|]; reflexivity]).
  - destruct (Tail_success s b Hv Hb) as (t & -> & Hpos).
    eexists. split; [reflexivity|]. exists b. auto.
  - destruct (containsByte options b).
    + destruct (Tail_success s b Hv Hb) as (t & -> & Hpos).
      eexists. split; [reflexivity|]. exists b. auto.
    + eexists. split; reflexivity.
  - destruct (containsByte blacklist b).
    + eexists. split; reflexivity.
    + destruct (Tail_success s b Hv Hb) as (t & -> & Hpos).
      eexists. split; [reflexivity|]. exists b. auto.
  - cbn [negb andb]. destruct (byte_le lo b && byte_le b hi).
    + destruct (Tail_success s b Hv Hb) as (t & -> & Hpos).
      eexists. split; [reflexivity|]. exists b. auto.
    + eexists. split; reflexivity.
Qed.

Lemma singleByte_consumes_one_witness :
  exists r, Parse 1 ∅ AnyChar (initialStream "test" "x") = Returns r /\
    exists s', r = (Some s', None) /\ value s' = VByte "x" /\ pos s' = 1%Z.
Proof.
  assert (Hv : validStream (initialStream "test" "x"))
    by (split; vm_compute; [discriminate | reflexivity]).
  destruct (singleByte_consumes_one 0 ∅ AnyChar _ eq_refl Hv) as (r & Hr & _).
  exists r. split; [exact Hr|].
  assert (E : r = (Some (mkStringPS "x" 1 "test" 1 0 (VByte "x")), None)).
  { vm_compute in Hr. now injection Hr as <-. }
  subst r. eexists. split; [reflexivity|]. split; reflexivity.
Defined.

(** X9: [OneOf(set)] succeeds exactly when there is a byte at the cursor
    and it occurs in [set]; [NoneOf(set)] exactly when there is a byte at
    the cursor and it does not occur in [set].  At the end of the input
    both fail. *)
Theorem OneOf_NoneOf_membership (fuel : nat) (g : gmap string Parser)
  (set : string) (s : stringPS) :
  validStream s ->
  ((exists s', Parse (S fuel) g (OneOf set) s = Returns (Some s', None)) <->
   (exists b, byteAt (str s) (pos s) = Some b /\
              In b (list_ascii_of_string set))) /\
  ((exists s', Parse (S fuel) g (NoneOf set) s = Returns (Some s', None)) <->
   (exists b, byteAt (str s) (pos s) = Some b /\
              ~ In b (list_ascii_of_string set))).
Proof.
  intros Hv. cbn [Parse parseStep OneOf NoneOf].
  unfold parseOneOf, parseNoneOf. rewrite (Head_byteAt _ Hv).
  destruct (byteAt (str s) (pos s)) as [b|] eqn:Hb; cbv beta iota.
  - destruct (Tail_success s b Hv Hb) as (t & HT & _).
    pose proof (containsByte_In set b) as Hin.
    destruct (containsByte set b); rewrite ?HT; split; split.
    + intros _. exists b. split; [reflexivity | now apply Hin].
    + eauto.
    + intros [s' [=]].
    + intros (b' & [= <-] & Hn). exfalso. apply Hn. now apply Hin.
    + intros [s' [=]].
    + intros (b' & [= <-] & Hi). apply Hin in Hi. discriminate.
    + intros _. exists b. split; [reflexivity|]. intros Hi.
      apply Hin in Hi. discriminate.
    + eauto.
  - split; split; try (intros [s' [=]]); intros (b & [=] & _).
Qed.

Lemma OneOf_NoneOf_membership_witness :
  (exists s', Parse 1 ∅ (OneOf "+-") (initialStream "test" "-1")
              = Returns (Some s', None)) /\
  ~ (exists s', Parse 1 ∅ (NoneOf "+-") (initialStream "test" "-1")
                = Returns (Some s', None)).
Proof.
  assert (Hv : validStream (initialStream "test" "-1"))
    by (split; vm_compute; [discriminate | reflexivity]).
  destruct (OneOf_NoneOf_membership 0 ∅ "+-" _ Hv) as [H1 H2].
  split.
  - apply H1. exists "-"%char. split; [reflexivity|]. simpl. auto.
  - intros H. apply H2 in H. destruct H as (b & Hb & Hn).
    vm_compute in Hb. injection Hb as <-. apply Hn. simpl. auto.
Defined.



(** ** Choice and sequence *)

Local Open Scope list_scope.

Lemma alt_loop_app (parse : parseFn) (xs ys : list Parser) (s : stringPS)
  (acc : list (option parseError)) :
  alt_loop parse (xs ++ ys) s acc
  = r ← alt_loop parse xs s acc;
    match r with
    | inl ret => Returns (inl ret)
    | inr errs => alt_loop parse ys s errs
    end.
Proof.
  revert acc. induction xs as [|x xs IH]; intros acc; simpl; [reflexivity|].
  destruct (parse x s) as [[[ret|] err]| |]; simpl; auto.
Qed.

(** X11: [Alt] returns the result of the first child that succeeds: the
    children before it have failed on the same stream, the children after
    it are not tried. *)
Theorem Alt_first_success (fuel : nat) (g : gmap string Parser)
  (before after : list Parser) (errs : list parseError) (p : Parser)
  (s r : stringPS) :
  Forall2 (fun q e => Parse fuel g q s = Returns (None, Some e)) before errs ->
  Parse fuel g p s = Returns (Some r, None) ->
  Parse (S fuel) g (Alt (before ++ p :: after)) s = Returns (Some r, None).
Proof.
  intros Hb Hp. cbn [Parse parseStep Alt]. unfold parseAlt.
  rewrite alt_loop_app, (alt_loop_all_fail _ _ _ _ Hb). cbn.
  rewrite Hp. reflexivity.
Qed.

Lemma Alt_first_success_witness :
  Parse 2 ∅ (Alt [Literal "abc"; Literal "a"; Literal "ab"])
    (initialStream "test" "ab")
  = Returns (Some (mkStringPS "ab" 1 "test" 1 0 (VString "a")), None).
Proof.
  pose (s := initialStream "test" "ab").
  pose (err := mkErrorExpect (LocOf s) "literal '%s'" [OpS "abc"]).
  refine (Alt_first_success 1 ∅ [Literal "abc"] [Literal "ab"] [err]
            (Literal "a") s _ _ _).
  - repeat constructor.
  - reflexivity.
Defined.

Lemma alt_loop_acc (parse : parseFn) (ps : list Parser) (s : stringPS)
  (acc : list (option parseError)) :
  match alt_loop parse ps s acc with
  | Returns (inl ret) =>
      forall acc', alt_loop parse ps s acc' = Returns (inl ret)
  | Returns (inr errs) =>
      exists new, errs = acc ++ new /\
        forall acc', alt_loop parse ps s acc' = Returns (inr (acc' ++ new))
  | Panics msg => forall acc', alt_loop parse ps s acc' = Panics msg
  | OutOfFuel => forall acc', alt_loop parse ps s acc' = OutOfFuel
  end.
Proof.
  revert acc. induction ps as [|p ps IH]; intros acc; simpl.
  - exists []. split; [now rewrite app_nil_r|].
    intros acc'. now rewrite app_nil_r.
  - destruct (parse p s) as [[[ret|] err]| |]; simpl; auto.
    specialize (IH (acc ++ [err])).
    destruct (alt_loop parse ps s (acc ++ [err])) as [[ret|errs]| |] eqn:E; auto.
    destruct IH as (new & -> & Hall). exists (err :: new).
    split; [now rewrite <- app_assoc|].
    intros acc'. rewrite Hall. now rewrite <- app_assoc.
Qed.

Lemma alt_expectations_app (errs1 errs2 : list (option parseError))
  (exps exps1 : list string) :
  alt_expectations errs1 exps = Returns exps1 ->
  alt_expectations (errs1 ++ errs2) exps = alt_expectations errs2 exps1.
Proof.
  revert exps. induction errs1 as [|[e|] errs1 IH]; intros exps; simpl.
  - now intros [= <-].
  - apply IH.
  - discriminate.
Qed.

Lemma alt_expectations_total (errs : list (option parseError)) (exps : list string) :
  Forall is_Some errs -> exists out, alt_expectations errs exps = Returns out.
Proof.
  revert exps. induction errs as [|err errs IH]; intros exps Hall; simpl; eauto.
  inversion Hall as [|? ? [e ->] Hrest]; subst. simpl. auto.
Qed.

(** X12: nesting does not change [Alt]: whatever [Alt(x1, .., xn, y1, .., ym)]
    returns, stream or error, [Alt(Alt(x1, .., xn), y1, .., ym)] returns
    too. *)
Theorem Alt_nested (fuel : nat) (g : gmap string Parser)
  (xs ys : list Parser) (s : stringPS) (r : ParseResult) :
  Parse (S fuel) g (Alt (xs ++ ys)) s = Returns r ->
  Parse (S (S fuel)) g (Alt (Alt xs :: ys)) s = Returns r.
Proof.
  change (Parse (S fuel) g (Alt (xs ++ ys)) s)
    with (parseAlt (Parse fuel g) (xs ++ ys) s).
  change (Parse (S (S fuel)) g (Alt (Alt xs :: ys)) s)
    with (parseAlt (Parse (S fuel) g) (Alt xs :: ys) s).
  unfold parseAlt. cbn [alt_loop].
  change (Parse (S fuel) g (Alt xs) s) with (parseAlt (Parse fuel g) xs s).
  unfold parseAlt. rewrite alt_loop_app.
  destruct (alt_loop (Parse fuel g) xs s []) as [[ret|errs1]| |] eqn:E1;
    cbn [mbind outcome_bind success failure app]; try discriminate; [auto|].
  pose proof (alt_loop_errors _ (Parse_sound fuel g) _ _ _ _ E1
                ltac:(constructor)) as Hsome.
  destruct (alt_expectations_total errs1 [] Hsome) as [exps1 Hexps1].
  rewrite Hexps1. cbn [mbind outcome_bind success failure app].
  pose proof (alt_loop_acc (Parse fuel g) ys s errs1) as Hacc.
  match goal with
  | |- context [alt_loop (Parse (S fuel) g) ys s ?acc] =>
      pose proof (alt_loop_mono _ _
                    (Parse_fuel_mono fuel (S fuel) g ltac:(lia)) ys s acc) as Hm
  end.
  destruct (alt_loop (Parse fuel g) ys s errs1) as [[ret|errs]| |] eqn:E2;
    cbn [mbind outcome_bind success failure]; try discriminate.
  - rewrite Hacc in Hm. rewrite Hm by discriminate. auto.
  - destruct Hacc as (new & -> & Hall).
    rewrite Hall in Hm. rewrite Hm by discriminate.
    cbn [mbind outcome_bind success failure app].
    rewrite (alt_expectations_app _ _ _ _ Hexps1).
    cbn [alt_expectations deref app expected mkErrorExpectations]. auto.
Qed.

Lemma Alt_nested_witness :
  Parse 3 ∅ (Alt [Alt [Literal "abc"; Literal "aaa"]; Literal "def"])
    (initialStream "test" "ABC")
  = Returns (None, Some {| expected := ["literal 'abc'"; "literal 'aaa'";
                                        "literal 'def'"];
                           message := "";
                           loc := {| Filename := "test"; Line := 1; Col := 0 |} |}).
Proof.
  refine (Alt_nested 1 ∅ [Literal "abc"; Literal "aaa"] [Literal "def"]
            (initialStream "test" "ABC") _ _).
  vm_compute. reflexivity.
Defined.

Lemma threads_length (parse : parseFn) (ps : list Parser) (s s' : stringPS)
  (vs : list Value) :
  threads parse ps s vs s' -> length vs = length ps.
Proof. induction 1; simpl; congruence. Qed.

Lemma seq_loop_threads (parse : parseFn) (ps : list Parser) (s s' : stringPS)
  (vs : list Value) :
  threads parse ps s vs s' ->
  forall (i : nat) (out : list Value),
    length out = (i + length ps)%nat ->
    seq_loop parse ps i s out = Returns (inr (s', take i out ++ vs)).
Proof.
  induction 1 as [s | p ps s s1 vs s' Hp Ht IH]; intros i out Hlen; simpl in *.
  - rewrite app_nil_r, take_ge by lia. reflexivity.
  - rewrite Hp. cbn [mbind outcome_bind deref].
    rewrite IH by (rewrite length_insert; lia).
    rewrite (take_S_r _ _ (GetValue s1))
      by (apply list_lookup_insert_eq; lia).
    rewrite take_insert_ge by lia. now rewrite <- app_assoc.
Qed.

Lemma seq_loop_fails (parse : parseFn) (before after : list Parser) (p : Parser)
  (s s1 : stringPS) (vs : list Value) (e : parseError) :
  threads parse before s vs s1 ->
  parse p s1 = Returns (None, Some e) ->
  forall (i : nat) (out : list Value),
    seq_loop parse (before ++ p :: after) i s out = Returns (inl e).
Proof.
  induction 1 as [s | q ps s s2 vs s' Hq Ht IH]; intros Hp i out; simpl.
  - now rewrite Hp.
  - rewrite Hq. cbn [mbind outcome_bind deref]. now apply IH.
Qed.

(** X13: when its children succeed one after the other, [Seq] succeeds on
    the stream the last child returned, and its value is the slice of the
    children's values, in order and of the same length as the list of
    children; [Seq()] succeeds with an empty slice. *)
Theorem Seq_collects_values (fuel : nat) (g : gmap string Parser)
  (ps : list Parser) (s s' : stringPS) (vs : list Value) :
  threads (Parse fuel g) ps s vs s' ->
  Parse (S fuel) g (Seq ps) s = Returns (Some (SetValue s' (VList vs)), None)
  /\ length vs = length ps.
Proof.
  intros H. split; [|eapply threads_length; eauto].
  cbn [Parse parseStep Seq]. unfold parseSeq.
  rewrite (seq_loop_threads _ _ _ _ _ H) by (rewrite length_replicate; lia).
  reflexivity.
Qed.

Lemma Seq_collects_values_witness :
  Parse 2 ∅ (Seq [Literal "["; Literal "a"; Literal "]"])
    (initialStream "test" "[a]")
  = Returns (Some (mkStringPS "[a]" 3 "test" 1 0
                     (VList [VString "["; VString "a"; VString "]"])), None).
Proof.
  refine (proj1 (Seq_collects_values 1 ∅ _ (initialStream "test" "[a]")
                   (mkStringPS "[a]" 3 "test" 1 0 (VString "]"))
                   [VString "["; VString "a"; VString "]"] _)).
  eapply (threads_cons _ _ _ _ (mkStringPS "[a]" 1 "test" 1 0 (VString "[")));
    [reflexivity|].
  eapply (threads_cons _ _ _ _ (mkStringPS "[a]" 2 "test" 1 0 (VString "a")));
    [reflexivity|].
  eapply (threads_cons _ _ _ _ (mkStringPS "[a]" 3 "test" 1 0 (VString "]")));
    [reflexivity|].
  constructor.
Defined.

(** X14: when a child of [Seq] or [SeqAt] fails after the children before
    it have succeeded, the combinator returns that child's error as it is,
    and the children after it are not tried. *)
Theorem Seq_forwards_child_error (fuel : nat) (g : gmap string Parser)
  (before after : list Parser) (p : Parser) (index : Z)
  (s s1 : stringPS) (vs : list Value) (e : parseError) :
  threads (Parse fuel g) before s vs s1 ->
  Parse fuel g p s1 = Returns (None, Some e) ->
  Parse (S fuel) g (Seq (before ++ p :: after)) s = Returns (None, Some e) /\
  Parse (S fuel) g (SeqAt index (before ++ p :: after)) s
  = Returns (None, Some e).
Proof.
  intros Ht Hp. split.
  - cbn [Parse parseStep Seq]. unfold parseSeq.
    now rewrite (seq_loop_fails _ _ _ _ _ _ _ _ Ht Hp).
  - cbn [Parse parseStep SeqAt]. unfold parseSeqAt.
    assert (H : forall i v, seqAt_loop (Parse fuel g) (before ++ p :: after)
                              index i s v = Returns (inl e)).
    { clear - Ht Hp. induction Ht as [s | q ps s s2 vs s' Hq Ht IH];
        intros i v; simpl.
      - now rewrite Hp.
      - rewrite Hq. cbn [mbind outcome_bind deref].
        destruct (Z.of_nat i =? index)%Z; simpl; now apply IH. }
    now rewrite H.
Qed.

Lemma Seq_forwards_child_error_witness :
  Parse 2 ∅ (SeqAt 1 [Literal "["; Literal "a"; Literal "]"])
    (initialStream "test" "[ab")
  = Returns (None, Some {| expected := ["literal ']'"]; message := "";
                           loc := {| Filename := "test"; Line := 1; Col := 0 |} |}).
Proof.
  pose (s := initialStream "test" "[ab").
  pose (s2 := mkStringPS "[ab" 2 "test" 1 0 (VString "a")).
  assert (Ht : threads (Parse 1 ∅) [Literal "["; Literal "a"] s
                 [VString "["; VString "a"] s2).
  { eapply (threads_cons _ _ _ _ (mkStringPS "[ab" 1 "test" 1 0 (VString "[")));
      [reflexivity|].
    eapply (threads_cons _ _ _ _ s2); [reflexivity|]. constructor. }
  exact (proj2 (Seq_forwards_child_error 1 ∅ _ [] (Literal "]") 1 s s2 _
                  (mkErrorExpect (LocOf s2) "literal '%s'" [OpS "]"])
                  Ht eq_refl)).
Defined.

Lemma seqAt_loop_threads (parse : parseFn) (ps : list Parser) (index : Z)
  (s s' : stringPS) (vs : list Value) :
  threads parse ps s vs s' ->
  forall (i : nat) (v : Value),
    seqAt_loop parse ps index i s v
    = Returns (inr (s', if (index <? Z.of_nat i)%Z then v
                        else nth (Z.to_nat (index - Z.of_nat i)) vs v)).
Proof.
  induction 1 as [s | p ps s s1 vs s' Hp Ht IH]; intros i v; simpl.
  - destruct (index <? Z.of_nat i)%Z; [reflexivity|].
    now destruct (Z.to_nat (index - Z.of_nat i)).
  - rewrite Hp. cbn [mbind outcome_bind].
    destruct (Z.eqb_spec (Z.of_nat i) index) as [Heq|Hne];
      cbn [deref]; rewrite IH.
    + destruct (Z.ltb_spec index (Z.of_nat (S i))); [|lia].
      destruct (Z.ltb_spec index (Z.of_nat i)); [lia|].
      replace (Z.to_nat (index - Z.of_nat i)) with 0%nat by lia. reflexivity.
    + destruct (Z.ltb_spec index (Z.of_nat (S i)));
        destruct (Z.ltb_spec index (Z.of_nat i)); try lia; try reflexivity.
      replace (Z.to_nat (index - Z.of_nat i))
        with (S (Z.to_nat (index - Z.of_nat (S i)))) by lia.
      reflexivity.
Qed.

(** X15: when its children succeed one after the other, [SeqAt(index, ...)]
    succeeds on the stream the last child returned, with the value of the
    child number [index] (from 0); an index that is negative or not
    smaller than the number of children gives the value nil, not a
    panic. *)
Theorem SeqAt_picks_value (fuel : nat) (g : gmap string Parser)
  (ps : list Parser) (index : Z) (s s' : stringPS) (vs : list Value) :
  threads (Parse fuel g) ps s vs s' ->
  Parse (S fuel) g (SeqAt index ps) s
  = Returns (Some (SetValue s'
                     (if (index <? 0)%Z then VNil
                      else nth (Z.to_nat index) vs VNil)), None).
Proof.
  intros H. cbn [Parse parseStep SeqAt]. unfold parseSeqAt.
  rewrite (seqAt_loop_threads _ _ _ _ _ _ H). cbn [mbind outcome_bind].
  change (Z.of_nat 0) with 0%Z. rewrite Z.sub_0_r. reflexivity.
Qed.

Lemma SeqAt_picks_value_witness :
  Parse 2 ∅ (SeqAt 1 [Literal "["; Literal "a"]) (initialStream "test" "[a")
  = Returns (Some (mkStringPS "[a" 2 "test" 1 0 (VString "a")), None)
  /\ Parse 2 ∅ (SeqAt 7 [Literal "["; Literal "a"]) (initialStream "test" "[a")
     = Returns (Some (mkStringPS "[a" 2 "test" 1 0 VNil), None).
Proof.
  assert (Ht : threads (Parse 1 ∅) [Literal "["; Literal "a"]
                 (initialStream "test" "[a") [VString "["; VString "a"]
                 (mkStringPS "[a" 2 "test" 1 0 (VString "a"))).
  { eapply (threads_cons _ _ _ _ (mkStringPS "[a" 1 "test" 1 0 (VString "[")));
      [reflexivity|].
    eapply (threads_cons _ _ _ _ (mkStringPS "[a" 2 "test" 1 0 (VString "a")));
      [reflexivity|]. constructor. }
  split.
  - exact (SeqAt_picks_value 1 ∅ _ 1 _ _ _ Ht).
  - exact (SeqAt_picks_value 1 ∅ _ 7 _ _ _ Ht).
Defined.

(** X16: [Optional] never returns an error: when its parser succeeds it
    returns that parser's stream, when its parser fails it returns the
    stream it was given, with the value nil. *)
Theorem Optional_never_fails (fuel : nat) (g : gmap string Parser)
  (inner : Parser) (s : stringPS) (r : ParseResult) :
  Parse fuel g inner s = Returns r ->
  Parse (S fuel) g (Optional inner) s
  = Returns (Some (match r with
                   | (Some s1, _) => s1
                   | (None, _) => SetValue s VNil
                   end), None).
Proof.
  intros H. cbn [Parse parseStep Optional]. unfold parseOptional. rewrite H.
  destruct r as [[s1|] err]; reflexivity.
Qed.

Lemma Optional_never_fails_witness :
  Parse 2 ∅ (Optional (Literal "?")) (initialStream "test" "]")
  = Returns (Some (initialStream "test" "]"), None).
Proof.
  exact (Optional_never_fails 1 ∅ (Literal "?") (initialStream "test" "]")
           (None, Some (mkErrorExpect (LocOf (initialStream "test" "]"))
                          "literal '%s'" [OpS "?"])) eq_refl).
Defined.

(** ** Repetition *)

(** The loop of [pMany.Parse] does the same rounds whether or not it
    captures the values. *)
Lemma many_loop_capture (parse : parseFn) (n : nat) (inner : Parser)
  (s : stringPS) (found : Z) (results results' : list Value) (st : manyState) :
  many_loop parse n inner true s found results = Returns st ->
  many_loop parse n inner false s found results'
  = Returns {| many_ps := many_ps st; many_found := many_found st;
               many_results := results'; many_err := many_err st |}.
Proof.
  revert s found results.
  induction n as [|n IH]; intros s found results; simpl; [discriminate|].
  destruct (parse inner s) as [[ps2 [e|]]| |]; cbn [mbind outcome_bind];
    try discriminate.
  - now intros [= <-].
  - destruct ps2 as [s2|]; cbn [deref]; [|discriminate]. apply IH.
Qed.

(** X17: [ManyDrop(p)] does what [Many(p)] does and drops the values: when
    [Many(p)] returns a stream, [ManyDrop(p)] returns the same stream with
    the value nil. *)
Theorem ManyDrop_as_Many (fuel : nat) (g : gmap string Parser) (p : Parser)
  (s s' : stringPS) :
  Parse fuel g (Many p) s = Returns (Some s', None) ->
  Parse fuel g (ManyDrop p) s = Returns (Some (SetValue s' VNil), None).
Proof.
  destruct fuel as [|fuel]; [discriminate|].
  cbn [Parse parseStep Many ManyMin ManyDrop]. unfold parseMany.
  intros H. inv_returns H.
  rewrite (many_loop_capture _ _ _ _ _ _ [] _ Ha). cbn [mbind outcome_bind].
  cbn [many_found many_ps].
  destruct (many_found a <? 0)%Z; [discriminate|].
  injection H as <-. reflexivity.
Qed.

Lemma ManyDrop_as_Many_witness :
  Parse 5 ∅ (ManyDrop (OneOf " ")) (initialStream "test" "  x")
  = Returns (Some (mkStringPS "  x" 2 "test" 1 0 VNil), None).
Proof.
  exact (ManyDrop_as_Many 5 ∅ (OneOf " ") (initialStream "test" "  x")
           (mkStringPS "  x" 2 "test" 1 0 (VList [VByte " "; VByte " "]))
           eq_refl).
Defined.

(** The rounds the loop of [pMany.Parse] has done when it returns. *)
Lemma many_loop_run (parse : parseFn) (n : nat) (inner : Parser)
  (capture : bool) (s : stringPS) (found : Z) (results : list Value)
  (st : manyState) :
  soundFn parse ->
  many_loop parse n inner capture s found results = Returns st ->
  exists vs k, consecutive parse inner s vs k (many_ps st) (many_err st) /\
               (k < n)%nat.
Proof.
  intros Hsound. revert s found results.
  induction n as [|n IH]; intros s found results; simpl; [discriminate|].
  intros H. inv_returns H. destruct a as [ps2 err].
  destruct (parse_cases _ Hsound _ _ _ _ Ha) as [(s2 & -> & -> & _)|(e & -> & ->)].
  - cbn [deref] in H. destruct (IH _ _ _ H) as (vs & k & Hc & Hk).
    exists (GetValue s2 :: vs), (S k). split; [|lia].
    econstructor; eauto.
  - injection H as <-. exists [], 0%nat. split; [|lia]. now constructor.
Qed.

Lemma many_loop_found (parse : parseFn) (p : Parser) (capture : bool)
  (s s' : stringPS) (vs : list Value) (k : nat) (e : parseError) :
  consecutive parse p s vs k s' e ->
  forall (n : nat) (found : Z) (results : list Value),
    (k < n)%nat -> (0 <= found)%Z -> (found + Z.of_nat k < 2 ^ 63)%Z ->
    exists st, many_loop parse n p capture s found results = Returns st /\
      many_ps st = s' /\ many_found st = (found + Z.of_nat k)%Z /\
      many_err st = e.
Proof.
  induction 1 as [s e H | s s1 vs k s' e H Hc IH];
    intros n found results Hn Hf Hk; (destruct n as [|n]; [lia|]); simpl.
  - rewrite H. cbn. eexists. split; [reflexivity|]. cbn. repeat split. lia.
  - rewrite H. cbn [mbind outcome_bind deref].
    destruct (IH n (Int.add found 1)
                (if capture then results ++ [GetValue s1] else results))
      as (st & Hst & Hps & Hfound & Herr);
      try (rewrite ?Int_add_small; lia).
    exists st. split; [exact Hst|]. repeat split; auto.
    rewrite Hfound, Int_add_small by lia. lia.
Qed.

(** X18: [Many], [ManyDrop] and every [ManyMin] with a minimum of 0 or less
    never return an error. *)
Theorem Many_never_fails (fuel : nat) (g : gmap string Parser) (p : Parser)
  (min : Z) (capture : bool) (s : stringPS) (ps1 : option stringPS)
  (err : option parseError) :
  validStream s -> (min <= 0)%Z ->
  Parse fuel g (pMany p min capture) s = Returns (ps1, err) ->
  err = None.
Proof.
  intros Hv Hmin. destruct fuel as [|fuel]; [discriminate|].
  cbn [Parse parseStep]. unfold parseMany. intros H. inv_returns H.
  destruct (many_loop_run _ _ _ _ _ _ _ _ (Parse_sound fuel g) Ha)
    as (vs & k & Hc & Hk).
  pose proof (consecutive_bound _ _ _ _ _ _ _
                (Parse_sound fuel g) (Parse_blind fuel g) Hc Hv) as Hb.
  destruct Hv as [Hpos Hlen].
  destruct (many_loop_found _ _ capture _ _ _ _ _ Hc fuel 0 [] Hk)
    as (st & Hst & _ & Hfound & _); try lia.
  rewrite Hst in Ha. injection Ha as <-.
  destruct (Z.ltb_spec (many_found st) min); [lia|].
  destruct capture; now injection H as _ <-.
Qed.

Lemma Many_never_fails_witness :
  exists r, Parse 3 ∅ (Many (Range "a" "z")) (initialStream "test" "A")
            = Returns r /\ snd r = None.
Proof.
  assert (Hv : validStream (initialStream "test" "A"))
    by (split; vm_compute; [discriminate | reflexivity]).
  exists (Some (mkStringPS "A" 0 "test" 1 0 (VList [])), None).
  split; [reflexivity|].
  exact (Many_never_fails 3 ∅ (Range "a" "z") 0 true (initialStream "test" "A")
           _ _ Hv ltac:(lia) eq_refl).
Defined.

(** X19: [Many], [ManyDrop] and [ManyMin] do not return when their parser
    succeeds without consuming input (as [Optional] of a failing parser
    does): the loop tries the parser at the same position for ever.  In
    the embedding, the call runs out of fuel whatever the fuel. *)
Theorem Many_of_nonconsuming_diverges (fuel F : nat) (g : gmap string Parser)
  (p : Parser) (min : Z) (capture : bool) (s s1 : stringPS) :
  validStream s ->
  Parse fuel g p s = Returns (Some s1, None) ->
  pos s1 = pos s ->
  Parse F g (pMany p min capture) s = OutOfFuel.
Proof.
  intros Hv Hp Hpos. destruct F as [|F]; [reflexivity|].
  pose proof (Parse_sound _ _ _ _ _ Hp) as Hadv. simpl in Hadv.
  pose proof (advances_same_pos _ _ Hadv Hv Hpos) as Es1.
  assert (Hstep : forall t, (t = s \/ t = s1) ->
            Parse F g p t = OutOfFuel \/ Parse F g p t = Returns (Some s1, None)).
  { intros t Ht.
    assert (Et : Parse F g p t = Parse F g p s).
    { destruct Ht as [->| ->]; [reflexivity|]. rewrite Es1. apply Parse_blind. }
    rewrite Et. destruct (Nat.le_gt_cases fuel F) as [Hle|Hgt].
    - right. eapply Parse_more_fuel; eauto.
    - destruct (Parse F g p s) as [r| |] eqn:E; [right|right|left; reflexivity].
      + rewrite <- Hp. symmetry. eapply Parse_more_fuel; [|exact E]. lia.
      + pose proof (Parse_fuel_mono F fuel g ltac:(lia) p s) as Hm.
        rewrite E in Hm. rewrite Hm in Hp by discriminate. discriminate. }
  cbn [Parse parseStep]. unfold parseMany.
  assert (Hloop : forall n t found results, (t = s \/ t = s1) ->
            many_loop (Parse F g) n p capture t found results = OutOfFuel).
  { induction n as [|n IH]; intros t found results Ht; [reflexivity|]. simpl.
    destruct (Hstep t Ht) as [-> | ->]; [reflexivity|].
    cbn [mbind outcome_bind deref]. apply IH. now right. }
  rewrite Hloop by now left. reflexivity.
Qed.

Lemma Many_of_nonconsuming_diverges_witness :
  Parse 50 ∅ (Many (Optional (Literal "a"))) (initialStream "test" "b")
  = OutOfFuel.
Proof.
  assert (Hv : validStream (initialStream "test" "b"))
    by (split; vm_compute; [discriminate | reflexivity]).
  exact (Many_of_nonconsuming_diverges 2 50 ∅ (Optional (Literal "a")) 0 true
           (initialStream "test" "b") (initialStream "test" "b") Hv
           eq_refl eq_refl).
Defined.

(** ** Separated, terminated and delimited lists *)

Lemma sepBy_loop_run (parse : parseFn) (inner sep : Parser) (s last : stringPS)
  (vs : list Value) :
  sepRun parse inner sep s vs last ->
  forall (n : nat) (l0 : option stringPS) (err : option parseError)
         (results : list Value),
    (length vs < n)%nat ->
    exists err', sepBy_loop parse n inner sep (Some s) l0 err results
                 = Returns {| sep_ps := None; sep_last := Some last;
                              sep_err := err'; sep_results := results ++ vs |}.
Proof.
  induction 1 as [s e H | s s1 e H1 H2 | s s1 s2 vs last H1 H2 Hr IH];
    intros n l0 err results Hn; (destruct n as [|n]; [simpl in Hn; lia|]);
    cbn [sepBy_loop].
  - rewrite H. cbn [mbind outcome_bind]. rewrite app_nil_r. eauto.
  - rewrite H1. cbn [mbind outcome_bind]. rewrite H2. cbn [mbind outcome_bind].
    destruct n; cbn [sepBy_loop]; eauto.
  - rewrite H1. cbn [mbind outcome_bind]. rewrite H2. cbn [mbind outcome_bind].
    simpl in Hn.
    destruct (IH n (Some s1) None (results ++ [GetValue s1]) ltac:(lia))
      as [err' ->].
    rewrite <- app_assoc. eauto.
Qed.

(** X20: what [SepBy(p, sep)] returns.  Its loop parses an element, then a
    separator, and so on, and stops at the first of them that fails; the
    value is the slice of the elements' values, and the stream is the one
    the last parser that succeeded returned (so after a separator, when an
    element fails behind it), or the input stream when the first element
    fails. *)
Theorem SepBy_returns_elements (fuel F : nat) (g : gmap string Parser)
  (inner sep : Parser) (s last : stringPS) (vs : list Value) :
  sepRun (Parse fuel g) inner sep s vs last ->
  (fuel <= F)%nat -> (length vs < F)%nat ->
  Parse (S F) g (SepBy inner sep) s
  = Returns (Some (SetValue last (VList vs)), None).
Proof.
  intros Hr HF Hn.
  assert (Hr' : sepRun (Parse F g) inner sep s vs last).
  { clear Hn. induction Hr; [eapply sepRun_none | eapply sepRun_last
                            | eapply sepRun_more];
      eauto using Parse_more_fuel. }
  cbn [Parse parseStep SepBy]. unfold parseSepBy.
  destruct (sepBy_loop_run _ _ _ _ _ _ Hr' F None None [] Hn) as [err' ->].
  cbn [mbind outcome_bind]. unfold sep_finish. cbn [sep_results sep_last app].
  destruct (Z.gtb_spec 0 (Z.of_nat (length vs))); [lia|]. reflexivity.
Qed.

Lemma SepBy_returns_elements_witness :
  Parse 4 ∅ (SepBy (Literal "a") (Literal ",")) (initialStream "test" "a,a;")
  = Returns (Some (mkStringPS "a,a;" 3 "test" 1 0
                     (VList [VString "a"; VString "a"])), None).
Proof.
  refine (SepBy_returns_elements 1 3 ∅ (Literal "a") (Literal ",")
            (initialStream "test" "a,a;")
            (mkStringPS "a,a;" 3 "test" 1 0 (VString "a"))
            [VString "a"; VString "a"] _ ltac:(lia) ltac:(simpl; lia)).
  eapply (sepRun_more _ _ _ _ (mkStringPS "a,a;" 1 "test" 1 0 (VString "a"))
            (mkStringPS "a,a;" 2 "test" 1 0 (VString ",")));
    [reflexivity | reflexivity |].
  eapply (sepRun_last _ _ _ _ (mkStringPS "a,a;" 3 "test" 1 0 (VString "a")));
    reflexivity.
Defined.

Lemma endBy_loop_run (parse : parseFn) (inner sep : Parser) (s last : stringPS)
  (vs : list Value) :
  endRun parse inner sep s vs last ->
  forall (n : nat) (l0 : option stringPS) (err : option parseError)
         (results : list Value),
    (length vs < n)%nat ->
    exists err', endBy_loop parse n inner sep (Some s) l0 err results
                 = Returns {| sep_ps := None; sep_last := Some last;
                              sep_err := err'; sep_results := results ++ vs |}.
Proof.
  induction 1 as [s e H | s s1 e H1 H2 | s s1 s2 vs last H1 H2 Hr IH];
    intros n l0 err results Hn; (destruct n as [|n]; [simpl in Hn; lia|]);
    cbn [endBy_loop].
  - rewrite H. cbn [mbind outcome_bind]. rewrite app_nil_r. eauto.
  - rewrite H1. cbn [mbind outcome_bind]. rewrite H2. cbn [mbind outcome_bind].
    destruct n; cbn [endBy_loop]; eauto.
  - rewrite H1. cbn [mbind outcome_bind]. rewrite H2. cbn [mbind outcome_bind].
    simpl in Hn.
    destruct (IH n (Some s) None (results ++ [GetValue s1]) ltac:(lia))
      as [err' ->].
    rewrite <- app_assoc. eauto.
Qed.

(** X21: what [EndBy(p, sep)] returns.  Its loop parses an element, then a
    terminator, and so on, and stops at the first of them that fails; the
    stream is the one behind the last terminator that succeeded (the input
    stream when there is none), and the value is the slice of the values of
    all the elements that succeeded, the one whose terminator failed
    included. *)
Theorem EndBy_returns_elements (fuel F : nat) (g : gmap string Parser)
  (inner sep : Parser) (s last : stringPS) (vs : list Value) :
  endRun (Parse fuel g) inner sep s vs last ->
  (fuel <= F)%nat -> (length vs < F)%nat ->
  Parse (S F) g (EndBy inner sep) s
  = Returns (Some (SetValue last (VList vs)), None).
Proof.
  intros Hr HF Hn.
  assert (Hr' : endRun (Parse F g) inner sep s vs last).
  { clear Hn. induction Hr; [eapply endRun_none | eapply endRun_last
                            | eapply endRun_more];
      eauto using Parse_more_fuel. }
  cbn [Parse parseStep EndBy]. unfold parseEndBy.
  destruct (endBy_loop_run _ _ _ _ _ _ Hr' F None None [] Hn) as [err' ->].
  cbn [mbind outcome_bind]. unfold sep_finish. cbn [sep_results sep_last app].
  destruct (Z.gtb_spec 0 (Z.of_nat (length vs))); [lia|]. reflexivity.
Qed.

Lemma EndBy_returns_elements_witness :
  Parse 4 ∅ (EndBy (Literal "a") (Literal ";")) (initialStream "test" "a;a;b")
  = Returns (Some (mkStringPS "a;a;b" 4 "test" 1 0
                     (VList [VString "a"; VString "a"])), None).
Proof.
  refine (EndBy_returns_elements 1 3 ∅ (Literal "a") (Literal ";")
            (initialStream "test" "a;a;b")
            (mkStringPS "a;a;b" 4 "test" 1 0 (VString ";"))
            [VString "a"; VString "a"] _ ltac:(lia) ltac:(simpl; lia)).
  eapply (endRun_more _ _ _ _ (mkStringPS "a;a;b" 1 "test" 1 0 (VString "a"))
            (mkStringPS "a;a;b" 2 "test" 1 0 (VString ";")));
    [reflexivity | reflexivity |].
  eapply (endRun_more _ _ _ _ (mkStringPS "a;a;b" 3 "test" 1 0 (VString "a"))
            (mkStringPS "a;a;b" 4 "test" 1 0 (VString ";")));
    [reflexivity | reflexivity |].
  eapply endRun_none. reflexivity.
Defined.

Lemma manyTill_loop_run (parse : parseFn) (inner terminator : Parser)
  (s t : stringPS) (vs : list Value) :
  tillRun parse inner terminator s vs t ->
  forall (n : nat) (results : list Value),
    (length vs < n)%nat ->
    manyTill_loop parse n inner terminator s results
    = Returns (Some (SetValue t (VList (results ++ vs))), None).
Proof.
  induction 1 as [s t H | s e s1 vs t H1 H2 Hr IH];
    intros n results Hn; (destruct n as [|n]; [simpl in Hn; lia|]);
    cbn [manyTill_loop].
  - rewrite H. cbn [mbind outcome_bind]. now rewrite app_nil_r.
  - rewrite H1. cbn [mbind outcome_bind]. rewrite H2.
    cbn [mbind outcome_bind deref]. simpl in Hn.
    rewrite IH by lia. now rewrite <- app_assoc.
Qed.

(** X22: [ManyTill(body, terminator)] tries the terminator before every
    element: it stops at the first position where the terminator succeeds,
    returns the stream behind the terminator, and its value is the slice of
    the values of the elements parsed before. *)
Theorem ManyTill_stops_at_terminator (fuel F : nat) (g : gmap string Parser)
  (inner terminator : Parser) (s t : stringPS) (vs : list Value) :
  tillRun (Parse fuel g) inner terminator s vs t ->
  (fuel <= F)%nat -> (length vs < F)%nat ->
  Parse (S F) g (ManyTill inner terminator) s
  = Returns (Some (SetValue t (VList vs)), None).
Proof.
  intros Hr HF Hn.
  assert (Hr' : tillRun (Parse F g) inner terminator s vs t).
  { clear Hn. induction Hr; [eapply tillRun_stop | eapply tillRun_step];
      eauto using Parse_more_fuel. }
  cbn [Parse parseStep ManyTill].
  now rewrite (manyTill_loop_run _ _ _ _ _ _ Hr' F []).
Qed.

Lemma ManyTill_stops_at_terminator_witness :
  Parse 4 ∅ (ManyTill AnyChar (Literal "!")) (initialStream "test" "a!b!")
  = Returns (Some (mkStringPS "a!b!" 2 "test" 1 0 (VList [VByte "a"])), None).
Proof.
  refine (ManyTill_stops_at_terminator 1 3 ∅ AnyChar (Literal "!")
            (initialStream "test" "a!b!")
            (mkStringPS "a!b!" 2 "test" 1 0 (VString "!"))
            [VByte "a"] _ ltac:(lia) ltac:(simpl; lia)).
  eapply (tillRun_step _ _ _ _
            (mkErrorExpect (mkLoc "test" 1 0) "literal '%s'" [OpS "!"])
            (mkStringPS "a!b!" 1 "test" 1 0 (VByte "a")));
    [reflexivity | reflexivity |].
  eapply tillRun_stop. reflexivity.
Defined.

(** X23: [Optional], [SepBy], [SepBy1], [EndBy], [EndBy1] and [ManyTill]
    never return an error: a call that returns gives a stream. *)
Theorem errorFree_returns_no_error (fuel : nat) (g : gmap string Parser)
  (p : Parser) (s : stringPS) (ps1 : option stringPS)
  (err : option parseError) :
  errorFree p = true ->
  Parse fuel g p s = Returns (ps1, err) ->
  err = None /\ is_Some ps1.
Proof.
  intros Hp H.
  assert (Herr : err = None).
  { destruct p; try discriminate.
    - destruct fuel as [|fuel]; [discriminate|].
      cbn [Parse parseStep] in H. unfold parseOptional in H.
      inv_returns H. destruct a as [[r|] e]; now injection H as _ <-.
    - eapply SepBy_no_error; eauto.
    - eapply EndBy_no_error; eauto.
    - eapply ManyTill_no_error; eauto. }
  split; [exact Herr|]. subst err.
  destruct (parse_cases _ (Parse_sound fuel g) _ _ _ _ H)
    as [(s1 & -> & _)|(e & _ & [=])]. eauto.
Qed.

Lemma errorFree_returns_no_error_witness :
  exists r, Parse 3 ∅ (SepBy1 (Literal "a") (Literal ","))
              (initialStream "test" "a") = Returns r /\
            snd r = None /\ is_Some (fst r).
Proof.
  exists (Some (mkStringPS "a" 1 "test" 1 0 (VList [VString "a"])), None).
  split; [reflexivity|].
  exact (errorFree_returns_no_error 3 ∅ (SepBy1 (Literal "a") (Literal ","))
           (initialStream "test" "a") _ _ eq_refl eq_refl).
Defined.

(** ** Actions *)

Local Open Scope string_scope.

Lemma Sprintf_plain (text : string) :
  containsByte text "%" = false -> Sprintf text [] = text.
Proof.
  induction text as [|c text IH]; [reflexivity|]. cbn [containsByte Sprintf].
  rewrite Ascii.eqb_sym. destruct (Ascii.eqb c "%"); [discriminate|].
  intros H. now rewrite IH.
Qed.

(** X24: a parser with an action.  The error of the wrapped parser is
    returned as it is.  On success the action is applied to the parser's
    value: its result becomes the value of the stream the parser returned;
    its error becomes a parse error at the location of that stream, with no
    expected fragment and, for a text without percent sign, the action's
    text as message; its panic is not caught. *)
Theorem WithAction_results (fuel : nat) (g : gmap string Parser)
  (inner : Parser) (action : Action) (s : stringPS) :
  (forall ps1 e, Parse fuel g inner s = Returns (ps1, Some e) ->
     Parse (S fuel) g (parserWithAction inner action) s
     = Returns (None, Some e)) /\
  (forall s1 res, Parse fuel g inner s = Returns (Some s1, None) ->
     action (value s1) = Returns (res, None) ->
     Parse (S fuel) g (parserWithAction inner action) s
     = Returns (Some (SetValue s1 res), None)) /\
  (forall s1 res text, Parse fuel g inner s = Returns (Some s1, None) ->
     action (value s1) = Returns (res, Some text) ->
     containsByte text "%" = false ->
     Parse (S fuel) g (parserWithAction inner action) s
     = Returns (None, Some {| expected := []; message := text;
                              loc := LocOf s1 |})) /\
  (forall s1 msg, Parse fuel g inner s = Returns (Some s1, None) ->
     action (value s1) = Panics msg ->
     Parse (S fuel) g (parserWithAction inner action) s = Panics msg).
Proof.
  cbn [Parse parseStep parserWithAction]. unfold parseWithAction.
  repeat split.
  - intros ps1 e ->. reflexivity.
  - intros s1 res -> Hact. cbn [mbind outcome_bind deref]. unfold GetValue.
    now rewrite Hact.
  - intros s1 res text -> Hact Hpc. cbn [mbind outcome_bind deref].
    unfold GetValue. rewrite Hact. cbn [mbind outcome_bind].
    unfold mkErrorMessage. now rewrite Sprintf_plain.
  - intros s1 msg -> Hact. cbn [mbind outcome_bind deref]. unfold GetValue.
    now rewrite Hact.
Qed.

Lemma WithAction_results_witness :
  Parse 2 ∅ (parserWithAction (Literal "a")
               (fun _ => Returns (VNil, Some "not allowed")))
    (initialStream "test" "ab")
  = Returns (None, Some {| expected := []; message := "not allowed";
                           loc := {| Filename := "test"; Line := 1; Col := 0 |} |}).
Proof.
  destruct (WithAction_results 1 ∅ (Literal "a")
              (fun _ => Returns (VNil, Some "not allowed"))
              (initialStream "test" "ab")) as (_ & _ & H & _).
  exact (H (mkStringPS "ab" 1 "test" 1 0 (VString "a")) VNil "not allowed"
           eq_refl eq_refl eq_refl).
Defined.

(** X25: [Stringify(p)] turns a value of [p] that is a slice of bytes into
    the string of those bytes, on the stream [p] returned. *)
Theorem Stringify_bytes (fuel : nat) (g : gmap string Parser) (p : Parser)
  (s s1 : stringPS) (bs : list ascii) :
  Parse fuel g p s = Returns (Some s1, None) ->
  value s1 = VList (map VByte bs) ->
  Parse (S fuel) g (Stringify p) s
  = Returns (Some (SetValue s1 (VString (string_of_list_ascii bs))), None).
Proof.
  intros H Hval. cbn [Parse parseStep Stringify parserWithAction].
  unfold parseWithAction. rewrite H. cbn [mbind outcome_bind deref].
  unfold GetValue. rewrite Hval. unfold stringifyAction. rewrite bytesOf_bytes. reflexivity.
Qed.

Lemma Stringify_bytes_witness :
  Parse 5 ∅ (Stringify (Many (Range "a" "z"))) (initialStream "test" "ab")
  = Returns (Some (mkStringPS "ab" 2 "test" 1 0 (VString "ab")), None).
Proof.
  exact (Stringify_bytes 4 ∅ (Many (Range "a" "z")) (initialStream "test" "ab")
           (mkStringPS "ab" 2 "test" 1 0 (VList [VByte "a"; VByte "b"]))
           ["a"; "b"]%char eq_refl eq_refl).
Defined.

(** ** The grammar and the driver *)

(** X26: after [AddSymbols(syms)] a name of [syms] is bound to its parser in
    [syms], every other name is bound as before, and the start symbol is
    unchanged. *)
Theorem AddSymbols_table (g : Grammar) (syms : gmap string Parser) :
  symbols (AddSymbols g syms) = syms ∪ symbols g /\
  startSymbol (AddSymbols g syms) = startSymbol g.
Proof.
  unfold AddSymbols.
  apply (map_fold_weak_ind
           (fun (r : Grammar) (m : gmap string Parser) =>
              symbols r = m ∪ symbols g /\ startSymbol r = startSymbol g)).
  - split; [|reflexivity]. now rewrite (left_id_L ∅ (∪)).
  - intros k p m r Hk [Hs Hst]. split; [|exact Hst].
    cbn. rewrite Hs. now rewrite insert_union_l.
Qed.

(** X27: a driver call that returns a value and no error has parsed the
    whole input: the start parser has returned a stream at the end of the
    input, and the value is the one attached to it.  A call that returns an
    error returns the value nil with it. *)
Theorem ParseStringWith_consumes_input (fuel : nat) (g : Grammar)
  (file input startSym : string) (v : Value) (err : option parseError) :
  (Z.of_nat (String.length input) < 2 ^ 63)%Z ->
  ParseStringWith fuel g file input startSym = Returns (v, err) ->
  match err with
  | None =>
      exists p s, symbols g !! startSym = Some p /\
        Parse fuel (symbols g) p (initialStream file input)
        = Returns (Some s, None) /\
        pos s = Z.of_nat (String.length input) /\ value s = v
  | Some _ => v = VNil
  end.
Proof.
  intros Hlen. unfold ParseStringWith.
  destruct (symbols g !! startSym) as [p|] eqn:Hp; [|discriminate].
  intros H. inv_returns H. destruct a as [ps1 perr].
  destruct (parse_cases _ (Parse_sound fuel (symbols g)) _ _ _ _ Ha)
    as [(s & -> & -> & Hadv)|(e & -> & ->)].
  - cbn [deref] in H.
    assert (Hv : validStream (initialStream file input)) by (split; simpl; lia).
    destruct (advances_pos _ _ Hadv Hv) as [[_ Hle] Hvs].
    destruct (advances_fields _ _ Hadv) as [Hstr _]. simpl in Hle, Hstr.
    rewrite (Head_byteAt _ Hvs) in H.
    destruct (byteAt (str s) (pos s)) as [b|] eqn:Hb; cbn in H.
    + now injection H as <- <-.
    + injection H as <- <-. exists p, s. repeat split; auto.
      unfold byteAt in Hb. rewrite Hstr in Hb.
      destruct (Z.lt_ge_cases (pos s) (Z.of_nat (String.length input)))
        as [Hlt|Hge]; [|lia].
      destruct (get_lt_Some input (Z.to_nat (pos s))) as [b Hb'];
        [destruct Hvs; lia | congruence].
  - now injection H as <- <-.
Qed.

Lemma ParseStringWith_consumes_input_witness :
  exists p s,
    symbols (AddSymbol NewGrammar "START" (Literal "ab")) !! "START" = Some p /\
    Parse 2 (symbols (AddSymbol NewGrammar "START" (Literal "ab"))) p
      (initialStream "test" "ab") = Returns (Some s, None) /\
    pos s = 2%Z /\ value s = VString "ab".
Proof.
  exact (ParseStringWith_consumes_input 2
           (AddSymbol NewGrammar "START" (Literal "ab")) "test" "ab" "START"
           (VString "ab") None ltac:(simpl; lia) eq_refl).
Defined.

(** X28: [k] bytes into an input of the driver, for any [k] up to the length
    of the input, the stream is at position [k], its line is 1 plus the
    number of newline bytes among the first [k] bytes, and its column
    is 0. *)
Theorem line_counts_newlines (file input : string) (k : nat) :
  (k <= String.length input)%nat ->
  (Z.of_nat (String.length input) + 1 < 2 ^ 63)%Z ->
  exists t, tails k (initialStream file input) = Returns t /\
    pos t = Z.of_nat k /\
    line t = (1 + countNewlines (prefix k input))%Z /\
    col t = 0%Z /\ filename t = file /\ str t = input.
Proof.
  intros Hk Hlen.
  destruct (tails_line_col k (initialStream file input))
    as (t & Ht & Hs & Hf & Hp & Hl & Hc); simpl; try lia.
  - split; simpl; lia.
  - exists t. simpl in *. unfold prefix. auto 10.
Qed.

Lemma line_counts_newlines_witness :
  exists t, tails 3 (initialStream "test" (String newline (String newline "ab")))
            = Returns t /\ line t = 3%Z /\ col t = 0%Z.
Proof.
  destruct (line_counts_newlines "test"
              (String newline (String newline "ab")) 3
              ltac:(simpl; lia) ltac:(simpl; lia))
    as (t & Ht & _ & Hl & Hc & _).
  exists t. split; [exact Ht|]. split; [|exact Hc].
  rewrite Hl. vm_compute. reflexivity.
Defined.

(** ** The cached tail *)

Local Open Scope list_scope.

(** X29: [Tail] caches: once a call of [Tail] on a node has returned, a
    second call on the same node returns the same pointer and leaves the
    heap as it is. *)
Theorem Cache_Tail_memoised (h h' : Cache.heap) (s r : nat) :
  Cache.Tail h s = Returns (h', r) ->
  Cache.Tail h' s = Returns (h', r).
Proof.
  unfold Cache.Tail, Cache.load.
  destruct (h !! s) as [nd|] eqn:Hs; [|discriminate]. cbn [mbind outcome_bind].
  destruct (Cache.tail nd) as [t|] eqn:Ht.
  - intros [= <- <-]. rewrite Hs. cbn [mbind outcome_bind]. now rewrite Ht.
  - destruct (Tail (Cache.content nd)) as [tc| |]; [|discriminate..].
    cbn [mbind outcome_bind Cache.alloc]. intros [= <- <-].
    assert (Hlt : (s < length h)%nat) by (eapply lookup_lt_Some; eauto).
    rewrite list_lookup_insert_eq by (rewrite length_app; simpl; lia).
    reflexivity.
Qed.

Lemma Cache_Tail_memoised_witness :
  let h := [Cache.mkNode (initialStream "test" "ab") None] in
  exists h' r, Cache.Tail h 0 = Returns (h', r) /\
               Cache.Tail h' 0 = Returns (h', r).
Proof.
  intros h.
  exists [Cache.mkNode (initialStream "test" "ab") (Some 1%nat);
          Cache.mkNode (mkStringPS "ab" 1 "test" 1 0 VNil) None], 1%nat.
  split; [reflexivity|].
  exact (Cache_Tail_memoised h _ 0 1 eq_refl).
Defined.

Lemma Cache_Tail_witness :
  let h := [Cache.mkNode (initialStream "test" "ab") None] in
  exists h' r nr, Cache.Tail h 0 = Returns (h', r) /\ h' !! r = Some nr /\
    Tail (initialStream "test" "ab") = Returns (Cache.content nr).
Proof.
  intros h.
  assert (Hc : Cache.consistent h).
  { intros a nd t Ha Ht. destruct a as [|a]; [|discriminate].
    injection Ha as <-. discriminate. }
  pose (h' := [Cache.mkNode (initialStream "test" "ab") (Some 1%nat);
               Cache.mkNode (mkStringPS "ab" 1 "test" 1 0 VNil) None]).
  destruct (Cache_Tail h h' 0 1 Hc eq_refl) as (_ & _ & nd & nr & Hnd & Hnr & HT).
  exists h', 1%nat, nr. split; [reflexivity|]. split; [exact Hnr|].
  injection Hnd as <-. exact HT.
Defined.

Lemma Cache_SetValue_witness :
  let h := [Cache.mkNode (initialStream "test" "ab") None] in
  exists h' r nr, Cache.SetValue h 0 (VString "v") = Returns (h', r) /\
    h' !! r = Some nr /\
    Cache.content nr = SetValue (initialStream "test" "ab") (VString "v").
Proof.
  intros h.
  assert (Hc : Cache.consistent h).
  { intros a nd t Ha Ht. destruct a as [|a]; [|discriminate].
    injection Ha as <-. discriminate. }
  pose (h' := h ++ [Cache.mkNode (SetValue (initialStream "test" "ab")
                                    (VString "v")) None]).
  destruct (Cache_SetValue h h' 0 1 (VString "v") Hc eq_refl)
    as (_ & _ & nd & nr & Hnd & Hnr & Hcont).
  exists h', 1%nat, nr. split; [reflexivity|]. split; [exact Hnr|].
  injection Hnd as <-. exact Hcont.
Defined.

(** ** The file of an error *)

Local Open Scope string_scope.

Lemma literal_loop_file (target rest : string) (s : stringPS) (e : parseError) :
  literal_loop target rest s = Returns (None, Some e) ->
  Filename (loc e) = filename s.
Proof.
  revert s. induction rest as [|c rest IH]; intros s; simpl; [discriminate|].
  destruct (Head s) as [h eof]. destruct (eof || negb (c =? h)%char).
  - now intros [= <-].
  - intros H. inv_returns H. destruct (Tail_fields _ _ Ha) as (_ & Hf & _).
    rewrite <- Hf. eauto.
Qed.

Lemma literalIC_loop_file (target upcased rest : string) (i : nat)
  (s : stringPS) (e : parseError) :
  literalIC_loop target upcased rest i s = Returns (None, Some e) ->
  Filename (loc e) = filename s.
Proof.
  revert i s. induction rest as [|c rest IH]; intros i s; simpl; [discriminate|].
  destruct (Head s) as [h eof]. destruct eof; [now intros [= <-]|].
  destruct (String.get i upcased) as [u|]; [|discriminate].
  destruct (negb (u =? upperByte h)%char); [now intros [= <-]|].
  intros H. inv_returns H. destruct (Tail_fields _ _ Ha) as (_ & Hf & _).
  rewrite <- Hf. eauto.
Qed.

Lemma Tail_SetValue_no_error (s : stringPS) (v : Value) (e : parseError) :
  (t ← Tail s; success (SetValue t v)) <> Returns (None, Some e).
Proof. destruct (Tail s); discriminate. Qed.

Lemma primitives_file (s : stringPS) (e : parseError) :
  (parseAnyChar s = Returns (None, Some e) -> Filename (loc e) = filename s) /\
  (forall options, parseOneOf options s = Returns (None, Some e) ->
     Filename (loc e) = filename s) /\
  (forall blacklist, parseNoneOf blacklist s = Returns (None, Some e) ->
     Filename (loc e) = filename s) /\
  (forall lo hi, parseRange lo hi s = Returns (None, Some e) ->
     Filename (loc e) = filename s).
Proof.
  unfold parseAnyChar, parseOneOf, parseNoneOf, parseRange.
  destruct (Head s) as [c eof].
  repeat split; intros;
    repeat match goal with
      | H : (if ?b then _ else _) = _ |- _ => destruct b
      | H : mbind _ (Tail _) = _ |- _ => now apply Tail_SetValue_no_error in H
      | H : failure _ = Returns _ |- _ => injection H as <-
      end; reflexivity.
Qed.

Lemma seq_loop_file (parse : parseFn) (parsers : list Parser) (i : nat)
  (s : stringPS) (out : list Value) (e : parseError) :
  soundFn parse -> errorsInFile parse ->
  seq_loop parse parsers i s out = Returns (inl e) ->
  Filename (loc e) = filename s.
Proof.
  intros Hsound Hfile. revert i s out.
  induction parsers as [|p parsers IH]; intros i s out; simpl; [discriminate|].
  intros H. inv_returns H. destruct a as [ps1 err].
  destruct (parse_cases _ Hsound _ _ _ _ Ha) as [(s1 & -> & -> & Hadv)|(e' & -> & ->)].
  - cbn [deref] in H. destruct (advances_fields _ _ Hadv) as [_ Hf].
    rewrite <- Hf. eauto.
  - injection H as <-. eauto.
Qed.

Lemma seqAt_loop_file (parse : parseFn) (parsers : list Parser) (index : Z)
  (i : nat) (s : stringPS) (v : Value) (e : parseError) :
  soundFn parse -> errorsInFile parse ->
  seqAt_loop parse parsers index i s v = Returns (inl e) ->
  Filename (loc e) = filename s.
Proof.
  intros Hsound Hfile. revert i s v.
  induction parsers as [|p parsers IH]; intros i s v; simpl; [discriminate|].
  intros H. inv_returns H. destruct a as [ps1 err].
  destruct (parse_cases _ Hsound _ _ _ _ Ha) as [(s1 & -> & -> & Hadv)|(e' & -> & ->)].
  - destruct (advances_fields _ _ Hadv) as [_ Hf]. rewrite <- Hf.
    destruct (Z.of_nat i =? index)%Z; cbn [deref] in H; eauto.
  - injection H as <-. eauto.
Qed.

Lemma Parse_errors_in_file (fuel : nat) (g : gmap string Parser) :
  errorsInFile (Parse fuel g).
Proof.
  induction fuel as [|fuel IH]; intros p s e H; [discriminate|].
  pose proof (Parse_sound fuel g) as Hsound.
  destruct p.
  - eapply literal_loop_file; eauto.
  - eapply literalIC_loop_file; eauto.
  - cbn [Parse parseStep] in H. unfold parseAlt in H. inv_returns H.
    destruct a as [ret|errs]; [discriminate|]. inv_returns H.
    now injection H as <-.
  - cbn [Parse parseStep] in H. unfold parseSeq in H. inv_returns H.
    destruct a as [e'|[s' out]]; [|discriminate]. injection H as <-.
    eapply seq_loop_file; eauto.
  - cbn [Parse parseStep] in H. unfold parseSeqAt in H. inv_returns H.
    destruct a as [e'|[s' v]]; [|discriminate]. injection H as <-.
    eapply seqAt_loop_file; eauto.
  - cbn [Parse parseStep] in H. unfold parseOptional in H. inv_returns H.
    destruct a as [[r|] err]; discriminate.
  - cbn [Parse parseStep] in H. now apply (primitives_file s e).
  - cbn [Parse parseStep] in H.
    destruct (primitives_file s e) as (_ & H2 & _). eauto.
  - cbn [Parse parseStep] in H.
    destruct (primitives_file s e) as (_ & _ & H3 & _). eauto.
  - cbn [Parse parseStep] in H.
    destruct (primitives_file s e) as (_ & _ & _ & H4). eauto.
  - cbn [Parse parseStep] in H. unfold parseMany in H. inv_returns H.
    pose proof (many_loop_sound _ Hsound _ _ _ _ _ _ _ Ha) as Hadv.
    destruct (advances_fields _ _ Hadv) as [_ Hf].
    destruct (many_found a <? min)%Z.
    + injection H as <-. exact Hf.
    + destruct capture; discriminate.
  - apply SepBy_no_error in H. discriminate.
  - apply EndBy_no_error in H. discriminate.
  - apply ManyTill_no_error in H. discriminate.
  - cbn [Parse parseStep] in H. unfold parseWithAction in H. inv_returns H.
    destruct a as [ps1 err].
    destruct (parse_cases _ Hsound _ _ _ _ Ha)
      as [(s1 & -> & -> & Hadv)|(e' & -> & ->)].
    + cbn [deref] in H. inv_returns H. destruct a as [res [text|]];
        [|discriminate]. injection H as <-.
      now destruct (advances_fields _ _ Hadv).
    + injection H as <-. eauto.
  - cbn [Parse parseStep] in H. destruct (g !! name); [eauto | discriminate].
Qed.

(** X30: every error a parser returns, and every error the driver returns,
    is located in the file of the stream: its file name is the one the
    driver was called with. *)
Theorem errors_name_the_file (fuel : nat) (g : Grammar)
  (file input startSym : string) :
  (forall p s e, Parse fuel (symbols g) p s = Returns (None, Some e) ->
     Filename (loc e) = filename s) /\
  (forall v e, ParseStringWith fuel g file input startSym = Returns (v, Some e) ->
     Filename (loc e) = file).
Proof.
  split; [apply Parse_errors_in_file|].
  intros v e. unfold ParseStringWith.
  destruct (symbols g !! startSym) as [p|]; [|discriminate].
  intros H. inv_returns H. destruct a as [ps1 err].
  destruct (parse_cases _ (Parse_sound fuel (symbols g)) _ _ _ _ Ha)
    as [(s1 & -> & -> & Hadv)|(e' & -> & ->)].
  - cbn [deref] in H. destruct (advances_fields _ _ Hadv) as [_ Hf].
    destruct (Head s1) as [c eof]. destruct eof; cbn in H; [discriminate|].
    injection H as _ <-. exact Hf.
  - injection H as _ <-.
    exact (Parse_errors_in_file _ _ _ _ _ Ha).
Qed.

Lemma errors_name_the_file_witness :
  Filename (loc (mkErrorExpect (LocOf (initialStream "input.txt" "b"))
                   "literal '%s'" [OpS "a"]))
  = "input.txt".
Proof.
  exact (proj1 (errors_name_the_file 1 NewGrammar "" "" "")
           (Literal "a") (initialStream "input.txt" "b") _ eq_refl).
Defined.
